(** * scraper-geology-sk: merging borehole records from JSON exports

    A shallow embedding of [src/index.ts] together with the parts of the
    JavaScript run time it relies on ([JSON.parse], [JSON.stringify],
    property access, [Promise.all], lodash's [uniqBy], papaparse's
    [unparse], [path.dirname] and the [fs] promises API), followed by the
    properties of the merge engine and of the exporter. *)

From Stdlib Require Import ZArith NArith Lia.
From stdpp Require Import base option list sorting strings gmap.

#[local] Set Warnings "-clear-no-such-hyp,-register-all".

(** ** JavaScript strings

    A JavaScript string is a sequence of UTF-16 code units. *)

Definition js_string := list N.

Definition js (s : string) : js_string :=
  map Ascii.N_of_ascii (String.list_ascii_of_string s).

Abbreviation TAB := 9%N (only parsing).
Abbreviation LF := 10%N (only parsing).
Abbreviation CR := 13%N (only parsing).
Abbreviation SPACE := 32%N (only parsing).
Abbreviation QUOTE := 34%N (only parsing).
Abbreviation PLUS := 43%N (only parsing).
Abbreviation COMMA := 44%N (only parsing).
Abbreviation MINUS := 45%N (only parsing).
Abbreviation DOT := 46%N (only parsing).
Abbreviation SLASH := 47%N (only parsing).
Abbreviation ZERO := 48%N (only parsing).
Abbreviation COLON := 58%N (only parsing).
Abbreviation LBRACKET := 91%N (only parsing).
Abbreviation BACKSLASH := 92%N (only parsing).
Abbreviation RBRACKET := 93%N (only parsing).
Abbreviation LBRACE := 123%N (only parsing).
Abbreviation RBRACE := 125%N (only parsing).

(** Decimal digits are kept as numbers below ten; [digit_char] is the code
    unit of a digit. *)
Definition digit_char (d : N) : N := (ZERO + d)%N.

Definition is_digit (c : N) : bool := (ZERO <=? c)%N && (c <=? 57)%N.

Definition digit_of_char (c : N) : N := (c - ZERO)%N.

Fixpoint N_of_digits_acc (acc : N) (ds : list N) : N :=
  match ds with
  | [] => acc
  | d :: ds' => N_of_digits_acc (10 * acc + d)%N ds'
  end.

Definition N_of_digits (ds : list N) : N := N_of_digits_acc 0 ds.

Fixpoint digits_of_N_acc (fuel : nat) (n : N) (acc : list N) : list N :=
  match fuel with
  | O => acc
  | S fuel' =>
      let acc' := (n mod 10)%N :: acc in
      if (n <? 10)%N then acc' else digits_of_N_acc fuel' (n / 10)%N acc'
  end.

(** The decimal digits of [n], most significant first ([0] is [[0]]). *)
Definition digits_of_N (n : N) : list N :=
  digits_of_N_acc (S (N.to_nat (N.log2 n))) n [].

Definition decimal (n : N) : js_string := digit_char <$> digits_of_N n.

(** ** JavaScript numbers

    The numbers that [JSON.parse] can produce: a zero of either sign, an
    infinity of either sign (a literal beyond the double range) or a
    finite non-zero double.  A finite double is kept as the decimal that
    [Number::toString] prints for it, which is the shortest decimal that
    reads back as the double: the digits [s] (no leading and no trailing
    zero) and the exponent [e] of [s * 10^e].  Two doubles are equal
    exactly when these decimals are.  There is no NaN: no JSON text
    denotes it. *)

Inductive number :=
  | NZero (neg : bool)
  | NFin (neg : bool) (digits : list N) (exp : Z)
  | NInf (neg : bool).

#[global] Instance number_eq_dec : EqDecision number.
Proof. solve_decision. Defined.

(** The magnitude of a double: zero, infinity, or [m * 2^e] with the
    significand [m] below [2^53], and not below [2^52] unless [e] is the
    least exponent [-1074]. *)
Inductive binary64 :=
  | BZero
  | BFin (m : Z) (e : Z)
  | BInf.

#[global] Instance binary64_eq_dec : EqDecision binary64.
Proof. solve_decision. Defined.

(** The double nearest to the positive rational [p / q], a tie going to
    the even significand (roundTiesToEven).  [e0] is the exponent of the
    leading bit of [p / q]; what lies beyond the largest double is
    infinity. *)
Definition round_ratio (p q : Z) : binary64 :=
  let b := (Z.log2 p - Z.log2 q)%Z in
  let below := if (0 <=? b)%Z then (p <? q * 2 ^ b)%Z
               else (p * 2 ^ (- b) <? q)%Z in
  let e0 := if below then (b - 1)%Z else b in
  let e := Z.max (e0 - 52) (-1074) in
  let num := if (0 <=? e)%Z then p else (p * 2 ^ (- e))%Z in
  let den := if (0 <=? e)%Z then (q * 2 ^ e)%Z else q in
  let m0 := (num / den)%Z in
  let r := (num mod den)%Z in
  let m := if (2 * r <? den)%Z then m0
           else if (den <? 2 * r)%Z then (m0 + 1)%Z
           else if Z.even m0 then m0 else (m0 + 1)%Z in
  let '(m, e) := if (m =? 2 ^ 53)%Z then (2 ^ 52, e + 1)%Z else (m, e) in
  if (m =? 0)%Z then BZero
  else if (971 <? e)%Z then BInf
  else BFin m e.

(** The double nearest to [c * 10^q]. *)
Definition round_decimal (c : N) (q : Z) : binary64 :=
  if (c =? 0)%N then BZero
  else if (0 <=? q)%Z then round_ratio (Z.of_N c * 10 ^ q) 1
  else round_ratio (Z.of_N c) (10 ^ (- q)).

Fixpoint strip_zeros (ds : list N) : list N :=
  match ds with
  | d :: ds' => if (d =? 0)%N then strip_zeros ds' else ds
  | [] => []
  end.

(** Digits without a leading or a trailing zero. *)
Definition canonical_digits (ds : list N) : bool :=
  forallb (λ d, d <? 10)%N ds
  && match ds with d :: _ => negb (d =? 0)%N | [] => false end
  && match last ds with Some d => negb (d =? 0)%N | None => false end.

(** Digits without their trailing zeros, and the exponent that keeps the
    value. *)
Definition trim (ds : list N) (q : Z) : list N * Z :=
  let sig := reverse (strip_zeros (reverse ds)) in
  (sig, (q + Z.of_nat (length ds - length sig))%Z).

(** [c * 10^q] as a decimal, when it reads back as the double
    [m * 2^e]. *)
Definition accept (m e : Z) (c : Z) (q : Z) : option (list N * Z) :=
  let '(s, e') := trim (digits_of_N (Z.to_N c)) q in
  if canonical_digits s
     && bool_decide (round_decimal (N_of_digits s) e' = BFin m e)
  then Some (s, e') else None.

(** The position [n] of the decimal point of the positive rational
    [p / q]: [10^(n-1) <= p / q < 10^n]. *)
Definition decimal_position (p q : Z) : Z :=
  if (q <=? p)%Z then Z.of_nat (length (digits_of_N (Z.to_N (p / q))))
  else
    let d := Z.of_nat (length (digits_of_N (Z.to_N (q / p)))) in
    if (q <=? p * 10 ^ (d - 1))%Z then (2 - d)%Z else (1 - d)%Z.

(** The decimals of [k] digits next to [p / q], whose decimal point is at
    [n]: the one below and the one above.  Of those that read back as
    the double the nearer one is taken, and the even one on a tie. *)
Definition nearest_decimal (m e p q n : Z) (k : nat)
    : option (list N * Z) :=
  let x := (n - Z.of_nat k)%Z in
  let num := if (0 <=? x)%Z then p else (p * 10 ^ (- x))%Z in
  let den := if (0 <=? x)%Z then (q * 10 ^ x)%Z else q in
  let lo := (num / den)%Z in
  let r := (num mod den)%Z in
  match accept m e lo x, accept m e (lo + 1) x with
  | Some below, Some above =>
      if (2 * r <? den)%Z then Some below
      else if (den <? 2 * r)%Z then Some above
      else if Z.even lo then Some below else Some above
  | Some below, None => Some below
  | None, Some above => Some above
  | None, None => None
  end.

Fixpoint first_decimal (m e p q n : Z) (k : nat) (more : nat)
    : option (list N * Z) :=
  match nearest_decimal m e p q n k with
  | Some d => Some d
  | None =>
      match more with
      | O => None
      | S more' => first_decimal m e p q n (S k) more'
      end
  end.

(** The decimal that [Number::toString] prints for the double [m * 2^e]:
    the shortest one that reads back as the double and, among those, the
    nearest.  Seventeen digits are enough for every double. *)
Definition shortest (m e : Z) : option (list N * Z) :=
  let p := if (0 <=? e)%Z then (m * 2 ^ e)%Z else m in
  let q := if (0 <=? e)%Z then 1%Z else (2 ^ (- e))%Z in
  first_decimal m e p q (decimal_position p q) 1 16.

(** The number that the digits [ds] (no leading and no trailing zero)
    scaled by [10^e] denote: the nearest double.  Should no decimal of
    seventeen digits read back as the double, which does not happen, the
    double is kept as the decimal it was written with. *)
Definition number_of_canonical (neg : bool) (ds : list N) (e : Z) : number :=
  match round_decimal (N_of_digits ds) e with
  | BZero => NZero neg
  | BInf => NInf neg
  | BFin m e2 =>
      match shortest m e2 with
      | Some (s, e') => NFin neg s e'
      | None => NFin neg ds e
      end
  end.

(** The number denoted by the digits [ds] scaled by [10^e]. *)
Definition number_of_decimal (neg : bool) (ds : list N) (e : Z) : number :=
  let lead := strip_zeros ds in
  let sig := reverse (strip_zeros (reverse lead)) in
  let e' := (e + Z.of_nat (length lead - length sig))%Z in
  match sig with
  | [] => NZero neg
  | _ => number_of_canonical neg sig e'
  end.

Definition number_is_finite (x : number) : bool :=
  match x with NInf _ => false | _ => true end.

(** [Number::toString] on the digits [ds] and the position [n] of the
    decimal point ([n = e + length ds]). *)
Definition digits_to_string (ds : list N) (e : Z) : js_string :=
  let k := Z.of_nat (length ds) in
  let n := (e + k)%Z in
  let cs := digit_char <$> ds in
  if ((k <=? n) && (n <=? 21))%Z then
    cs ++ replicate (Z.to_nat (n - k)) ZERO
  else if ((0 <? n) && (n <=? 21))%Z then
    take (Z.to_nat n) cs ++ DOT :: drop (Z.to_nat n) cs
  else if ((-6 <? n) && (n <=? 0))%Z then
    ZERO :: DOT :: replicate (Z.to_nat (- n)) ZERO ++ cs
  else
    let x := (n - 1)%Z in
    let sign := if (x <? 0)%Z then MINUS else PLUS in
    let expo := 101%N :: sign :: decimal (Z.to_N (Z.abs x)) in
    match cs with
    | [] => expo
    | [c] => c :: expo
    | c :: cs' => c :: DOT :: cs' ++ expo
    end.

Definition number_to_string (x : number) : js_string :=
  match x with
  | NZero _ => [ZERO]
  | NFin neg ds e =>
      (if neg then [MINUS] else []) ++ digits_to_string ds e
  | NInf neg => (if neg then [MINUS] else []) ++ js "Infinity"
  end.

(** ** JavaScript values

    The values [JSON.parse] returns.  An object is the list of its own
    properties in property order. *)

Unset Elimination Schemes.
Inductive json :=
  | JNull
  | JBool (b : bool)
  | JNum (x : number)
  | JStr (s : js_string)
  | JArr (elems : list json)
  | JObj (props : list (js_string * json)).
Set Elimination Schemes.

Inductive js_error :=
  | TypeError
  | Error (message : js_string)
  | SystemError (code : js_string) (path : js_string).

(** The outcome of an evaluation: a value, or a thrown exception (a
    rejected promise, for asynchronous code). *)
Inductive result (A : Type) :=
  | Ok (a : A)
  | Throw (e : js_error).
Arguments Ok {A} a.
Arguments Throw {A} e.

Definition result_bind {A B} (r : result A) (k : A → result B) : result B :=
  match r with Ok a => k a | Throw e => Throw e end.

Definition succeeded {A} (r : result A) : option A :=
  match r with Ok a => Some a | Throw _ => None end.

Fixpoint own_property (name : js_string) (props : list (js_string * json))
    : option json :=
  match props with
  | [] => None
  | (k, v) :: props' =>
      if decide (k = name) then Some v else own_property name props'
  end.

(** [v.name] for a value that is neither [null] nor [undefined], where
    [name] is none of the names the built-in prototypes define and is
    neither [length] nor an index: an object answers with its own
    property, every other value with [undefined] ([None]). *)
Definition get_property (v : json) (name : js_string) : option json :=
  match v with
  | JObj props => own_property name props
  | _ => None
  end.

(** [Boolean(v)]. *)
Definition truthy (v : json) : bool :=
  match v with
  | JNull => false
  | JBool b => b
  | JNum (NZero _) => false
  | JNum _ => true
  | JStr s => negb (bool_decide (s = []))
  | JArr _ | JObj _ => true
  end.

Definition number_eqb (x y : number) : bool :=
  match x, y with
  | NZero _, NZero _ => true
  | NFin n1 d1 e1, NFin n2 d2 e2 =>
      bool_decide (n1 = n2) && bool_decide (d1 = d2) && bool_decide (e1 = e2)
  | NInf n1, NInf n2 => bool_decide (n1 = n2)
  | _, _ => false
  end.

(** SameValueZero on two values held at different places of a parsed
    document ([None] is [undefined]).  Primitives are compared by value,
    with [+0] equal to [-0].  Arrays and objects are compared by
    identity, and [JSON.parse] allocates every array and object afresh,
    so two of them met at different places are never the same. *)
Definition same_value_zero (a b : option json) : bool :=
  match a, b with
  | None, None => true
  | Some JNull, Some JNull => true
  | Some (JBool x), Some (JBool y) => bool_decide (x = y)
  | Some (JNum x), Some (JNum y) => number_eqb x y
  | Some (JStr x), Some (JStr y) => bool_decide (x = y)
  | _, _ => false
  end.

(** ** Property order of objects

    An object lists the properties whose names are array indices first,
    in ascending numeric order, then the others in the order they were
    created.  Assigning to an existing property keeps its place. *)

Definition array_index (k : js_string) : option N :=
  match k with
  | [] => None
  | c :: k' =>
      if forallb is_digit k
         && implb (c =? ZERO)%N (bool_decide (k' = []))
         && (length k <=? 10)%nat
         && (N_of_digits (digit_of_char <$> k) <? 2 ^ 32 - 1)%N
      then Some (N_of_digits (digit_of_char <$> k))
      else None
  end.

Fixpoint replace_property (k : js_string) (v : json)
    (props : list (js_string * json)) : list (js_string * json) :=
  match props with
  | [] => []
  | (k', v') :: props' =>
      if decide (k' = k) then (k, v) :: props'
      else (k', v') :: replace_property k v props'
  end.

Fixpoint insert_index (i : N) (k : js_string) (v : json)
    (props : list (js_string * json)) : list (js_string * json) :=
  match props with
  | [] => [(k, v)]
  | (k', v') :: props' =>
      match array_index k' with
      | Some j =>
          if (j <? i)%N then (k', v') :: insert_index i k v props'
          else (k, v) :: props
      | None => (k, v) :: props
      end
  end.

(** [obj[k] = v] on a plain object (CreateDataProperty). *)
Definition set_property (k : js_string) (v : json)
    (props : list (js_string * json)) : list (js_string * json) :=
  match own_property k props with
  | Some _ => replace_property k v props
  | None =>
      match array_index k with
      | Some i => insert_index i k v props
      | None => props ++ [(k, v)]
      end
  end.

(** ** JSON *)

Module JSON.

Definition is_ws (c : N) : bool :=
  (c =? SPACE)%N || (c =? TAB)%N || (c =? LF)%N || (c =? CR)%N.

Fixpoint skip_ws (s : js_string) : js_string :=
  match s with
  | c :: s' => if is_ws c then skip_ws s' else s
  | [] => []
  end.

Definition hex_value (c : N) : option N :=
  if is_digit c then Some (c - ZERO)%N
  else if ((97 <=? c) && (c <=? 102))%N then Some (c - 87)%N
  else if ((65 <=? c) && (c <=? 70))%N then Some (c - 55)%N
  else None.

Definition hex4 (a b c d : N) : option N :=
  match hex_value a, hex_value b, hex_value c, hex_value d with
  | Some x, Some y, Some z, Some w =>
      Some (4096 * x + 256 * y + 16 * z + w)%N
  | _, _, _, _ => None
  end.

(** The character a single-character escape stands for. *)
Definition unescape (c : N) : option N :=
  if (c =? QUOTE)%N then Some QUOTE
  else if (c =? BACKSLASH)%N then Some BACKSLASH
  else if (c =? SLASH)%N then Some SLASH
  else if (c =? 98)%N then Some 8%N
  else if (c =? 102)%N then Some 12%N
  else if (c =? 110)%N then Some LF
  else if (c =? 114)%N then Some CR
  else if (c =? 116)%N then Some TAB
  else None.

Definition cons_chars (c : N) (r : option (js_string * js_string))
    : option (js_string * js_string) :=
  match r with
  | Some (cs, rest) => Some (c :: cs, rest)
  | None => None
  end.

(** The characters of a string literal after its opening quote, and the
    text after its closing quote. *)
Fixpoint parse_chars (s : js_string) : option (js_string * js_string) :=
  match s with
  | [] => None
  | c :: s1 =>
      if (c =? QUOTE)%N then Some ([], s1)
      else if (c =? BACKSLASH)%N then
        match s1 with
        | [] => None
        | e :: s2 =>
            if (e =? 117)%N then
              match s2 with
              | h1 :: h2 :: h3 :: h4 :: s3 =>
                  match hex4 h1 h2 h3 h4 with
                  | Some u => cons_chars u (parse_chars s3)
                  | None => None
                  end
              | _ => None
              end
            else
              match unescape e with
              | Some u => cons_chars u (parse_chars s2)
              | None => None
              end
        end
      else if (c <? SPACE)%N then None
      else cons_chars c (parse_chars s1)
  end.

Fixpoint take_digits (s : js_string) : list N * js_string :=
  match s with
  | c :: s' =>
      if is_digit c then
        let '(ds, rest) := take_digits s' in (digit_of_char c :: ds, rest)
      else ([], s)
  | [] => ([], [])
  end.

(** The integer part: a single [0], or digits that start with a
    non-zero digit. *)
Definition parse_int (s : js_string) : option (list N * js_string) :=
  match s with
  | c :: s' =>
      if (c =? ZERO)%N then Some ([0%N], s')
      else if is_digit c then Some (take_digits s)
      else None
  | [] => None
  end.

Definition parse_frac (s : js_string) : option (list N * js_string) :=
  match s with
  | c :: s' =>
      if (c =? DOT)%N then
        match take_digits s' with
        | ([], _) => None
        | (ds, rest) => Some (ds, rest)
        end
      else Some ([], s)
  | [] => Some ([], [])
  end.

Definition parse_exp (s : js_string) : option (Z * js_string) :=
  match s with
  | c :: s' =>
      if (c =? 101)%N || (c =? 69)%N then
        let '(neg, s'') :=
          match s' with
          | d :: t =>
              if (d =? MINUS)%N then (true, t)
              else if (d =? PLUS)%N then (false, t)
              else (false, s')
          | [] => (false, s')
          end in
        match take_digits s'' with
        | ([], _) => None
        | (ds, rest) =>
            let x := Z.of_N (N_of_digits ds) in
            Some (if neg then (- x)%Z else x, rest)
        end
      else Some (0%Z, s)
  | [] => Some (0%Z, [])
  end.

(** The digits of a number literal, after its sign. *)
Definition parse_magnitude (neg : bool) (s : js_string)
    : option (number * js_string) :=
  match parse_int s with
  | None => None
  | Some (int, s1) =>
      match parse_frac s1 with
      | None => None
      | Some (frac, s2) =>
          match parse_exp s2 with
          | None => None
          | Some (x, s3) =>
              Some (number_of_decimal neg (int ++ frac)
                      (x - Z.of_nat (length frac))%Z, s3)
          end
      end
  end.

Definition parse_number (s : js_string) : option (number * js_string) :=
  match s with
  | c :: s' =>
      if (c =? MINUS)%N then parse_magnitude true s'
      else parse_magnitude false s
  | [] => None
  end.

(** [expect word s] is the text after [word] when [s] starts with it. *)
Fixpoint expect (word s : js_string) : option js_string :=
  match word, s with
  | [], _ => Some s
  | w :: word', c :: s' => if (w =? c)%N then expect word' s' else None
  | _ :: _, [] => None
  end.

Definition literal (word : js_string) (v : json) (s : js_string)
    : option (json * js_string) :=
  match expect word s with
  | Some rest => Some (v, rest)
  | None => None
  end.

(** The object a list of members in source order builds: each member is
    assigned in turn, so a repeated key keeps its first place and its
    last value. *)
Definition object_of_members (members : list (js_string * json))
    : list (js_string * json) :=
  foldl (λ props m, set_property m.1 m.2 props) [] members.

(** Recursive descent.  [parse_value] reads the value that starts at the
    head of the text; [parse_elements] and [parse_members] read what
    follows an opening bracket or brace up to the closing one.  Every
    call consumes a character, so the length of the text bounds the
    depth of the calls. *)
Fixpoint parse_value (fuel : nat) (s : js_string)
    : option (json * js_string) :=
  match fuel with
  | O => None
  | S fuel' =>
      match s with
      | [] => None
      | c :: s1 =>
          if (c =? LBRACE)%N then
            match skip_ws s1 with
            | d :: s2 =>
                if (d =? RBRACE)%N then Some (JObj [], s2)
                else
                  match parse_members fuel' (d :: s2) with
                  | Some (members, rest) =>
                      Some (JObj (object_of_members members), rest)
                  | None => None
                  end
            | [] => None
            end
          else if (c =? LBRACKET)%N then
            match skip_ws s1 with
            | d :: s2 =>
                if (d =? RBRACKET)%N then Some (JArr [], s2)
                else
                  match parse_elements fuel' (d :: s2) with
                  | Some (elems, rest) => Some (JArr elems, rest)
                  | None => None
                  end
            | [] => None
            end
          else if (c =? QUOTE)%N then
            match parse_chars s1 with
            | Some (cs, rest) => Some (JStr cs, rest)
            | None => None
            end
          else if (c =? 116)%N then literal (js "true") (JBool true) s
          else if (c =? 102)%N then literal (js "false") (JBool false) s
          else if (c =? 110)%N then literal (js "null") JNull s
          else
            match parse_number s with
            | Some (x, rest) => Some (JNum x, rest)
            | None => None
            end
      end
  end
with parse_elements (fuel : nat) (s : js_string)
    : option (list json * js_string) :=
  match fuel with
  | O => None
  | S fuel' =>
      match parse_value fuel' s with
      | None => None
      | Some (v, s1) =>
          match skip_ws s1 with
          | c :: s2 =>
              if (c =? COMMA)%N then
                match parse_elements fuel' (skip_ws s2) with
                | Some (vs, rest) => Some (v :: vs, rest)
                | None => None
                end
              else if (c =? RBRACKET)%N then Some ([v], s2)
              else None
          | [] => None
          end
      end
  end
with parse_members (fuel : nat) (s : js_string)
    : option (list (js_string * json) * js_string) :=
  match fuel with
  | O => None
  | S fuel' =>
      match s with
      | q :: s0 =>
          if (q =? QUOTE)%N then
            match parse_chars s0 with
            | None => None
            | Some (k, s1) =>
                match skip_ws s1 with
                | c :: s2 =>
                    if (c =? COLON)%N then
                      match parse_value fuel' (skip_ws s2) with
                      | None => None
                      | Some (v, s3) =>
                          match skip_ws s3 with
                          | d :: s4 =>
                              if (d =? COMMA)%N then
                                match parse_members fuel' (skip_ws s4) with
                                | Some (members, rest) =>
                                    Some ((k, v) :: members, rest)
                                | None => None
                                end
                              else if (d =? RBRACE)%N then
                                Some ([(k, v)], s4)
                              else None
                          | [] => None
                          end
                      end
                    else None
                | [] => None
                end
            end
          else None
      | [] => None
      end
  end.


(** [JSON.parse(text)]; [None] is a thrown [SyntaxError]. *)
Definition parse (text : js_string) : option json :=
  match parse_value (S (length text)) (skip_ws text) with
  | Some (v, rest) =>
      match skip_ws rest with
      | [] => Some v
      | _ :: _ => None
      end
  | None => None
  end.

Definition hex_digit (d : N) : N :=
  if (d <? 10)%N then (ZERO + d)%N else (87 + d)%N.

(** [\uXXXX], in lower-case hexadecimal. *)
Definition unicode_escape (c : N) : js_string :=
  [BACKSLASH; 117%N;
   hex_digit (c / 4096 mod 16)%N; hex_digit (c / 256 mod 16)%N;
   hex_digit (c / 16 mod 16)%N; hex_digit (c mod 16)%N].

Definition is_high_surrogate (c : N) : bool :=
  (55296 <=? c)%N && (c <=? 56319)%N.

Definition is_low_surrogate (c : N) : bool :=
  (56320 <=? c)%N && (c <=? 57343)%N.

(** One code unit that is not half of a surrogate pair. *)
Definition quote_char (c : N) : js_string :=
  if (c =? 8)%N then [BACKSLASH; 98%N]
  else if (c =? TAB)%N then [BACKSLASH; 116%N]
  else if (c =? LF)%N then [BACKSLASH; 110%N]
  else if (c =? 12)%N then [BACKSLASH; 102%N]
  else if (c =? CR)%N then [BACKSLASH; 114%N]
  else if (c =? QUOTE)%N then [BACKSLASH; QUOTE]
  else if (c =? BACKSLASH)%N then [BACKSLASH; BACKSLASH]
  else if (c <? SPACE)%N || is_high_surrogate c || is_low_surrogate c
  then unicode_escape c
  else [c].

(** The body of QuoteJSONString: a surrogate pair is copied, a lone
    surrogate is escaped. *)
Fixpoint quote_chars (s : js_string) : js_string :=
  match s with
  | [] => []
  | c :: s1 =>
      if is_high_surrogate c then
        match s1 with
        | d :: s2 =>
            if is_low_surrogate d then c :: d :: quote_chars s2
            else unicode_escape c ++ quote_chars s1
        | [] => unicode_escape c
        end
      else quote_char c ++ quote_chars s1
  end.

Definition quote (s : js_string) : js_string :=
  QUOTE :: quote_chars s ++ [QUOTE].

Definition gap : js_string := [SPACE; SPACE].

(** SerializeJSONProperty with the two-space gap, at indentation
    [indent].  A number that is not finite is written [null]. *)
Fixpoint serialize (indent : js_string) (v : json) : js_string :=
  match v with
  | JNull => js "null"
  | JBool true => js "true"
  | JBool false => js "false"
  | JNum x => if number_is_finite x then number_to_string x else js "null"
  | JStr s => quote s
  | JArr [] => js "[]"
  | JArr (v1 :: vs) =>
      let inner := indent ++ gap in
      LBRACKET :: LF :: inner ++ serialize inner v1 ++
      (fix elements (l : list json) : js_string :=
         match l with
         | [] => LF :: indent ++ [RBRACKET]
         | x :: l' => COMMA :: LF :: inner ++ serialize inner x ++ elements l'
         end) vs
  | JObj [] => js "{}"
  | JObj ((k1, v1) :: ps) =>
      let inner := indent ++ gap in
      LBRACE :: LF :: inner ++ quote k1 ++ COLON :: SPACE ::
      serialize inner v1 ++
      (fix members (l : list (js_string * json)) : js_string :=
         match l with
         | [] => LF :: indent ++ [RBRACE]
         | (k, x) :: l' =>
             COMMA :: LF :: inner ++ quote k ++ COLON :: SPACE ::
             serialize inner x ++ members l'
         end) ps
  end.

(** [JSON.stringify(value, null, 2)]. *)
Definition stringify (v : json) : js_string := serialize [] v.

End JSON.

(** ** path *)

Module path.

Fixpoint drop_while (f : N → bool) (l : js_string) : js_string :=
  match l with
  | x :: l' => if f x then drop_while f l' else l
  | [] => []
  end.

(** [path.dirname] (POSIX).  Trailing slashes and the last component go;
    what is left up to the slash before them is the directory. *)
Definition dirname (p : js_string) : js_string :=
  match p with
  | [] => js "."
  | c :: rest =>
      let has_root := bool_decide (c = SLASH) in
      let is_slash := λ x : N, bool_decide (x = SLASH) in
      let tail :=
        drop_while (λ x, negb (is_slash x))
          (drop_while is_slash (reverse rest)) in
      match tail with
      | [] => if has_root then [SLASH] else js "."
      | _ :: before =>
          match before with
          | [] => if has_root then [SLASH; SLASH] else [c]
          | _ :: _ => c :: reverse before
          end
      end
  end.

Fixpoint parents (fuel : nat) (p : js_string) : list js_string :=
  match fuel with
  | O => []
  | S fuel' =>
      let d := dirname p in
      if decide (d = p) then [] else d :: parents fuel' d
  end.

(** The directories above [p], nearest first. *)
Definition ancestors (p : js_string) : list js_string :=
  parents (S (length p)) p.

End path.

(** ** The environment

    Paths are taken as names: two spellings of one location are two
    names.  [w_glob] is what the [glob] package answers for a pattern and
    [w_schedule] the order in which the environment completes the reads
    of a [Promise.all] (task indices; tasks it does not mention complete
    afterwards, in index order).  [w_bytes] stands for the part of
    [Buffer.from] that is not modelled: the text that the bytes of a
    sequence of chunks read back as, when one of them is an array or an
    array-like object. *)

Record world := World {
  w_files : gmap js_string js_string;
  w_dirs : gset js_string;
  w_console : list js_string;
  w_glob : js_string → result (list js_string);
  w_schedule : list nat;
  w_bytes : list json → js_string;
}.

(** Asynchronous code: a computation over the environment that resolves
    with a value or rejects. *)
Definition IO (A : Type) : Type := world → result A * world.

#[global] Instance IO_ret : MRet IO := λ A a w, (Ok a, w).

#[global] Instance IO_bind : MBind IO := λ A B k m w,
  match m w with
  | (Ok a, w') => k a w'
  | (Throw e, w') => (Throw e, w')
  end.

Definition throw {A} (e : js_error) : IO A := λ w, (Throw e, w).

Definition lift {A} (r : result A) : IO A := λ w, (r, w).

Definition console_log (msg : js_string) : IO unit := λ w,
  (Ok (),
   World (w_files w) (w_dirs w) (w_console w ++ [msg]) (w_glob w)
     (w_schedule w) (w_bytes w)).

(** What [fsp.writeFile] is given: text, or a sequence of chunks (an
    array is iterable). *)
Inductive file_data :=
  | Text (text : js_string)
  | Chunks (chunks : list json).

(** A chunk as [Buffer.from(chunk, "utf-8")] takes it: text, bytes made
    of an array or an array-like object, or a value it refuses. *)
Inductive chunk_kind :=
  | TextChunk (text : js_string)
  | BytesChunk
  | BadChunk.

(** The text that the UTF-8 bytes of a string read back as: a surrogate
    that is not half of a pair is replaced by U+FFFD. *)
Fixpoint to_well_formed (s : js_string) : js_string :=
  match s with
  | [] => []
  | c :: s1 =>
      if JSON.is_high_surrogate c then
        match s1 with
        | d :: s2 =>
            if JSON.is_low_surrogate d then c :: d :: to_well_formed s2
            else 65533%N :: to_well_formed s1
        | [] => [65533%N]
        end
      else if JSON.is_low_surrogate c then 65533%N :: to_well_formed s1
      else c :: to_well_formed s1
  end.

(** [fromObject] of [Buffer.from]: an object with a [length] is taken as
    array-like (a [length] that is no number gives no bytes), and so is
    the shape [{type: "Buffer", data: [...]}]. *)
Definition from_object (props : list (js_string * json)) : chunk_kind :=
  match own_property (js "length") props with
  | Some (JNum _) => BytesChunk
  | Some _ => TextChunk []
  | None =>
      match own_property (js "type") props,
            own_property (js "data") props with
      | Some (JStr t), Some (JArr _) =>
          if decide (t = js "Buffer") then BytesChunk else BadChunk
      | _, _ => BadChunk
      end
  end.

(** [Buffer.from] on a value of a parsed document.  A string gives its
    bytes and an array its elements as bytes.  An object is first asked
    for [valueOf]: calling a member of that name throws, unless it is
    falsy, and the empty string is then taken for the value.  Numbers and
    booleans are refused with a TypeError, as is every other object. *)
Definition chunk_of (chunk : json) : chunk_kind :=
  match chunk with
  | JStr s => TextChunk (to_well_formed s)
  | JArr [] => TextChunk []
  | JArr (_ :: _) => BytesChunk
  | JObj props =>
      match own_property (js "valueOf") props with
      | Some (JStr []) => TextChunk []
      | Some v => if truthy v then BadChunk else from_object props
      | None => from_object props
      end
  | JNull | JBool _ | JNum _ => BadChunk
  end.

(** The chunks that are written: those before the first refused one. *)
Fixpoint written_chunks (chunks : list json) : list json :=
  match chunks with
  | [] => []
  | chunk :: chunks' =>
      match chunk_of chunk with
      | BadChunk => []
      | _ => chunk :: written_chunks chunks'
      end
  end.

(** The text of chunks that are all text. *)
Fixpoint chunks_text (chunks : list json) : option js_string :=
  match chunks with
  | [] => Some []
  | chunk :: chunks' =>
      match chunk_of chunk, chunks_text chunks' with
      | TextChunk s, Some t => Some (s ++ t)
      | _, _ => None
      end
  end.

Module fsp.

(** [fsp.readFile(path, "utf-8")]. *)
Definition readFile (p : js_string) : IO js_string := λ w,
  match w_files w !! p with
  | Some content => (Ok content, w)
  | None =>
      (Throw (SystemError
                (if decide (p ∈ w_dirs w) then js "EISDIR" else js "ENOENT")
                p), w)
  end.

(** [fsp.mkdir(path, {recursive: true})]: creates the directory and the
    directories above it.  It rejects with EEXIST when the path is a
    file and with ENOTDIR when a directory above it is one. *)
Definition mkdir (p : js_string) : IO unit := λ w,
  if decide (p ∈ dom (w_files w)) then
    (Throw (SystemError (js "EEXIST") p), w)
  else if decide (Exists (λ d, d ∈ dom (w_files w)) (path.ancestors p)) then
    (Throw (SystemError (js "ENOTDIR") p), w)
  else
    (Ok (),
     World (w_files w) (list_to_set (p :: path.ancestors p) ∪ w_dirs w)
       (w_console w) (w_glob w) (w_schedule w) (w_bytes w)).

(** The error of opening [p] for writing, if it cannot be opened: the
    path is empty, a directory above it is a file or is missing, or the
    path is a directory or, ending in a slash, the name of one. *)
Definition open_error (p : js_string) (files : gmap js_string js_string)
    (dirs : gset js_string) : option js_error :=
  let parent := path.dirname p in
  let name := reverse (path.drop_while (λ c, bool_decide (c = SLASH))
                         (reverse p)) in
  if decide (p = []) then Some (SystemError (js "ENOENT") p)
  else if decide (Exists (λ d, d ∈ dom files)
                    (parent :: path.ancestors parent)) then
    Some (SystemError (js "ENOTDIR") p)
  else if decide (parent ∈ dirs) then
    if decide (p ∈ dirs) then Some (SystemError (js "EISDIR") p)
    else if decide (last p = Some SLASH) then
      if decide (name ∈ dom files)
      then Some (SystemError (js "ENOTDIR") p)
      else Some (SystemError (js "EISDIR") p)
    else None
  else Some (SystemError (js "ENOENT") p).

(** What the file holds after the write: the text, or the chunks written
    before the first one refused. *)
Definition written_text (bytes : list json → js_string) (data : file_data)
    : js_string :=
  match data with
  | Text s => to_well_formed s
  | Chunks chunks =>
      let taken := written_chunks chunks in
      default (bytes taken) (chunks_text taken)
  end.

(** How the write ends: a refused chunk rejects it. *)
Definition write_outcome (data : file_data) : result unit :=
  match data with
  | Text _ => Ok ()
  | Chunks chunks =>
      if decide (length (written_chunks chunks) = length chunks) then Ok ()
      else Throw TypeError
  end.

(** [fsp.writeFile(path, data, "utf-8")]: opens the file, which creates
    or empties it, and writes the text, or the chunks one after the
    other up to the first one refused. *)
Definition writeFile (p : js_string) (data : file_data) : IO unit := λ w,
  match open_error p (w_files w) (w_dirs w) with
  | Some e => (Throw e, w)
  | None =>
      (write_outcome data,
       World (<[p := written_text (w_bytes w) data]> (w_files w)) (w_dirs w)
         (w_console w) (w_glob w) (w_schedule w) (w_bytes w))
  end.

End fsp.

(** ** Promise.all *)

Module Promise.

(** The promises settle in [order].  A fulfilled one stores its value in
    its own slot; the first rejected one rejects the whole. *)
Fixpoint settle {A} (order : list nat) (tasks : list (result A))
    (values : list (option A)) : result (list (option A)) :=
  match order with
  | [] => Ok values
  | i :: order' =>
      match tasks !! i with
      | Some (Ok v) => settle order' tasks (<[i := Some v]> values)
      | Some (Throw e) => Throw e
      | None => settle order' tasks values
      end
  end.

Definition all {A} (schedule : list nat) (tasks : list (result A))
    : result (list A) :=
  let n := length tasks in
  match settle (schedule ++ seq 0 n) tasks (replicate n None) with
  | Ok values => Ok (omap id values)
  | Throw e => Throw e
  end.

End Promise.

(** ** lodash *)

(** The loop of [baseUniq] with an iteratee: [seen] holds the criteria of
    the values kept so far. *)
Fixpoint baseUniq {A} (iteratee : A → option json) (array : list A)
    (seen : list (option json)) (result : list A) : list A :=
  match array with
  | [] => result
  | value :: array' =>
      let computed := iteratee value in
      if existsb (same_value_zero computed) seen
      then baseUniq iteratee array' seen result
      else baseUniq iteratee array' (seen ++ [computed]) (result ++ [value])
  end.

Definition uniqBy {A} (array : list A) (iteratee : A → option json)
    : list A :=
  baseUniq iteratee array [] [].

(** ** papaparse *)

Module Papa.

(** The string conversion of a cell value. *)
Fixpoint to_string (v : json) : js_string :=
  match v with
  | JNull => js "null"
  | JBool true => js "true"
  | JBool false => js "false"
  | JNum x => number_to_string x
  | JStr s => s
  | JArr vs =>
      (fix join (l : list json) : js_string :=
         match l with
         | [] => []
         | x :: l' =>
             match x with JNull => [] | _ => to_string x end ++
             match l' with [] => [] | _ :: _ => COMMA :: join l' end
         end) vs
  | JObj _ => js "[object Object]"
  end.

Definition escape_quotes (s : js_string) : js_string :=
  s ≫= λ c, if (c =? QUOTE)%N then [QUOTE; QUOTE] else [c].

Definition needs_quotes (s : js_string) : bool :=
  existsb (λ c, (c =? CR)%N || (c =? LF)%N || (c =? QUOTE)%N
                || (c =? 65279)%N || (c =? COMMA)%N) s
  || bool_decide (head s = Some SPACE)
  || bool_decide (last s = Some SPACE).

(** [safe]: an absent or null cell is empty; other cells are quoted
    when they hold a delimiter, a quote, a line break or an outer
    space. *)
Definition safe (cell : option json) : js_string :=
  match cell with
  | None | Some JNull => []
  | Some v =>
      let str := escape_quotes (to_string v) in
      if needs_quotes str then QUOTE :: str ++ [QUOTE] else str
  end.

Fixpoint join (sep : js_string) (parts : list js_string) : js_string :=
  match parts with
  | [] => []
  | [x] => x
  | x :: parts' => x ++ sep ++ join sep parts'
  end.

(** [row[field]]: an own property of an object, an element of an array
    or a character of a string. *)
Definition cell_of (row : json) (field : js_string) : option json :=
  match row with
  | JObj props => own_property field props
  | JArr elems => i ← array_index field; elems !! N.to_nat i
  | JStr s => i ← array_index field; c ← s !! N.to_nat i; Some (JStr [c])
  | _ => None
  end.

Definition keyless (row : json) : bool :=
  match row with
  | JObj props => bool_decide (props = [])
  | JArr elems => bool_decide (elems = [])
  | JStr s => bool_decide (s = [])
  | _ => true
  end.

(** A row under a header: one cell per header field. *)
Definition keyed_row (fields : list js_string) (row : json) : js_string :=
  if keyless row then []
  else join [COMMA] (map (λ f, safe (cell_of row f)) fields).

(** A row without a header: the elements of the row itself. *)
Definition plain_row (row : json) : js_string :=
  match row with
  | JArr elems => join [COMMA] (map (λ x, safe (Some x)) elems)
  | JStr s => join [COMMA] (map (λ c, safe (Some (JStr [c]))) s)
  | _ => []
  end.

Definition serialize (fields : list js_string) (data : list json)
    : js_string :=
  match fields with
  | [] => join [CR; LF] (map plain_row data)
  | _ :: _ =>
      join [COMMA] (map (λ f, safe (Some (JStr f))) fields) ++
      match data with
      | [] => []
      | _ :: _ => CR :: LF :: join [CR; LF] (map (keyed_row fields) data)
      end
  end.

(** [Papa.unparse(input)] on an array, with the default configuration:
    comma, CRLF, a header taken from the keys of the first row when it
    is an object.  Own properties named [length], and field names that
    the built-in prototypes define, are outside this model. *)
Definition unparse (input : list json) : result js_string :=
  match input with
  | [] => Ok (serialize [] input)
  | JArr _ :: _ => Ok (serialize [] input)
  | JObj props :: _ => Ok (serialize props.*1 input)
  | JNull :: _ => Throw TypeError
  | _ => Throw (Error (js "Unable to serialize unrecognized input"))
  end.

End Papa.

(** ** The program *)

(** Find all relevant files. *)
Definition readFiles (pattern : js_string) : IO (list js_string) := λ w,
  (w_glob w pattern, w).

Definition loadFile (filename : js_string) : IO json :=
  content ← fsp.readFile filename;
  mret (match JSON.parse content with
        | Some document => document
        | None => JObj []
        end).

(** [x ?? d], with [None] for [undefined]. *)
Definition nullish_or (x : option json) (d : json) : json :=
  match x with
  | None | Some JNull => d
  | Some v => v
  end.

(** [feature?.attributes]. *)
Definition optional_attributes (feature : json) : option json :=
  match feature with
  | JNull => None
  | _ => get_property feature (js "attributes")
  end.

Definition extractEntries (fileContent : json) : result (list json) :=
  match fileContent with
  | JNull => Throw TypeError
  | _ =>
      match nullish_or (get_property fileContent (js "features")) (JArr []) with
      | JArr features =>
          Ok (filter (λ entry, truthy entry = true)
                (map (λ feature, nullish_or (optional_attributes feature) JNull)
                   features))
      | _ => Throw TypeError
      end
  end.

(** What one file contributes: the task that [processEntryFiles] starts
    for it. *)
Definition fileEntries (filename : js_string) : IO (list json) :=
  fileData ← loadFile filename;
  lift (extractEntries fileData).

Definition objectid (entry : json) : option json :=
  get_property entry (js "objectid").

Definition processEntryFiles (filenames : list js_string)
    : IO (list json) := λ w,
  let tasks := (λ filename, (fileEntries filename w).1) <$> filenames in
  match Promise.all (w_schedule w) tasks with
  | Ok entriesPerFiles => (Ok (uniqBy (concat entriesPerFiles) objectid), w)
  | Throw e => (Throw e, w)
  end.

Record SaveOptions := {
  outputFile : option js_string;
  format : option js_string;
}.

Inductive serializer :=
  | json_serializer
  | csv_serializer
  | inherited (name : js_string).

(** The properties every object literal inherits from [Object.prototype]. *)
Definition Object_prototype : list js_string :=
  map js ["constructor"; "__defineGetter__"; "__defineSetter__";
          "hasOwnProperty"; "__lookupGetter__"; "__lookupSetter__";
          "isPrototypeOf"; "propertyIsEnumerable"; "toString"; "valueOf";
          "__proto__"; "toLocaleString"].

(** [formatSerializers[format]]: an own property of the literal or, failing
    that, a property found on its prototype. *)
Definition formatSerializers (fmt : js_string) : option serializer :=
  if decide (fmt = js "json") then Some json_serializer
  else if decide (fmt = js "csv") then Some csv_serializer
  else if decide (fmt ∈ Object_prototype) then Some (inherited fmt)
  else None.

(** [serializer(entries)].  Called without a receiver,
    [Object.prototype.toString] answers for [undefined] and [constructor],
    which is [Object], hands back the array itself; the other inherited
    functions throw on the missing receiver, and [__proto__] is no
    function. *)
Definition serialize_with (s : serializer) (entries : list json)
    : result file_data :=
  match s with
  | json_serializer => Ok (Text (JSON.stringify (JArr entries)))
  | csv_serializer =>
      match Papa.unparse entries with
      | Ok text => Ok (Text text)
      | Throw e => Throw e
      end
  | inherited name =>
      if decide (name = js "toString") then Ok (Text (js "[object Undefined]"))
      else if decide (name = js "constructor") then Ok (Chunks entries)
      else Throw TypeError
  end.

Definition invalid_format (fmt : js_string) : js_error :=
  Error (js "Invalid export format " ++ QUOTE :: fmt ++ [QUOTE]).

Definition saveEntries (entries : list json) (options : option SaveOptions)
    : IO unit :=
  let outputFile := default (js "./output.json") (options ≫= outputFile) in
  let format := default (js "json") (options ≫= format) in
  let outputDir := path.dirname outputFile in
  console_log (js "Creating parent directory " ++ QUOTE :: outputDir ++ [QUOTE]);;
  fsp.mkdir outputDir;;
  console_log (js "Writing " ++ decimal (N.of_nat (length entries)) ++
               js " entries to file " ++ QUOTE :: outputFile ++ [QUOTE]);;
  match formatSerializers format with
  | None =>
      throw (invalid_format format)
  | Some serializer =>
      fileContent ← lift (serialize_with serializer entries);
      fsp.writeFile outputFile fileContent
  end.

Definition main : IO unit :=
  files ← readFiles (js "input/*.json");
  entries ← processEntryFiles files;
  saveEntries entries
    (Some {| outputFile := Some (js "./output/geology-sk.csv");
             format := Some (js "csv") |}).

(** ** Vocabulary of the properties *)

(** The records at positions before [i] all have another dedupe key than
    the record at [i]. *)
Definition first_occurrence {A} (key : A → option json) (l : list A)
    (i : nat) : Prop :=
  ∃ e, l !! i = Some e ∧
    ∀ j e', j < i → l !! j = Some e' →
      same_value_zero (key e') (key e) = false.

(** The number of distinct keys in a list: the keys that no later key
    equals. *)
Fixpoint count_distinct (keys : list (option json)) : nat :=
  match keys with
  | [] => 0
  | k :: keys' =>
      (if existsb (same_value_zero k) keys' then 0 else 1)
      + count_distinct keys'
  end.

(** The document [loadFile] resolves with for a file of this content. *)
Definition document_of (content : js_string) : json :=
  match JSON.parse content with
  | Some document => document
  | None => JObj []
  end.

(** The record a feature carries: its [attributes], unless that is
    missing or falsy. *)
Definition payload (feature : json) : option json :=
  attributes ← optional_attributes feature;
  if truthy attributes then Some attributes else None.

(** ** A sample run

    JSON text is written with apostrophes for the quotation marks. *)

Definition json_text (s : string) : js_string :=
  (λ c, if (c =? 39)%N then QUOTE else c) <$> js s.

Definition a_json : js_string :=
  json_text "{'features':[{'attributes':{'objectid':1,'lokalita':'X'}}]}".

Definition b_json : js_string :=
  json_text ("{'features':[{'attributes':{'objectid':1,'lokalita':'Y'}}," +:+
             " {'attributes':{'objectid':2,'lokalita':'Z'}}]}").

Definition sample_files : list js_string :=
  [js "input/a.json"; js "input/bad.json"; js "input/b.json"].

(** The second read completes first. *)
Definition sample_world : world :=
  World
    (<[js "input/a.json" := a_json]>
       (<[js "input/bad.json" := json_text "{'features': [oops"]>
          (<[js "input/b.json" := b_json]> ∅)))
    ∅ [] (λ _, Ok sample_files) [1; 0] (λ _, []).

Definition sample_record (id : N) (lokalita : string) : json :=
  JObj [(js "objectid", JNum (NFin false [id] 0));
        (js "lokalita", JStr (js lokalita))].

(** A record whose depth is a literal beyond the double range. *)
Definition deep_json : js_string :=
  json_text "{'features':[{'attributes':{'objectid':7,'hlbkavrtu':1e999}}]}".

Definition deep_record (hlbkavrtu : json) : json :=
  JObj [(js "objectid", JNum (NFin false [7%N] 0));
        (js "hlbkavrtu", hlbkavrtu)].

Definition sample_entries : list (list json) :=
  [[sample_record 1 "X"]; []; [sample_record 1 "Y"; sample_record 2 "Z"]].

(** ** Values as [JSON.parse] builds them *)

(** A number as [JSON.parse] builds it: a finite one is the decimal of
    a double. *)
Definition is_double (x : number) : bool :=
  match x with
  | NFin neg ds e =>
      canonical_digits ds
      && bool_decide (number_of_canonical neg ds e = NFin neg ds e)
  | _ => true
  end.

(** Finite and not the negative zero. *)
Definition finite_number (x : number) : bool :=
  match x with
  | NZero neg => negb neg
  | NFin _ _ _ => true
  | NInf _ => false
  end.

(** [k] may come before [k'] in an object: they differ, an array index
    comes before a larger index and before every other key. *)
Definition key_before (k k' : js_string) : bool :=
  negb (bool_decide (k' = k))
  && match array_index k, array_index k' with
     | Some i, Some j => (i <? j)%N
     | None, Some _ => false
     | _, None => true
     end.

(** Keys in property order: no key twice, array indices first and
    ascending. *)
Fixpoint ordered_keys (ks : list js_string) : bool :=
  match ks with
  | [] => true
  | k :: ks' => forallb (key_before k) ks' && ordered_keys ks'
  end.

Fixpoint well_formed (v : json) : bool :=
  match v with
  | JNum x => is_double x
  | JArr vs => forallb well_formed vs
  | JObj ps =>
      ordered_keys ps.*1
      && (fix members (l : list (js_string * json)) : bool :=
            match l with
            | [] => true
            | (_, x) :: l' => well_formed x && members l'
            end) ps
  | _ => true
  end.

(** No infinity and no negative zero anywhere in the value. *)
Fixpoint finite (v : json) : bool :=
  match v with
  | JNum x => finite_number x
  | JArr vs => forallb finite vs
  | JObj ps =>
      (fix members (l : list (js_string * json)) : bool :=
         match l with
         | [] => true
         | (_, x) :: l' => finite x && members l'
         end) ps
  | _ => true
  end.

(** No infinity anywhere in the value. *)
Fixpoint no_infinity (v : json) : bool :=
  match v with
  | JNum x => number_is_finite x
  | JArr vs => forallb no_infinity vs
  | JObj ps =>
      (fix members (l : list (js_string * json)) : bool :=
         match l with
         | [] => true
         | (_, x) :: l' => no_infinity x && members l'
         end) ps
  | _ => true
  end.

(** The value with every negative zero replaced by the positive zero
    (the two compare equal in JavaScript). *)
Fixpoint unsigned_zeros (v : json) : json :=
  match v with
  | JNum (NZero _) => JNum (NZero false)
  | JArr vs => JArr (unsigned_zeros <$> vs)
  | JObj ps =>
      JObj ((fix members (l : list (js_string * json))
               : list (js_string * json) :=
               match l with
               | [] => []
               | (k, x) :: l' => (k, unsigned_zeros x) :: members l'
               end) ps)
  | _ => v
  end.

(** The text after a number does not continue it. *)
Definition number_end (rest : js_string) : Prop :=
  match rest with
  | [] => True
  | c :: _ => is_digit c = false ∧ c ≠ DOT ∧ c ≠ 101%N ∧ c ≠ 69%N
  end.

(** A bound on the depth of the parser's calls for a value: one for a
    primitive, two more than its parts for an array or an object. *)
Fixpoint size (v : json) : nat :=
  match v with
  | JArr vs => S (S (foldr (λ x n, size x + n) 0 vs))
  | JObj ps =>
      S (S ((fix members (l : list (js_string * json)) : nat :=
               match l with
               | [] => 0
               | (_, x) :: l' => size x + members l'
               end) ps))
  | _ => 1
  end.

(** The text [JSON.serialize] writes after the first element of an array
    and after the first member of an object. *)
Definition elements_text (indent inner : js_string)
    : list json → js_string :=
  fix elements (l : list json) : js_string :=
    match l with
    | [] => LF :: indent ++ [RBRACKET]
    | x :: l' =>
        COMMA :: LF :: inner ++ JSON.serialize inner x ++ elements l'
    end.

Definition members_text (indent inner : js_string)
    : list (js_string * json) → js_string :=
  fix members (l : list (js_string * json)) : js_string :=
    match l with
    | [] => LF :: indent ++ [RBRACE]
    | (k, x) :: l' =>
        COMMA :: LF :: inner ++ JSON.quote k ++ COLON :: SPACE ::
        JSON.serialize inner x ++ members l'
    end.

(** ** Vocabulary of the round trip *)

Definition spaces (indent : js_string) : Prop := Forall (λ c, c = SPACE) indent.

(** The text starts as a value does: with a letter of a literal, a quote,
    a bracket, a brace, a minus sign or a digit. *)
Definition starts_value (t : js_string) : Prop :=
  ∃ c t', t = c :: t' ∧
    (c ∈ [110; 116; 102; 34; 91; 123; 45]%N ∨ is_digit c = true).

(** The text of a value, at any indentation and followed by anything that
    does not continue a number, parses back to the value once the fuel
    covers its size. *)
Definition round_trips (v : json) : Prop :=
  ∀ indent fuel rest,
    spaces indent → size v ≤ fuel → number_end rest →
    JSON.parse_value fuel (JSON.serialize indent v ++ rest) = Some (v, rest).

Definition sound (v : json) : Prop :=
  well_formed v = true ∧ finite v = true ∧ round_trips v.

(** [is_first] decides [first_occurrence]. *)
Definition is_first {A} (key : A → option json) (l : list A) (i : nat)
    : bool :=
  match l !! i with
  | Some e =>
      forallb (λ e', negb (same_value_zero (key e') (key e))) (take i l)
  | None => false
  end.

(** The values of [l] whose key is neither in [seen] nor the key of an
    earlier value of [l]. *)
Fixpoint keep_first {A} (key : A → option json) (seen : list (option json))
    (l : list A) : list A :=
  match l with
  | [] => []
  | x :: l' =>
      if existsb (same_value_zero (key x)) seen then keep_first key seen l'
      else x :: keep_first key (seen ++ [key x]) l'
  end.

(** [seen] stands for the keys of [pre]: it holds a key equal to [k]
    exactly when [pre] holds a value with such a key. *)
Definition covers {A} (key : A → option json) (pre : list A)
    (seen : list (option json)) : Prop :=
  ∀ k, existsb (same_value_zero k) seen
       = existsb (λ e', same_value_zero (key e') k) pre.

(** The distinct keys of [keys] that [seen] does not hold. *)
Fixpoint count_fresh (seen keys : list (option json)) : nat :=
  match keys with
  | [] => 0
  | k :: keys' =>
      (if existsb (same_value_zero k) seen
          || existsb (same_value_zero k) keys' then 0 else 1)
      + count_fresh seen keys'
  end.

(** ** Vocabulary of the claims

    What the claims speak of, said without the program's own key function
    and comparison. *)

(** The objectid a record carries: the value of its member of that name.
    What is no object carries none. *)
Definition id_of (record : json) : option json :=
  match record with
  | JObj props => snd <$> head (filter (λ p, p.1 = js "objectid") props)
  | _ => None
  end.

Definition lacks_id (record : json) : bool :=
  match id_of record with None => true | Some _ => false end.

(** A number, a string, a boolean or [null]. *)
Definition primitive (v : json) : bool :=
  match v with JArr _ | JObj _ => false | _ => true end.

(** Two records share an objectid: neither has one, or both carry the
    same number, string, boolean or [null], the two zeros being one
    number.  An array or an object is the same as itself only, and no two
    of a parsed document are the same one. *)
Definition same_id (a b : option json) : Prop :=
  match a, b with
  | None, None => True
  | Some x, Some y => primitive x = true ∧ unsigned_zeros x = unsigned_zeros y
  | _, _ => False
  end.

(** No record before the one at [i] shares its objectid. *)
Definition first_with_id (l : list json) (i : nat) : Prop :=
  ∃ e, l !! i = Some e ∧
    ∀ j e', j < i → l !! j = Some e' → ¬ same_id (id_of e') (id_of e).

(** ** Further samples *)

(** Records without an objectid, in two files. *)
Definition c_json : js_string :=
  json_text ("{'features':[{'attributes':{'lokalita':'N1'}}," +:+
             " {'attributes':{'objectid':5,'lokalita':'V'}}]}").

Definition d_json : js_string :=
  json_text ("{'features':[{'attributes':{'lokalita':'N2'}}," +:+
             " {'attributes':{'objectid':5,'lokalita':'W'}}]}").

Definition nameless_files : list js_string :=
  [js "input/c.json"; js "input/d.json"].

Definition nameless_world : world :=
  World
    (<[js "input/c.json" := c_json]> (<[js "input/d.json" := d_json]> ∅))
    ∅ [] (λ _, Ok nameless_files) [1] (λ _, []).

Definition nameless_record (lokalita : string) : json :=
  JObj [(js "lokalita", JStr (js lokalita))].

Definition nameless_entries : list (list json) :=
  [[nameless_record "N1"; sample_record 5 "V"];
   [nameless_record "N2"; sample_record 5 "W"]].

(** Objectids written with more digits than a double holds. *)
Definition big_json : js_string :=
  json_text
    ("{'features':[{'attributes':{'objectid':9007199254740992,'lokalita':'P'}}," +:+
     " {'attributes':{'objectid':9007199254740993,'lokalita':'Q'}}," +:+
     " {'attributes':{'objectid':0.1,'lokalita':'R'}}," +:+
     " {'attributes':{'objectid':0.10000000000000001,'lokalita':'S'}}]}").

Definition big_world : world :=
  World (<[js "input/big.json" := big_json]> ∅) ∅ []
    (λ _, Ok [js "input/big.json"]) [] (λ _, []).

Definition numbered_record (digits : list N) (exp : Z) (lokalita : string)
    : json :=
  JObj [(js "objectid", JNum (NFin false digits exp));
        (js "lokalita", JStr (js lokalita))].

(** The record of 9007199254740992 and the record of 0.1. *)
Definition big_record_P : json :=
  numbered_record [9; 0; 0; 7; 1; 9; 9; 2; 5; 4; 7; 4; 0; 9; 9; 2]%N 0 "P".

Definition big_record_R : json := numbered_record [1%N] (-1) "R".

(** What the file holds: the second and the fourth record are written
    with other digits and are the numbers of the first and the third. *)
Definition big_entries : list (list json) :=
  [[big_record_P;
    numbered_record [9; 0; 0; 7; 1; 9; 9; 2; 5; 4; 7; 4; 0; 9; 9; 2]%N 0 "Q";
    big_record_R;
    numbered_record [1%N] (-1) "S"]].

(** ** Vocabulary of the further properties *)

(** The records that [fresh] keeps are those whose objectid no record of
    [out] shares. *)
Definition fresh_for (out : list json) (e : json) : bool :=
  negb (existsb (same_value_zero (objectid e)) (objectid <$> out)).

(** No surrogate of the text stands alone, whatever follows it. *)
Definition writes_as_is (s : js_string) : Prop :=
  ∀ t, to_well_formed (s ++ t) = s ++ to_well_formed t.

Definition is_row (v : json) : bool :=
  match v with JArr _ | JObj _ => true | _ => false end.

(** A file that holds a blank only and a file that starts with a byte
    order mark. *)
Definition blank_world : world :=
  World
    (<[js "input/blank.json" := js " "]>
       (<[js "input/marked.json" := 65279%N :: a_json]> ∅))
    ∅ [] (λ _, Ok [js "input/blank.json"; js "input/marked.json"]) []
    (λ _, []).

(** A file whose one payload is a string. *)
Definition odd_world : world :=
  World
    (<[js "input/odd.json" :=
         json_text "{'features':[{'attributes':'text'}]}"]> ∅)
    ∅ [] (λ _, Ok [js "input/odd.json"]) [] (λ _, []).

(** * Properties *)

(** ** Promise.all *)

Section promise_all.
Context {A : Type}.
Implicit Types (tasks : list (result A)) (vs : list A).

Lemma settle_fulfilled vs order values :
  ∃ values',
    Promise.settle order (Ok <$> vs) values = Ok values' ∧
    length values' = length values ∧
    ∀ i, values' !! i =
      if decide (i ∈ order ∧ i < length vs)
      then (λ _, vs !! i) <$> values !! i else values !! i.
Proof.
  revert values. induction order as [|j order IH]; intros values; simpl.
  - exists values. split_and!; [done..|]. intros i.
    first [done | rewrite decide_False; [done|]; rewrite elem_of_nil; tauto].
  - rewrite list_lookup_fmap. destruct (vs !! j) as [v|] eqn:Hj; simpl.
    + destruct (IH (<[j:=Some v]> values)) as (values' & -> & Hlen & Hlook).
      exists values'. split_and!; [done|by rewrite Hlen, length_insert|].
      intros i. rewrite Hlook. apply lookup_lt_Some in Hj as Hlt.
      destruct (decide (i = j)) as [->|Hne].
      * rewrite (decide_True (P := j ∈ j :: order ∧ _));
          [|split; [left|done]].
        destruct (decide (j < length values)) as [Hin|Hout].
        -- rewrite list_lookup_insert_eq by done.
           destruct (lookup_lt_is_Some_2 values j Hin) as [x ->].
           case_decide; simpl; by rewrite Hj.
        -- rewrite list_insert_ge by lia.
           rewrite (lookup_ge_None_2 values j) by lia. by case_decide.
      * rewrite list_lookup_insert_ne by done.
        do 2 case_decide; try done; exfalso;
          rewrite elem_of_cons in *; naive_solver.
    + destruct (IH values) as (values' & -> & Hlen & Hlook).
      exists values'. split_and!; [done..|]. intros i. rewrite Hlook.
      apply lookup_ge_None in Hj.
      do 2 case_decide; try done; exfalso;
        rewrite elem_of_cons in *; naive_solver lia.
Qed.

(** When every task fulfils, the values come back in task order,
    whatever the order of completion. *)
Lemma all_fulfilled schedule vs :
  Promise.all schedule (Ok <$> vs) = Ok vs.
Proof.
  unfold Promise.all. rewrite length_fmap.
  destruct (settle_fulfilled vs (schedule ++ seq 0 (length vs))
              (replicate (length vs) None)) as (values & -> & Hlen & Hlook).
  f_equal. rewrite length_replicate in Hlen.
  assert (values = Some <$> vs) as ->.
  { apply list_eq. intros i. rewrite Hlook, list_lookup_fmap.
    destruct (decide (i < length vs)) as [Hlt|Hge].
    - rewrite decide_True.
      + rewrite lookup_replicate_2 by done. simpl.
        by destruct (lookup_lt_is_Some_2 vs i Hlt) as [x ->].
      + split; [|done]. rewrite elem_of_app, elem_of_seq. right. lia.
    - rewrite decide_False by tauto.
      rewrite (lookup_ge_None_2 (replicate _ _))
        by (rewrite length_replicate; lia).
      by rewrite lookup_ge_None_2 by lia. }
  clear. induction vs as [|v vs IH]; [done|]. cbn. by f_equal.
Qed.

Lemma settle_rejected order tasks values e :
  Promise.settle order tasks values = Throw e → Throw e ∈ tasks.
Proof.
  revert values. induction order as [|j order IH]; intros values; simpl;
    [done|].
  destruct (tasks !! j) as [[v|e']|] eqn:Hj; eauto.
  intros [= ->]. by eapply list_elem_of_lookup_2.
Qed.

Lemma settle_first_rejected order tasks values i e :
  tasks !! i = Some (Throw e) → i ∈ order →
  ∃ e', Promise.settle order tasks values = Throw e'.
Proof.
  intros Hi. revert values.
  induction order as [|j order IH]; intros values Hin;
    [by apply elem_of_nil in Hin|]. simpl.
  destruct (tasks !! j) as [[v|e']|] eqn:Hj; eauto.
  - apply IH. apply elem_of_cons in Hin as [->|]; [congruence|done].
  - apply IH. apply elem_of_cons in Hin as [->|]; [congruence|done].
Qed.

Lemma fulfilled_or_rejected tasks :
  (∃ vs, tasks = Ok <$> vs) ∨ (∃ i e, tasks !! i = Some (Throw e)).
Proof.
  induction tasks as [|[v|e] tasks [[vs ->]|(i & e' & Hi)]].
  - left. by exists [].
  - left. by exists (v :: vs).
  - right. by exists (S i), e'.
  - right. by exists 0, e.
  - right. by exists 0, e.
Qed.

(** [Promise.all] fulfils exactly when every task does. *)
Lemma all_Ok schedule tasks vs :
  Promise.all schedule tasks = Ok vs ↔ tasks = Ok <$> vs.
Proof.
  split; [|intros ->; apply all_fulfilled].
  intros Hall.
  destruct (fulfilled_or_rejected tasks) as [[ws ->]|(i & e & Hi)].
  - rewrite all_fulfilled in Hall. congruence.
  - unfold Promise.all in Hall.
    destruct (settle_first_rejected (schedule ++ seq 0 (length tasks))
                tasks (replicate (length tasks) None) i e Hi) as [e' He'].
    { rewrite elem_of_app, elem_of_seq. right.
      apply lookup_lt_Some in Hi. lia. }
    by rewrite He' in Hall.
Qed.

Lemma all_succeeded schedule schedule' tasks :
  succeeded (Promise.all schedule tasks)
  = succeeded (Promise.all schedule' tasks).
Proof.
  destruct (Promise.all schedule tasks) as [vs|e] eqn:H1.
  - apply all_Ok in H1 as ->. by rewrite all_fulfilled.
  - destruct (Promise.all schedule' tasks) as [vs|e'] eqn:H2; [|done].
    apply all_Ok in H2 as ->. by rewrite all_fulfilled in H1.
Qed.
End promise_all.

(** ** SameValueZero is a partial equivalence *)

Lemma number_eqb_sym x y : number_eqb x y = number_eqb y x.
Proof.
  destruct x, y; simpl; try done;
    repeat case_bool_decide; simpl; congruence.
Qed.

Lemma number_eqb_trans x y z :
  number_eqb x y = true → number_eqb y z = true → number_eqb x z = true.
Proof.
  destruct x, y, z; simpl; try done.
  - rewrite !andb_true_iff, !bool_decide_eq_true. naive_solver.
  - rewrite !bool_decide_eq_true. congruence.
Qed.

Lemma same_value_zero_sym a b : same_value_zero a b = same_value_zero b a.
Proof.
  destruct a as [[]|], b as [[]|]; simpl; try done.
  - by apply bool_decide_ext.
  - apply number_eqb_sym.
  - by apply bool_decide_ext.
Qed.

Lemma same_value_zero_trans a b c :
  same_value_zero a b = true → same_value_zero b c = true →
  same_value_zero a c = true.
Proof.
  destruct a as [[]|], b as [[]|], c as [[]|]; simpl; try done.
  - rewrite !bool_decide_eq_true. congruence.
  - apply number_eqb_trans.
  - rewrite !bool_decide_eq_true. congruence.
Qed.

Lemma same_value_zero_class a b c :
  same_value_zero a b = true → same_value_zero a c = same_value_zero b c.
Proof.
  intros Hab. destruct (same_value_zero b c) eqn:Hbc.
  - by eapply same_value_zero_trans.
  - destruct (same_value_zero a c) eqn:Hac; [|done].
    rewrite same_value_zero_sym in Hab.
    by rewrite (same_value_zero_trans _ _ _ Hab Hac) in Hbc.
Qed.

Lemma existsb_same_class a b keys :
  same_value_zero a b = true →
  existsb (same_value_zero a) keys = existsb (same_value_zero b) keys.
Proof.
  intros Hab. induction keys as [|k keys IH]; simpl; [done|].
  by rewrite IH, (same_value_zero_class a b).
Qed.

(** ** uniqBy keeps the first occurrences *)

Section uniqBy.
Context {A : Type} (key : A → option json).
Implicit Types (l pre suf : list A) (seen : list (option json)).

Lemma baseUniq_keep_first l seen result :
  baseUniq key l seen result = result ++ keep_first key seen l.
Proof.
  revert seen result. induction l as [|x l IH]; intros seen result; simpl.
  - by rewrite app_nil_r.
  - destruct (existsb _ seen); rewrite IH; [done|].
    by rewrite <- app_assoc.
Qed.

Lemma uniqBy_keep_first l : uniqBy l key = keep_first key [] l.
Proof. unfold uniqBy. by rewrite baseUniq_keep_first. Qed.

Lemma is_first_spec l i : is_first key l i = true ↔ first_occurrence key l i.
Proof.
  unfold is_first, first_occurrence. destruct (l !! i) as [e|] eqn:Hi.
  - rewrite forallb_forall. split.
    + intros Hall. exists e. split; [done|]. intros j e' Hj He'.
      apply negb_true_iff, Hall, list_elem_of_In.
      apply (list_elem_of_lookup_2 _ j). by rewrite lookup_take_lt.
    + intros (? & [= <-] & Hall) e' [j Hj]%list_elem_of_In%list_elem_of_lookup.
      apply negb_true_iff.
      destruct (decide (j < i)) as [Hlt|Hge].
      * rewrite lookup_take_lt in Hj by done. by eapply Hall.
      * rewrite lookup_take_ge in Hj by lia. done.
  - split; [done|]. by intros (? & ? & _).
Qed.

Lemma covers_snoc pre seen x :
  covers key pre seen →
  covers key (pre ++ [x])
    (if existsb (same_value_zero (key x)) seen then seen
     else seen ++ [key x]).
Proof.
  intros Hcov k. rewrite existsb_app. simpl. rewrite orb_false_r.
  destruct (existsb (same_value_zero (key x)) seen) eqn:Hx.
  - rewrite <- Hcov.
    destruct (same_value_zero (key x) k) eqn:Hk; [|by rewrite orb_false_r].
    rewrite orb_true_r. by rewrite <- (existsb_same_class _ _ _ Hk).
  - rewrite existsb_app. simpl.
    by rewrite orb_false_r, Hcov, (same_value_zero_sym k).
Qed.

Lemma is_first_middle pre x suf :
  is_first key (pre ++ x :: suf) (length pre)
  = negb (existsb (λ e', same_value_zero (key e') (key x)) pre).
Proof.
  unfold is_first. rewrite list_lookup_middle by done.
  rewrite take_app_length. induction pre as [|e pre IH]; simpl; [done|].
  by rewrite IH, negb_orb.
Qed.

Lemma keep_first_positions suf pre seen :
  covers key pre seen →
  keep_first key seen suf
  = omap (λ i, (pre ++ suf) !! i)
      (filter (λ i, is_first key (pre ++ suf) i = true)
         (seq (length pre) (length suf))).
Proof.
  revert pre seen. induction suf as [|x suf IH]; intros pre seen Hcov;
    [done|].
  simpl. rewrite filter_cons, is_first_middle, <- Hcov.
  pose proof (covers_snoc pre seen x Hcov) as Hcov'.
  specialize (IH (pre ++ [x]) _ Hcov').
  rewrite <- app_assoc, length_app, Nat.add_1_r in IH. simpl in IH.
  destruct (existsb (same_value_zero (key x)) seen); simpl.
  - apply IH.
  - rewrite list_lookup_middle by done. f_equal. apply IH.
Qed.

(** The result of [uniqBy] lists, in order, the values at the positions
    of first occurrences. *)
Lemma uniqBy_positions l :
  ∃ positions,
    StronglySorted lt positions ∧
    (∀ i, i ∈ positions ↔ first_occurrence key l i) ∧
    Forall2 (λ i e, l !! i = Some e) positions (uniqBy l key).
Proof.
  exists (filter (λ i, is_first key l i = true) (seq 0 (length l))).
  split_and!.
  - generalize 0. induction (length l) as [|n IH]; intros a; simpl;
      [constructor|].
    rewrite filter_cons. case_decide; [|apply IH].
    apply StronglySorted_cons. split; [|apply IH].
    apply Forall_forall.
    intros j [_ Hj%elem_of_seq]%list_elem_of_filter. lia.
  - intros i. rewrite list_elem_of_filter, elem_of_seq, is_first_spec.
    split; [tauto|]. intros Hi. split; [done|].
    destruct Hi as (e & He%lookup_lt_Some & _). lia.
  - rewrite uniqBy_keep_first, (keep_first_positions l [] []); [|done].
    simpl.
    assert (Forall (λ i, i < length l)
              (filter (λ i, is_first key l i = true) (seq 0 (length l))))
      as Hin.
    { apply Forall_forall. intros i [_ Hi%elem_of_seq]%list_elem_of_filter.
      lia. }
    induction Hin as [|i ps Hi _ IH]; [constructor|]. cbn.
    destruct (lookup_lt_is_Some_2 l i Hi) as [e He]. rewrite He.
    by constructor.
Qed.

(** No two values of the result have the same key. *)
Lemma uniqBy_distinct l i j a b :
  i < j → uniqBy l key !! i = Some a → uniqBy l key !! j = Some b →
  same_value_zero (key a) (key b) = false.
Proof.
  intros Hij Ha Hb.
  destruct (uniqBy_positions l) as (positions & Hsorted & Hfirst & Hat).
  destruct (Forall2_lookup_r _ _ _ _ _ Hat Ha) as (p & Hp & Hpa).
  destruct (Forall2_lookup_r _ _ _ _ _ Hat Hb) as (q & Hq & Hqb).
  assert (p < q) as Hpq.
  { apply (StronglySorted_app_1_elem_of lt (take j positions)
             (drop j positions)).
    - by rewrite take_drop.
    - apply (list_elem_of_lookup_2 _ i). by rewrite lookup_take_lt.
    - apply (list_elem_of_lookup_2 _ 0). by rewrite lookup_drop, Nat.add_0_r. }
  assert (first_occurrence key l q) as (e & He & Hbefore).
  { apply Hfirst. by eapply list_elem_of_lookup_2. }
  assert (e = b) as -> by congruence. by eapply Hbefore.
Qed.

Lemma count_fresh_snoc seen k keys :
  existsb (same_value_zero k) seen = false →
  count_fresh seen keys
  = count_fresh (seen ++ [k]) keys
    + (if existsb (same_value_zero k) keys then 1 else 0).
Proof.
  intros Hk. induction keys as [|k' keys IH]; [done|]. simpl.
  rewrite IH, existsb_app. simpl. rewrite orb_false_r.
  rewrite (same_value_zero_sym k' k).
  destruct (same_value_zero k k') eqn:Hkk'; simpl.
  - rewrite <- (existsb_same_class _ _ seen Hkk'), Hk. simpl.
    rewrite <- (existsb_same_class _ _ keys Hkk').
    destruct (existsb (same_value_zero k) keys); simpl; lia.
  - rewrite orb_false_r.
    destruct (existsb (same_value_zero k') seen
              || existsb (same_value_zero k') keys),
      (existsb (same_value_zero k) keys); lia.
Qed.

Lemma keep_first_length seen l :
  length (keep_first key seen l) = count_fresh seen (key <$> l).
Proof.
  revert seen. induction l as [|x l IH]; intros seen; [done|]. simpl.
  destruct (existsb (same_value_zero (key x)) seen) eqn:Hx; simpl.
  - apply IH.
  - rewrite IH, (count_fresh_snoc seen (key x)) by done.
    change (list_fmap A (option json) key l) with (key <$> l).
    destruct (existsb (same_value_zero (key x)) (key <$> l)); lia.
Qed.

Lemma count_fresh_nil keys : count_fresh [] keys = count_distinct keys.
Proof. induction keys as [|k keys IH]; simpl; by rewrite ?IH. Qed.

(** [uniqBy] returns as many values as there are distinct keys. *)
Lemma uniqBy_length l :
  length (uniqBy l key) = count_distinct (key <$> l).
Proof.
  by rewrite uniqBy_keep_first, keep_first_length, count_fresh_nil.
Qed.

(** Of the values without a key, only the first one is kept. *)
Lemma keep_first_undefined seen l :
  filter (λ e, key e = None) (keep_first key seen l)
  = if existsb (same_value_zero None) seen then []
    else take 1 (filter (λ e, key e = None) l).
Proof.
  revert seen. induction l as [|x l IH]; intros seen; simpl.
  - by destruct (existsb _ seen).
  - rewrite (filter_cons _ x l).
    destruct (key x) as [v|] eqn:Hx.
    + rewrite decide_False by done.
      destruct (existsb (same_value_zero (Some v)) seen).
      * apply IH.
      * rewrite filter_cons, decide_False by congruence.
        rewrite IH, existsb_app. simpl.
        by rewrite orb_false_r.
    + rewrite decide_True by done.
      destruct (existsb (same_value_zero None) seen) eqn:Hseen.
      * by rewrite IH, Hseen.
      * rewrite filter_cons, decide_True by done.
        rewrite IH, existsb_app. simpl. by rewrite orb_true_r.
Qed.

Lemma uniqBy_undefined l :
  filter (λ e, key e = None) (uniqBy l key)
  = take 1 (filter (λ e, key e = None) l).
Proof. by rewrite uniqBy_keep_first, keep_first_undefined. Qed.
End uniqBy.

(** ** The loader and the extractor *)

(** The error of reading a file that is not there. *)
Lemma readFile_missing filename w :
  w_files w !! filename = None →
  fsp.readFile filename w
  = (Throw (SystemError
              (if decide (filename ∈ w_dirs w) then js "EISDIR"
               else js "ENOENT") filename), w).
Proof. unfold fsp.readFile. by intros ->. Qed.

Lemma loadFile_unfold filename w :
  loadFile filename w =
  (match w_files w !! filename with
   | Some content => Ok (document_of content)
   | None =>
       Throw (SystemError
                (if decide (filename ∈ w_dirs w) then js "EISDIR"
                 else js "ENOENT") filename)
   end, w).
Proof.
  unfold loadFile, mbind, IO_bind, fsp.readFile.
  by destruct (w_files w !! filename).
Qed.

Lemma fileEntries_unfold filename w :
  fileEntries filename w =
  (match w_files w !! filename with
   | Some content => extractEntries (document_of content)
   | None =>
       Throw (SystemError
                (if decide (filename ∈ w_dirs w) then js "EISDIR"
                 else js "ENOENT") filename)
   end, w).
Proof.
  unfold fileEntries, mbind, IO_bind. rewrite loadFile_unfold.
  by destruct (w_files w !! filename).
Qed.

Lemma fileEntries_files filename w w' :
  w_files w = w_files w' →
  succeeded (fileEntries filename w).1 = succeeded (fileEntries filename w').1.
Proof.
  intros Hfiles. rewrite !fileEntries_unfold. simpl. rewrite Hfiles.
  by destruct (w_files w' !! filename).
Qed.

Lemma extractEntries_features document features :
  document ≠ JNull →
  get_property document (js "features") = Some (JArr features) →
  extractEntries document = Ok (omap payload features).
Proof.
  intros Hdoc Hfeatures. unfold extractEntries. rewrite Hfeatures. simpl.
  destruct document; try done; f_equal; clear.
  all: induction features as [|feature features IH]; [done|]; simpl;
    rewrite filter_cons, IH; unfold payload;
    destruct (optional_attributes feature) as [attributes|]; simpl;
    [|done]; destruct attributes as [|[]|[]| | |]; simpl; try done;
    by case_bool_decide.
Qed.

(** ** The merge engine *)

Lemma fmap_Ok_Forall2 {A B} (f : A → result B) l vs :
  f <$> l = Ok <$> vs ↔ Forall2 (λ x v, f x = Ok v) l vs.
Proof.
  revert vs. induction l as [|x l IH]; intros [|v vs];
    rewrite ?fmap_cons, ?fmap_nil.
  - split; [constructor|done].
  - split; [done|]. intros H. inversion H.
  - split; [done|]. intros H. inversion H.
  - rewrite Forall2_cons, <- IH. split; [by intros [= ? ?]|].
    by intros [-> ->].
Qed.

Lemma processEntryFiles_world filenames w :
  (processEntryFiles filenames w).2 = w.
Proof. unfold processEntryFiles. by destruct (Promise.all _ _). Qed.

Lemma processEntryFiles_Ok filenames w out :
  (processEntryFiles filenames w).1 = Ok out ↔
  ∃ per_file,
    Forall2 (λ f entries, (fileEntries f w).1 = Ok entries) filenames per_file ∧
    out = uniqBy (concat per_file) objectid.
Proof.
  unfold processEntryFiles.
  destruct (Promise.all _ _) as [eps|e] eqn:Hall; simpl.
  - apply all_Ok, (fmap_Ok_Forall2 (λ f, (fileEntries f w).1)) in Hall.
    split.
    + intros [= <-]. by exists eps.
    + intros (per_file & Hper & ->).
      assert (eps = per_file) as ->; [|done].
      revert Hall Hper. generalize eps per_file. clear.
      induction filenames as [|f fs IH]; intros eps per_file;
        inversion 1 as [|? ? ? ? Hy]; inversion 1 as [|? ? ? ? Hy'];
        simplify_eq; [done|].
      rewrite Hy in Hy'. injection Hy' as ->. f_equal. eauto.
  - split; [done|]. intros (per_file & Hper & _).
    apply (fmap_Ok_Forall2 (λ f, (fileEntries f w).1)), (all_Ok (w_schedule w))
      in Hper.
    congruence.
Qed.

Lemma processEntryFiles_succeeded filenames w :
  succeeded (processEntryFiles filenames w).1
  = (λ per_file, uniqBy (concat per_file) objectid)
    <$> mapM (λ f, succeeded (fileEntries f w).1) filenames.
Proof.
  assert (∀ per_file,
    mapM (λ f, succeeded (fileEntries f w).1) filenames = Some per_file ↔
    Forall2 (λ f entries, (fileEntries f w).1 = Ok entries)
      filenames per_file) as Hiff.
  { intros per_file. rewrite mapM_Some.
    split; intros H; eapply Forall2_impl; [apply H| |apply H|];
      intros f entries; simpl; destruct (fileEntries f w).1; naive_solver. }
  destruct (mapM _ filenames) as [per_file|] eqn:Hmap; simpl.
  - pose proof (proj1 (Hiff per_file) eq_refl) as Hper.
    by rewrite (proj2 (processEntryFiles_Ok filenames w _)
                  (ex_intro _ per_file (conj Hper eq_refl))).
  - destruct (processEntryFiles filenames w).1 as [out|] eqn:Hout; [|done].
    apply processEntryFiles_Ok in Hout as (per_file & Hper%Hiff & _).
    done.
Qed.

(** *** The key and the comparison of the merge *)

(** The key function of the merge reads the objectid of a record. *)
Lemma objectid_id_of record : objectid record = id_of record.
Proof.
  destruct record as [| | | | |props]; try done.
  unfold objectid, id_of, get_property.
  induction props as [|[k v] props IH]; [done|].
  cbn [own_property]. rewrite filter_cons. cbn [fst].
  destruct (decide (k = js "objectid")); [done|]. apply IH.
Qed.

(** SameValueZero holds of two keys exactly when they are the same
    objectid. *)
Lemma same_value_zero_same_id a b :
  same_value_zero a b = true ↔ same_id a b.
Proof.
  destruct a as [[|bx|[nx|nx dx ex|nx]|sx|lx|px]|],
           b as [[|by'|[ny|ny dy ey|ny]|sy|ly|py]|];
    simpl; try (by split); try (split; [done|by intros [? ?]]);
    rewrite ?andb_true_iff, ?bool_decide_eq_true;
    (split; [intros; split; [done|]; naive_solver
            |intros [_ [=]]; naive_solver]).
Qed.

Lemma same_value_zero_not_same_id a b :
  same_value_zero a b = false ↔ ¬ same_id a b.
Proof.
  rewrite <- same_value_zero_same_id. by destruct (same_value_zero a b).
Qed.

Lemma first_occurrence_first_with_id l i :
  first_occurrence objectid l i ↔ first_with_id l i.
Proof.
  unfold first_occurrence, first_with_id.
  split; intros (e & He & Hbefore); exists e; (split; [done|]);
    intros j e' Hj He'; specialize (Hbefore j e' Hj He');
    rewrite !objectid_id_of in *; by apply same_value_zero_not_same_id.
Qed.

(** The scenario of the two files that share [objectid] 1: the record of
    the first file is kept. *)
Example first_seen_wins :
  processEntryFiles sample_files sample_world
  = (Ok [sample_record 1 "X"; sample_record 2 "Z"], sample_world).
Proof. vm_compute. reflexivity. Qed.

(** Objectids that are written differently and denote one double are one
    key: [9007199254740993] is read as [9007199254740992] and
    [0.10000000000000001] as [0.1]. *)
Example one_double_one_key :
  (fileEntries (js "input/big.json") big_world).1 = Ok (concat big_entries) ∧
  processEntryFiles [js "input/big.json"] big_world
  = (Ok [big_record_P; big_record_R], big_world).
Proof. split; vm_compute; reflexivity. Qed.

(** C1.  When every file loads, the merge engine returns the records
    found at the positions of first occurrences in the concatenation of
    the per-file record lists (taken in file order), in that order: of
    the records that share an objectid the earliest is kept and the
    later ones are dropped, and no two records of the output share an
    objectid. *)
Theorem processEntryFiles_keeps_first_occurrences filenames w per_file :
  Forall2 (λ f entries, (fileEntries f w).1 = Ok entries) filenames per_file →
  ∃ out positions,
    processEntryFiles filenames w = (Ok out, w) ∧
    StronglySorted lt positions ∧
    (∀ i, i ∈ positions ↔ first_with_id (concat per_file) i) ∧
    Forall2 (λ i e, concat per_file !! i = Some e) positions out ∧
    ∀ i j a b, i < j → out !! i = Some a → out !! j = Some b →
      ¬ same_id (id_of a) (id_of b).
Proof.
  intros Hper.
  destruct (uniqBy_positions objectid (concat per_file))
    as (positions & Hsorted & Hfirst & Hat).
  exists (uniqBy (concat per_file) objectid), positions. split_and!; try done.
  - rewrite (surjective_pairing (processEntryFiles filenames w)).
    rewrite processEntryFiles_world. f_equal.
    apply processEntryFiles_Ok. by exists per_file.
  - intros i. by rewrite Hfirst, first_occurrence_first_with_id.
  - intros i j a b Hij Ha Hb. rewrite <- !objectid_id_of.
    apply same_value_zero_not_same_id. by eapply uniqBy_distinct.
Qed.

Lemma processEntryFiles_keeps_first_occurrences_witness :
  (∃ out positions,
     out = [sample_record 1 "X"; sample_record 2 "Z"] ∧
     concat sample_entries
     = [sample_record 1 "X"; sample_record 1 "Y"; sample_record 2 "Z"] ∧
     processEntryFiles sample_files sample_world = (Ok out, sample_world) ∧
     StronglySorted lt positions ∧
     (∀ i, i ∈ positions ↔ first_with_id (concat sample_entries) i) ∧
     Forall2 (λ i e, concat sample_entries !! i = Some e) positions out ∧
     ∀ i j a b, i < j → out !! i = Some a → out !! j = Some b →
       ¬ same_id (id_of a) (id_of b)) ∧
  (∃ out positions,
     out = [big_record_P; big_record_R] ∧
     processEntryFiles [js "input/big.json"] big_world = (Ok out, big_world) ∧
     StronglySorted lt positions ∧
     (∀ i, i ∈ positions ↔ first_with_id (concat big_entries) i) ∧
     Forall2 (λ i e, concat big_entries !! i = Some e) positions out ∧
     ∀ i j a b, i < j → out !! i = Some a → out !! j = Some b →
       ¬ same_id (id_of a) (id_of b)).
Proof.
  split.
  - destruct (processEntryFiles_keeps_first_occurrences sample_files
                sample_world sample_entries)
      as (out & positions & Hrun & Hrest).
    { repeat constructor; vm_compute; reflexivity. }
    exists out, positions.
    split_and!; [|reflexivity|exact Hrun|apply Hrest..].
    assert (processEntryFiles sample_files sample_world
            = (Ok [sample_record 1 "X"; sample_record 2 "Z"], sample_world))
      as Hvalue by (vm_compute; reflexivity).
    rewrite Hvalue in Hrun. by injection Hrun as <-.
  - destruct (processEntryFiles_keeps_first_occurrences [js "input/big.json"]
                big_world big_entries)
      as (out & positions & Hrun & Hrest).
    { repeat constructor; vm_compute; reflexivity. }
    exists out, positions. split_and!; [|exact Hrun|apply Hrest..].
    assert (processEntryFiles [js "input/big.json"] big_world
            = (Ok [big_record_P; big_record_R], big_world))
      as Hvalue by (vm_compute; reflexivity).
    rewrite Hvalue in Hrun. by injection Hrun as <-.
Defined.

(** *** Counting the objectids *)

Lemma existsb_undefined records :
  existsb (same_value_zero None) (id_of <$> records)
  = existsb lacks_id records.
Proof.
  induction records as [|e records IH]; [done|]. rewrite fmap_cons.
  cbn [existsb]. rewrite IH. unfold lacks_id. by destruct (id_of e).
Qed.

Lemma existsb_defined x records :
  existsb (same_value_zero (Some x)) (id_of <$> records) = true ↔
  primitive x = true ∧
  ∃ e y, e ∈ records ∧ id_of e = Some y ∧
         unsigned_zeros y = unsigned_zeros x.
Proof.
  rewrite existsb_exists. split.
  - intros (k & [e [-> He]]%list_elem_of_In%list_elem_of_fmap
              & Hsame%same_value_zero_same_id).
    destruct (id_of e) as [y|] eqn:Hy; [|done]. destruct Hsame as [? ?].
    split; [done|]. by exists e, y.
  - intros (Hx & e & y & He & Hy & Heq). exists (Some y). split.
    + apply list_elem_of_In, list_elem_of_fmap. exists e. by rewrite Hy.
    + by apply same_value_zero_same_id.
Qed.

(** The keys that no later key equals are as many as the objectid values,
    and one more when a record has none. *)
Lemma count_distinct_ids records :
  Forall (λ e, ∀ x, id_of e = Some x → primitive x = true) records →
  ∃ ids,
    NoDup ids ∧
    (∀ v, v ∈ ids ↔
          ∃ e x, e ∈ records ∧ id_of e = Some x ∧ unsigned_zeros x = v) ∧
    count_distinct (id_of <$> records)
    = length ids + (if existsb lacks_id records then 1 else 0).
Proof.
  induction 1 as [|e records Hprim _ (ids & Hnodup & Hids & Hcount)].
  { exists []. split_and!; [constructor| |done]. intros v. split.
    - by intros ?%elem_of_nil.
    - by intros (e & x & ?%elem_of_nil & _). }
  rewrite fmap_cons. cbn [count_distinct existsb]. rewrite Hcount.
  destruct (id_of e) as [x|] eqn:Hx.
  - assert (lacks_id e = false) as -> by (unfold lacks_id; by rewrite Hx).
    cbn [orb]. specialize (Hprim x eq_refl).
    destruct (existsb (same_value_zero (Some x)) (id_of <$> records))
      eqn:Hseen.
    + exists ids. split_and!; [done| |done].
      apply existsb_defined in Hseen as (_ & e' & y & He' & Hy & Heq).
      intros v. rewrite Hids. split.
      * intros (e0 & x0 & ? & ? & ?). exists e0, x0. split; [by right|done].
      * intros (e0 & x0 & [->|?]%elem_of_cons & Hx0 & <-).
        -- exists e', y. rewrite Hx in Hx0. injection Hx0 as <-. done.
        -- by exists e0, x0.
    + exists (unsigned_zeros x :: ids). split_and!.
      * constructor; [|done]. rewrite Hids.
        intros (e0 & x0 & He0 & Hx0 & Heq).
        assert (existsb (same_value_zero (Some x)) (id_of <$> records)
                = true) as Habs; [|congruence].
        apply existsb_defined. split; [done|]. by exists e0, x0.
      * intros v. rewrite elem_of_cons, Hids. split.
        -- intros [->|(e0 & x0 & ? & ? & ?)].
           ++ exists e, x. split; [by left|done].
           ++ exists e0, x0. split; [by right|done].
        -- intros (e0 & x0 & [->|?]%elem_of_cons & Hx0 & <-).
           ++ left. rewrite Hx in Hx0. by injection Hx0 as <-.
           ++ right. by exists e0, x0.
      * simpl. lia.
  - assert (lacks_id e = true) as -> by (unfold lacks_id; by rewrite Hx).
    cbn [orb]. rewrite existsb_undefined. exists ids. split_and!; [done| |].
    + intros v. rewrite Hids. split.
      * intros (e0 & x0 & ? & ? & ?). exists e0, x0. split; [by right|done].
      * intros (e0 & x0 & [->|?]%elem_of_cons & Hx0 & <-); [congruence|].
        by exists e0, x0.
    + destruct (existsb lacks_id records); lia.
Qed.

(** C2, as the code has it.  When every file loads and the objectids of
    the extracted records are numbers, strings, booleans or [null], the
    merge engine returns as many records as there are distinct objectid
    values among the extracted records, and one more when some record
    has no objectid: [ids] lists each value once. *)
Theorem processEntryFiles_count filenames w per_file :
  Forall2 (λ f entries, (fileEntries f w).1 = Ok entries) filenames per_file →
  Forall (λ e, ∀ x, id_of e = Some x → primitive x = true)
    (concat per_file) →
  ∃ out ids,
    (processEntryFiles filenames w).1 = Ok out ∧
    NoDup ids ∧
    (∀ v, v ∈ ids ↔
          ∃ e x, e ∈ concat per_file ∧ id_of e = Some x ∧
                 unsigned_zeros x = v) ∧
    length out
    = length ids + (if existsb lacks_id (concat per_file) then 1 else 0).
Proof.
  intros Hper Hprim.
  destruct (count_distinct_ids (concat per_file) Hprim)
    as (ids & Hnodup & Hids & Hcount).
  exists (uniqBy (concat per_file) objectid), ids. split_and!; try done.
  - apply processEntryFiles_Ok. by exists per_file.
  - rewrite uniqBy_length, <- Hcount. f_equal. apply list_fmap_ext.
    intros i e _. apply objectid_id_of.
Qed.

Lemma processEntryFiles_count_witness :
  ∃ out ids,
    out = [nameless_record "N1"; sample_record 5 "V"] ∧
    concat nameless_entries
    = [nameless_record "N1"; sample_record 5 "V";
       nameless_record "N2"; sample_record 5 "W"] ∧
    (processEntryFiles nameless_files nameless_world).1 = Ok out ∧
    NoDup ids ∧
    (∀ v, v ∈ ids ↔
          ∃ e x, e ∈ concat nameless_entries ∧ id_of e = Some x ∧
                 unsigned_zeros x = v) ∧
    length out
    = length ids + (if existsb lacks_id (concat nameless_entries) then 1
                    else 0).
Proof.
  destruct (processEntryFiles_count nameless_files nameless_world
              nameless_entries)
    as (out & ids & Hrun & Hrest).
  { repeat constructor; vm_compute; reflexivity. }
  { repeat constructor; intros x; vm_compute; by intros [= <-]. }
  exists out, ids. split_and!; [|reflexivity|exact Hrun|apply Hrest..].
  assert ((processEntryFiles nameless_files nameless_world).1
          = Ok [nameless_record "N1"; sample_record 5 "V"])
    as Hvalue by (vm_compute; reflexivity).
  rewrite Hvalue in Hrun. by injection Hrun as <-.
Defined.

(** C2 fails as stated: the two sample files hold one objectid value, 5,
    and the merge returns two records, the second being the first of the
    records that have no objectid. *)
Lemma processEntryFiles_counts_the_nameless :
  Forall2 (λ f entries, (fileEntries f nameless_world).1 = Ok entries)
    nameless_files nameless_entries ∧
  (∀ v, (∃ e, e ∈ concat nameless_entries ∧ id_of e = Some v) ↔
        v = JNum (NFin false [5%N] 0)) ∧
  (processEntryFiles nameless_files nameless_world).1
  = Ok [nameless_record "N1"; sample_record 5 "V"].
Proof.
  split_and!.
  - repeat constructor; vm_compute; reflexivity.
  - intros v. split.
    + intros (e & He & Hv). revert He Hv. cbn [concat nameless_entries app].
      rewrite !elem_of_cons, elem_of_nil.
      intros [->|[->|[->|[->|[]]]]]; vm_compute; by intros [= <-].
    + intros ->. exists (sample_record 5 "V"). split; [|done].
      cbn [concat nameless_entries app]. set_solver.
  - vm_compute. reflexivity.
Qed.

Lemma mapM_skip_empty {A B} (f : A → option (list B)) l1 x l2 :
  f x = Some [] →
  @concat B <$> mapM f (l1 ++ x :: l2) = @concat B <$> mapM f (l1 ++ l2).
Proof.
  intros Hx. induction l1 as [|a l1 IH]; simpl.
  - rewrite Hx. simpl. by destruct (mapM f l2).
  - destruct (f a) as [y|]; simpl; [|done].
    destruct (mapM f (l1 ++ x :: l2)), (mapM f (l1 ++ l2));
      simpl in *; congruence.
Qed.

(** C3.  A file whose text does not parse loads as the empty document,
    contributes no record, and leaves the result of the merge as it is
    without that file. *)
Theorem malformed_file_contributes_nothing w bad content :
  w_files w !! bad = Some content →
  JSON.parse content = None →
  loadFile bad w = (Ok (JObj []), w) ∧
  fileEntries bad w = (Ok [], w) ∧
  ∀ before after w', w_files w' = w_files w →
    succeeded (processEntryFiles (before ++ bad :: after) w).1
    = succeeded (processEntryFiles (before ++ after) w').1.
Proof.
  intros Hbad Hparse.
  assert (fileEntries bad w = (Ok [], w)) as Hnone.
  { rewrite fileEntries_unfold, Hbad. unfold document_of. by rewrite Hparse. }
  split_and!; [|done|].
  - rewrite loadFile_unfold, Hbad. unfold document_of. by rewrite Hparse.
  - intros before after w' Hfiles. rewrite !processEntryFiles_succeeded.
    rewrite (mapM_ext (λ f, succeeded (fileEntries f w').1)
               (λ f, succeeded (fileEntries f w).1))
      by (intros f; by rewrite (fileEntries_files f w' w)).
    assert (succeeded (fileEntries bad w).1 = Some []) as Hempty
      by (by rewrite Hnone).
    pose proof (mapM_skip_empty (λ f, succeeded (fileEntries f w).1)
                  before bad after Hempty) as Hskip.
    destruct (mapM _ (before ++ bad :: after)),
      (mapM _ (before ++ after)); simpl in *; congruence.
Qed.

Lemma malformed_file_contributes_nothing_witness :
  loadFile (js "input/bad.json") sample_world = (Ok (JObj []), sample_world) ∧
  fileEntries (js "input/bad.json") sample_world = (Ok [], sample_world) ∧
  ∀ before after w', w_files w' = w_files sample_world →
    succeeded
      (processEntryFiles (before ++ js "input/bad.json" :: after)
         sample_world).1
    = succeeded (processEntryFiles (before ++ after) w').1.
Proof.
  apply (malformed_file_contributes_nothing sample_world
           (js "input/bad.json") (json_text "{'features': [oops"));
    vm_compute; reflexivity.
Defined.

(** C4, as the code has it.  The extractor returns a list for every
    document other than [null] whose [features] is missing, [null] or an
    array: the empty list when [features] is missing or [null], and
    otherwise the [attributes] of the elements in order, without the
    elements whose [attributes] is missing or falsy.  On every other
    document it throws a [TypeError]. *)
Theorem extractEntries_defined document :
  document ≠ JNull →
  (∀ v, get_property document (js "features") = Some v →
        v = JNull ∨ ∃ features, v = JArr features) →
  ∃ entries,
    extractEntries document = Ok entries ∧
    (get_property document (js "features") = None → entries = []) ∧
    (get_property document (js "features") = Some JNull → entries = []) ∧
    (∀ features,
       get_property document (js "features") = Some (JArr features) →
       entries = omap payload features).
Proof.
  intros Hdoc Hshape.
  destruct (get_property document (js "features")) as [v|] eqn:Hv.
  - destruct (Hshape v eq_refl) as [->|[features ->]].
    + exists []. split_and!; try done.
      unfold extractEntries. rewrite Hv. by destruct document.
    + exists (omap payload features). split_and!; try done.
      * by apply extractEntries_features.
      * by intros ? [= <-].
  - exists []. split_and!; try done.
    unfold extractEntries. rewrite Hv. by destruct document.
Qed.

Lemma extractEntries_defined_witness :
  ∃ entries,
    extractEntries (document_of b_json) = Ok entries ∧
    (get_property (document_of b_json) (js "features") = None → entries = []) ∧
    (get_property (document_of b_json) (js "features") = Some JNull →
     entries = []) ∧
    (∀ features,
       get_property (document_of b_json) (js "features")
       = Some (JArr features) →
       entries = omap payload features).
Proof.
  apply (extractEntries_defined (document_of b_json)).
  - vm_compute. discriminate.
  - vm_compute. intros v [= <-]. right. eexists. reflexivity.
Defined.

(** C4 fails as stated: the documents [null] and [{"features": 5}] parse,
    and the extractor throws on both. *)
Lemma extractEntries_throws :
  JSON.parse (js "null") = Some JNull ∧
  extractEntries JNull = Throw TypeError ∧
  JSON.parse (json_text "{'features': 5}")
  = Some (JObj [(js "features", JNum (NFin false [5%N] 0))]) ∧
  extractEntries (JObj [(js "features", JNum (NFin false [5%N] 0))])
  = Throw TypeError.
Proof. vm_compute. done. Qed.

(** C8.  Two runs over the same file list and the same file contents
    return the same merged records, whatever the order in which the
    reads complete: the per-file record lists are gathered in file-list
    order. *)
Theorem processEntryFiles_deterministic filenames w1 w2 :
  w_files w1 = w_files w2 →
  succeeded (processEntryFiles filenames w1).1
  = succeeded (processEntryFiles filenames w2).1 ∧
  succeeded (processEntryFiles filenames w1).1
  = (λ per_file, uniqBy (concat per_file) objectid)
    <$> mapM (λ f, succeeded (fileEntries f w1).1) filenames.
Proof.
  intros Hfiles. rewrite !processEntryFiles_succeeded. split; [|done].
  f_equal. apply mapM_ext. intros f. by rewrite (fileEntries_files f w1 w2).
Qed.

Lemma processEntryFiles_deterministic_witness :
  let w2 := World (w_files sample_world) ∅ [] (λ _, Ok []) [2; 2; 0; 7; 1]
              (λ _, []) in
  succeeded (processEntryFiles sample_files sample_world).1
  = succeeded (processEntryFiles sample_files w2).1 ∧
  succeeded (processEntryFiles sample_files sample_world).1
  = (λ per_file, uniqBy (concat per_file) objectid)
    <$> mapM (λ f, succeeded (fileEntries f sample_world).1) sample_files.
Proof.
  apply (processEntryFiles_deterministic sample_files sample_world).
  reflexivity.
Defined.

(** C9.  Of the extracted records that have no objectid, only the first
    one in concatenation order is in the merged output. *)
Theorem processEntryFiles_missing_objectid filenames w per_file :
  Forall2 (λ f entries, (fileEntries f w).1 = Ok entries) filenames per_file →
  ∃ out,
    (processEntryFiles filenames w).1 = Ok out ∧
    filter (λ e, id_of e = None) out
    = take 1 (filter (λ e, id_of e = None) (concat per_file)).
Proof.
  intros Hper. exists (uniqBy (concat per_file) objectid). split.
  - apply processEntryFiles_Ok. by exists per_file.
  - rewrite !(list_filter_iff (λ e, id_of e = None) (λ e, objectid e = None))
      by (intros e; by rewrite objectid_id_of).
    apply uniqBy_undefined.
Qed.

Lemma processEntryFiles_missing_objectid_witness :
  ∃ out,
    out = [nameless_record "N1"; sample_record 5 "V"] ∧
    filter (λ e, id_of e = None) (concat nameless_entries)
    = [nameless_record "N1"; nameless_record "N2"] ∧
    filter (λ e, id_of e = None) out = [nameless_record "N1"] ∧
    (processEntryFiles nameless_files nameless_world).1 = Ok out ∧
    filter (λ e, id_of e = None) out
    = take 1 (filter (λ e, id_of e = None) (concat nameless_entries)).
Proof.
  destruct (processEntryFiles_missing_objectid nameless_files nameless_world
              nameless_entries)
    as (out & Hrun & Hrest).
  { repeat constructor; vm_compute; reflexivity. }
  assert ((processEntryFiles nameless_files nameless_world).1
          = Ok [nameless_record "N1"; sample_record 5 "V"])
    as Hvalue by (vm_compute; reflexivity).
  assert (out = [nameless_record "N1"; sample_record 5 "V"]) as Hout.
  { rewrite Hvalue in Hrun. by injection Hrun as <-. }
  exists out. split_and!; [exact Hout| |rewrite Hout|exact Hrun|exact Hrest];
    by vm_compute.
Defined.

(** ** The exporter *)

Lemma mkdir_Ok p w :
  (fsp.mkdir p w).1 = Ok () →
  Forall (λ d, d ∉ dom (w_files w)) (p :: path.ancestors p) ∧
  (fsp.mkdir p w).2
  = World (w_files w) (list_to_set (p :: path.ancestors p) ∪ w_dirs w)
      (w_console w) (w_glob w) (w_schedule w) (w_bytes w).
Proof.
  unfold fsp.mkdir. destruct (decide (p ∈ _)) as [|Hp]; [done|].
  destruct (decide (Exists _ _)) as [|Hanc]; [done|]. intros _.
  split; [|done]. constructor; [done|]. by apply Forall_Exists_neg.
Qed.

Lemma mkdir_Throw p w e :
  (fsp.mkdir p w).1 = Throw e →
  (fsp.mkdir p w).2 = w ∧ ∃ code, e = SystemError code p.
Proof.
  unfold fsp.mkdir. repeat case_decide; simpl; intros [= <-]; eauto.
Qed.

(** The directories that [fsp.mkdir] has made are there when the file is
    opened: the write does not fail for want of its directory. *)
Lemma open_error_made file files dirs :
  let dir := path.dirname file in
  Forall (λ d, d ∉ dom files) (dir :: path.ancestors dir) →
  file ≠ [] →
  file ∉ list_to_set (C := gset js_string) (dir :: path.ancestors dir) ∪ dirs →
  last file ≠ Some SLASH →
  fsp.open_error file files
    (list_to_set (dir :: path.ancestors dir) ∪ dirs) = None.
Proof.
  intros dir Hfree Hfile Hdir Hslash. unfold fsp.open_error. fold dir.
  rewrite decide_False by done.
  rewrite decide_False by (by apply Forall_Exists_neg).
  rewrite decide_True by set_solver.
  by rewrite !decide_False.
Qed.


(** The exporter up to the choice of the serializer: the two log lines
    and the directory. *)
Lemma saveEntries_unfold entries options w :
  let file := default (js "./output.json") (options ≫= outputFile) in
  let fmt := default (js "json") (options ≫= format) in
  let dir := path.dirname file in
  let line1 := js "Creating parent directory " ++ QUOTE :: dir ++ [QUOTE] in
  let line2 := js "Writing " ++ decimal (N.of_nat (length entries)) ++
               js " entries to file " ++ QUOTE :: file ++ [QUOTE] in
  let logged lines w' :=
    World (w_files w') (w_dirs w') (w_console w ++ lines) (w_glob w)
      (w_schedule w) (w_bytes w) in
  saveEntries entries options w =
  match (fsp.mkdir dir w).1 with
  | Throw e => (Throw e, logged [line1] w)
  | Ok _ =>
      let w1 := logged [line1; line2] (fsp.mkdir dir w).2 in
      match formatSerializers fmt with
      | None => (Throw (invalid_format fmt), w1)
      | Some serializer =>
          match serialize_with serializer entries with
          | Throw e => (Throw e, w1)
          | Ok fileContent => fsp.writeFile file fileContent w1
          end
      end
  end.
Proof.
  cbv zeta. unfold saveEntries, mbind, IO_bind, console_log, throw, lift.
  cbv beta zeta. unfold fsp.mkdir.
  cbn [w_files w_dirs w_console w_glob w_schedule w_bytes fst snd].
  repeat case_decide; try done.
  cbn [w_files w_dirs w_console w_glob w_schedule w_bytes fst snd].
  rewrite <- app_assoc.
  destruct (formatSerializers _) as [serializer|]; [|done].
  by destruct (serialize_with serializer entries).
Qed.

(** Every way a run of the exporter can end. *)
Lemma saveEntries_cases entries options w :
  let file := default (js "./output.json") (options ≫= outputFile) in
  let fmt := default (js "json") (options ≫= format) in
  let dir := path.dirname file in
  let made : gset js_string := list_to_set (dir :: path.ancestors dir) in
  let line1 := js "Creating parent directory " ++ QUOTE :: dir ++ [QUOTE] in
  let line2 := js "Writing " ++ decimal (N.of_nat (length entries)) ++
               js " entries to file " ++ QUOTE :: file ++ [QUOTE] in
  let r := saveEntries entries options w in
  w_glob r.2 = w_glob w ∧ w_schedule r.2 = w_schedule w ∧
  w_bytes r.2 = w_bytes w ∧
  ((∃ e, (fsp.mkdir dir w).1 = Throw e ∧ r.1 = Throw e ∧
         w_files r.2 = w_files w ∧ w_dirs r.2 = w_dirs w ∧
         w_console r.2 = w_console w ++ [line1]) ∨
   ((fsp.mkdir dir w).1 = Ok () ∧ w_dirs r.2 = made ∪ w_dirs w ∧
    w_console r.2 = w_console w ++ [line1; line2] ∧
    ((formatSerializers fmt = None ∧ r.1 = Throw (invalid_format fmt) ∧
      w_files r.2 = w_files w) ∨
     (∃ s e, formatSerializers fmt = Some s ∧
             serialize_with s entries = Throw e ∧ r.1 = Throw e ∧
             w_files r.2 = w_files w) ∨
     (∃ s data, formatSerializers fmt = Some s ∧
             serialize_with s entries = Ok data ∧
             ((∃ e, fsp.open_error file (w_files w) (made ∪ w_dirs w) = Some e ∧
                    r.1 = Throw e ∧ w_files r.2 = w_files w) ∨
              (fsp.open_error file (w_files w) (made ∪ w_dirs w) = None ∧
               r.1 = fsp.write_outcome data ∧
               w_files r.2
               = <[file := fsp.written_text (w_bytes w) data]> (w_files w))))))).
Proof.
  intros file fmt dir made line1 line2 r. subst r.
  rewrite saveEntries_unfold. fold file fmt dir line1 line2.
  destruct (fsp.mkdir dir w).1 as [[]|e] eqn:Hmkdir.
  - destruct (mkdir_Ok _ _ Hmkdir) as [_ ->]. fold made.
    destruct (formatSerializers fmt) as [s|] eqn:Hfmt.
    + destruct (serialize_with s entries) as [data|e] eqn:Hdata.
      * unfold fsp.writeFile. cbn [w_files w_dirs w_bytes].
        destruct (fsp.open_error _ _ _) as [e|] eqn:Hopen.
        -- split_and!; [done..|]. right. split_and!; [done..|].
           right. right. exists s, data. split_and!; [done..|].
           left. by exists e.
        -- split_and!; [done..|]. right. split_and!; [done..|].
           right. right. exists s, data. split_and!; [done..|]. by right.
      * split_and!; [done..|]. right. split_and!; [done..|].
        right. left. by exists s, e.
    + split_and!; [done..|]. right. split_and!; [done..|]. by left.
  - destruct (mkdir_Throw _ _ _ Hmkdir) as [_ _].
    split_and!; [done..|]. left. by exists e.
Qed.

(** A run that reaches the write with text writes it. *)
Lemma saveEntries_writes entries file fmt serializer content w :
  formatSerializers fmt = Some serializer →
  serialize_with serializer entries = Ok (Text content) →
  (fsp.mkdir (path.dirname file) w).1 = Ok () →
  file ≠ [] →
  file ∉ w_dirs w →
  file ∉ path.dirname file :: path.ancestors (path.dirname file) →
  last file ≠ Some SLASH →
  let r := saveEntries entries
             (Some {| outputFile := Some file; format := Some fmt |}) w in
  r.1 = Ok () ∧ w_files r.2 = <[file := to_well_formed content]> (w_files w).
Proof.
  intros Hfmt Hcontent Hmkdir Hfile Hdirs Hchain Hslash.
  destruct (saveEntries_cases entries
              (Some {| outputFile := Some file; format := Some fmt |}) w)
    as (_ & _ & _ & Hcases).
  cbn [default from_option id mbind option_bind outputFile format] in Hcases.
  rewrite open_error_made in Hcases;
    [|by apply mkdir_Ok|done|set_solver|done].
  rewrite Hmkdir, Hfmt in Hcases.
  destruct Hcases as
    [(e & ? & _)
    |(_ & _ & _ &
      [(? & _)
      |[(s & e & [= <-] & ? & _)
       |(s & data & [= <-] & Hdata & [(e & ? & _)|(_ & Hr & Hf)])]])];
    try done; try congruence.
  rewrite Hcontent in Hdata. injection Hdata as <-. done.
Qed.

(** C5, as the code has it.  A format that is neither [json] nor [csv]
    nor the name of a property that every object inherits is refused
    before any write: no file is written, and the run ends in the
    invalid-format error once the parent directory has been made (when
    making it fails, the run ends in that failure). *)
Theorem saveEntries_rejects_unknown_format entries options w :
  let file := default (js "./output.json") (options ≫= outputFile) in
  let fmt := default (js "json") (options ≫= format) in
  let r := saveEntries entries options w in
  fmt ≠ js "json" → fmt ≠ js "csv" → fmt ∉ Object_prototype →
  w_files r.2 = w_files w ∧
  ((fsp.mkdir (path.dirname file) w).1 = Ok () →
   r.1 = Throw (invalid_format fmt)) ∧
  (∀ e, (fsp.mkdir (path.dirname file) w).1 = Throw e → r.1 = Throw e).
Proof.
  intros file fmt r Hjson Hcsv Hinherited.
  assert (formatSerializers fmt = None) as Hnone.
  { unfold formatSerializers. by rewrite !decide_False. }
  destruct (saveEntries_cases entries options w) as (_ & _ & _ & Hcases).
  fold file fmt r in Hcases. rewrite Hnone in Hcases.
  destruct Hcases as
    [(e & Hmkdir & Hr & Hf & _)
    |(Hmkdir & _ & _ &
      [(_ & Hr & Hf)
      |[(s & e & ? & _)|(s & data & ? & _)]])];
    try done; rewrite Hmkdir, Hr; split_and!; try done;
    by intros ? [= <-].
Qed.

Lemma saveEntries_rejects_unknown_format_witness :
  let r := saveEntries (concat sample_entries)
             (Some {| outputFile := Some (js "./output/geology-sk.xml");
                      format := Some (js "xml") |}) sample_world in
  r.1 = Throw (invalid_format (js "xml")) ∧
  w_files r.2 = w_files sample_world ∧
  ((fsp.mkdir (path.dirname (js "./output/geology-sk.xml")) sample_world).1
   = Ok () →
   r.1 = Throw (invalid_format (js "xml"))) ∧
  (∀ e,
     (fsp.mkdir (path.dirname (js "./output/geology-sk.xml")) sample_world).1
     = Throw e →
     r.1 = Throw e).
Proof.
  destruct (saveEntries_rejects_unknown_format (concat sample_entries)
              (Some {| outputFile := Some (js "./output/geology-sk.xml");
                       format := Some (js "xml") |}) sample_world)
    as (Hfiles & Hraise & Hfail).
  - vm_compute. discriminate.
  - vm_compute. discriminate.
  - apply (bool_decide_unpack _). vm_compute. exact I.
  - split_and!; [|exact Hfiles|exact Hraise|exact Hfail].
    apply Hraise. vm_compute. reflexivity.
Defined.

(** C5 fails as stated: the format [toString] is neither [json] nor
    [csv], and the run raises no error and writes the text
    ["[object Undefined]"] to the output file. *)
Lemma saveEntries_toString_is_written :
  let r := saveEntries (concat sample_entries)
             (Some {| outputFile := Some (js "./output/geology-sk.xml");
                      format := Some (js "toString") |}) sample_world in
  js "toString" ≠ js "json" ∧ js "toString" ≠ js "csv" ∧
  r.1 = Ok () ∧
  w_files r.2 !! js "./output/geology-sk.xml" = Some (js "[object Undefined]").
Proof.
  destruct (saveEntries_writes (concat sample_entries)
              (js "./output/geology-sk.xml") (js "toString")
              (inherited (js "toString")) (js "[object Undefined]")
              sample_world) as [Hok Hfiles].
  - by vm_compute.
  - by vm_compute.
  - by vm_compute.
  - by vm_compute.
  - vm_compute. set_solver.
  - apply (bool_decide_unpack _). vm_compute. exact I.
  - by vm_compute.
  - split_and!; [by vm_compute..|exact Hok|].
    cbv zeta. rewrite Hfiles, lookup_insert_eq. by vm_compute.
Qed.

(** The scenario of the format [xml]: the error is raised and the files
    are as before. *)
Example xml_is_rejected :
  let r := saveEntries (concat sample_entries)
             (Some {| outputFile := Some (js "./output/geology-sk.xml");
                      format := Some (js "xml") |}) sample_world in
  r.1 = Throw (invalid_format (js "xml")) ∧
  w_files r.2 = w_files sample_world ∧
  w_dirs r.2 = {[js "./output"; js "."]}.
Proof.
  destruct (saveEntries_cases (concat sample_entries)
              (Some {| outputFile := Some (js "./output/geology-sk.xml");
                       format := Some (js "xml") |}) sample_world)
    as (_ & _ & _ & Hcases).
  cbn [default from_option id mbind option_bind outputFile format] in Hcases.
  destruct Hcases as
    [(e & Hmkdir & _)
    |(_ & Hd & _ &
      [(_ & Hr & Hf)
      |[(s & e & Hs & _)|(s & data & Hs & _)]])].
  - by vm_compute in Hmkdir.
  - cbv zeta. rewrite Hr, Hf, Hd. split_and!; [done..|].
    change (path.dirname (js "./output/geology-sk.xml")) with (js "./output").
    change (path.ancestors (js "./output")) with [js "."].
    cbn [sample_world w_dirs]. set_solver.
  - by vm_compute in Hs.
  - by vm_compute in Hs.
Qed.

(** C7.  With no input file the merge returns no record and the run of
    [main] succeeds, leaving an empty CSV file; the JSON format gives the
    text of the empty array, which parses back. *)
Theorem no_input_empty_output w :
  w_glob w (js "input/*.json") = Ok [] →
  (fsp.mkdir (js "./output") w).1 = Ok () →
  js "./output/geology-sk.csv" ∉ w_dirs w →
  processEntryFiles [] w = (Ok [], w) ∧
  (main w).1 = Ok () ∧
  w_files (main w).2 !! js "./output/geology-sk.csv" = Some [] ∧
  (let r := saveEntries []
              (Some {| outputFile := Some (js "./output/geology-sk.csv");
                       format := Some (js "json") |}) w in
   r.1 = Ok () ∧
   w_files r.2 !! js "./output/geology-sk.csv" = Some (js "[]")) ∧
  JSON.parse (js "[]") = Some (JArr []).
Proof.
  intros Hglob Hmkdir Hfile.
  assert (js "./output/geology-sk.csv" ∉
          path.dirname (js "./output/geology-sk.csv")
          :: path.ancestors (path.dirname (js "./output/geology-sk.csv")))
    as Hchain.
  { apply (bool_decide_unpack _). vm_compute. exact I. }
  assert (processEntryFiles [] w = (Ok [], w)) as Hmerge.
  { unfold processEntryFiles. rewrite fmap_nil.
    change [] with (Ok (A := list json) <$> []) at 1.
    by rewrite all_fulfilled. }
  split_and!; [done| | | |by vm_compute].
  - unfold main, mbind, IO_bind, readFiles. rewrite Hglob, Hmerge.
    by apply (saveEntries_writes [] _ (js "csv") csv_serializer []).
  - unfold main, mbind, IO_bind, readFiles. rewrite Hglob, Hmerge.
    destruct (saveEntries_writes [] (js "./output/geology-sk.csv") (js "csv")
                csv_serializer [] w) as [_ ->]; try done.
    apply lookup_insert_eq.
  - destruct (saveEntries_writes [] (js "./output/geology-sk.csv") (js "json")
                json_serializer (js "[]") w) as [Hok Hfiles]; try done.
    cbv zeta. rewrite Hfiles. split; [done|]. apply lookup_insert_eq.
Qed.

Lemma no_input_empty_output_witness :
  let w := World (w_files sample_world) ∅ [] (λ _, Ok []) [] (λ _, []) in
  processEntryFiles [] w = (Ok [], w) ∧
  (main w).1 = Ok () ∧
  w_files (main w).2 !! js "./output/geology-sk.csv" = Some [] ∧
  (let r := saveEntries []
              (Some {| outputFile := Some (js "./output/geology-sk.csv");
                       format := Some (js "json") |}) w in
   r.1 = Ok () ∧
   w_files r.2 !! js "./output/geology-sk.csv" = Some (js "[]")) ∧
  JSON.parse (js "[]") = Some (JArr []).
Proof.
  apply (no_input_empty_output
           (World (w_files sample_world) ∅ [] (λ _, Ok []) [] (λ _, []))).
  - reflexivity.
  - vm_compute. reflexivity.
  - vm_compute. set_solver.
Defined.



(** ** Decimal digits *)

#[local] Arguments is_digit : simpl never.
#[local] Arguments digit_char : simpl never.
#[local] Arguments digit_of_char : simpl never.
#[local] Arguments JSON.is_ws : simpl never.
#[local] Arguments round_decimal : simpl never.
#[local] Arguments shortest : simpl never.
#[local] Arguments number_of_canonical : simpl never.

Ltac div_lia := zify; Z.to_euclidean_division_equations; lia.

Lemma N_of_digits_acc_app acc ds1 ds2 :
  N_of_digits_acc acc (ds1 ++ ds2)
  = N_of_digits_acc (N_of_digits_acc acc ds1) ds2.
Proof. revert acc. induction ds1 as [|d ds1 IH]; intros acc; simpl; auto. Qed.

Lemma digits_of_N_acc_app fuel n acc :
  digits_of_N_acc fuel n acc = digits_of_N_acc fuel n [] ++ acc.
Proof.
  revert n acc. induction fuel as [|fuel IH]; intros n acc; simpl; [done|].
  destruct (n <? 10)%N; [done|].
  rewrite (IH _ [_]), (IH _ (_ :: acc)). by rewrite <- app_assoc.
Qed.

Lemma N_of_digits_of_N_acc fuel n :
  (n < 2 ^ N.of_nat fuel)%N →
  N_of_digits (digits_of_N_acc fuel n []) = n.
Proof.
  revert n. induction fuel as [|fuel IH]; intros n Hn.
  - simpl in *. unfold N_of_digits. simpl. lia.
  - cbn [digits_of_N_acc]. destruct (N.ltb_spec n 10) as [Hlt|Hge].
    + unfold N_of_digits. simpl. div_lia.
    + rewrite digits_of_N_acc_app. unfold N_of_digits in *.
      rewrite N_of_digits_acc_app, IH; [simpl; div_lia|].
      rewrite Nat2N.inj_succ, N.pow_succ_r' in Hn. div_lia.
Qed.

Lemma N_of_digits_of_N n : N_of_digits (digits_of_N n) = n.
Proof.
  apply N_of_digits_of_N_acc. rewrite Nat2N.inj_succ, N2Nat.id.
  destruct n as [|p]; [done|]. apply N.log2_spec. lia.
Qed.

Lemma digits_of_N_acc_digits fuel n acc :
  Forall (λ d, d < 10)%N acc → Forall (λ d, d < 10)%N (digits_of_N_acc fuel n acc).
Proof.
  revert n acc. induction fuel as [|fuel IH]; intros n acc Hacc; simpl; [done|].
  assert (Forall (λ d, d < 10)%N ((n mod 10)%N :: acc))
    by (constructor; [div_lia|done]).
  destruct (n <? 10)%N; auto.
Qed.

Lemma digits_of_N_digits n : Forall (λ d, d < 10)%N (digits_of_N n).
Proof. by apply digits_of_N_acc_digits. Qed.

Lemma digits_of_N_nonempty n : digits_of_N n ≠ [].
Proof.
  unfold digits_of_N. simpl. destruct (n <? 10)%N; [done|].
  rewrite digits_of_N_acc_app. by intros [_ ?]%app_eq_nil.
Qed.

Lemma is_digit_digit_char d : (d < 10)%N → is_digit (digit_char d) = true.
Proof.
  intros Hd. unfold is_digit, digit_char.
  apply andb_true_iff. split; apply N.leb_le; lia.
Qed.

Lemma digit_of_digit_char d : digit_of_char (digit_char d) = d.
Proof. unfold digit_of_char, digit_char. lia. Qed.

Lemma take_digits_chars ds rest :
  Forall (λ d, d < 10)%N ds →
  match rest with c :: _ => is_digit c = false | [] => True end →
  JSON.take_digits ((digit_char <$> ds) ++ rest) = (ds, rest).
Proof.
  intros Hds Hrest. induction Hds as [|d ds Hd _ IH]; simpl.
  - destruct rest as [|c rest]; [done|]. simpl. by rewrite Hrest.
  - rewrite is_digit_digit_char by done.
    change (list_fmap N N digit_char ds) with (digit_char <$> ds).
    by rewrite IH, digit_of_digit_char.
Qed.

(** ** Numbers *)

Lemma strip_zeros_zeros n ds :
  strip_zeros (replicate n 0%N ++ ds) = strip_zeros ds.
Proof. induction n as [|n IH]; simpl; auto. Qed.

Lemma strip_zeros_head d ds : d ≠ 0%N → strip_zeros (d :: ds) = d :: ds.
Proof. intros Hd. simpl. by destruct (N.eqb_spec d 0). Qed.

Lemma canonical_digits_spec ds :
  canonical_digits ds = true →
  Forall (λ d, d < 10)%N ds ∧
  (∃ d ds', ds = d :: ds' ∧ d ≠ 0%N) ∧
  (∃ ds' d, ds = ds' ++ [d] ∧ d ≠ 0%N).
Proof.
  unfold canonical_digits. rewrite !andb_true_iff.
  intros [[Hall Hhead] Hlast]. split_and!.
  - apply Forall_forall. intros d Hd%list_elem_of_In.
    rewrite forallb_forall in Hall. by apply N.ltb_lt, Hall.
  - destruct ds as [|d ds]; [done|]. exists d, ds. split; [done|].
    by destruct (N.eqb_spec d 0).
  - destruct (last ds) as [d|] eqn:Hd; [|done].
    apply last_Some in Hd as [ds' ->]. exists ds', d. split; [done|].
    by destruct (N.eqb_spec d 0).
Qed.

Lemma number_of_decimal_trimmed neg ds e zl zt :
  canonical_digits ds = true →
  number_of_decimal neg (replicate zl 0%N ++ ds ++ replicate zt 0%N)
    (e - Z.of_nat zt)
  = number_of_canonical neg ds e.
Proof.
  intros Hcanon.
  destruct (canonical_digits_spec ds Hcanon)
    as (_ & (d & ds1 & Hhead & Hd) & (ds2 & d' & Hlast & Hd')).
  unfold number_of_decimal. rewrite strip_zeros_zeros.
  assert (strip_zeros (ds ++ replicate zt 0%N) = ds ++ replicate zt 0%N) as ->.
  { rewrite Hhead. simpl. by destruct (N.eqb_spec d 0). }
  rewrite reverse_app, reverse_replicate, strip_zeros_zeros.
  assert (strip_zeros (reverse ds) = reverse ds) as ->.
  { rewrite Hlast, reverse_app. simpl. by destruct (N.eqb_spec d' 0). }
  rewrite reverse_involutive, length_app, length_replicate.
  replace (e - Z.of_nat zt + Z.of_nat (length ds + zt - length ds))%Z with e
    by lia.
  by rewrite Hhead.
Qed.

Lemma is_double_spec neg ds e :
  is_double (NFin neg ds e) = true ↔
  canonical_digits ds = true ∧ number_of_canonical neg ds e = NFin neg ds e.
Proof. unfold is_double. by rewrite andb_true_iff, bool_decide_eq_true. Qed.

Lemma number_of_decimal_canonical neg ds e zl zt :
  is_double (NFin neg ds e) = true →
  number_of_decimal neg (replicate zl 0%N ++ ds ++ replicate zt 0%N)
    (e - Z.of_nat zt)
  = NFin neg ds e.
Proof.
  intros [Hcanon Hreads]%is_double_spec.
  by rewrite number_of_decimal_trimmed.
Qed.

(** Every decimal that [shortest] finds reads back as the double. *)
Lemma accept_Some m e c q s e' :
  accept m e c q = Some (s, e') →
  canonical_digits s = true ∧ round_decimal (N_of_digits s) e' = BFin m e.
Proof.
  unfold accept. destruct (trim _ _) as [s0 e0].
  destruct (canonical_digits s0 && _) eqn:Hok; [|done].
  intros [= <- <-]. apply andb_true_iff in Hok as [? ?%bool_decide_eq_true].
  done.
Qed.

Lemma nearest_decimal_Some m e p q n k s e' :
  nearest_decimal m e p q n k = Some (s, e') →
  canonical_digits s = true ∧ round_decimal (N_of_digits s) e' = BFin m e.
Proof.
  unfold nearest_decimal.
  destruct (accept m e (_ / _) _) as [[s1 e1]|] eqn:Hlo,
    (accept m e (_ / _ + 1) _) as [[s2 e2]|] eqn:Hhi;
    repeat case_match; intros [= <- <-]; by eapply accept_Some.
Qed.

Lemma first_decimal_Some m e p q n k more s e' :
  first_decimal m e p q n k more = Some (s, e') →
  canonical_digits s = true ∧ round_decimal (N_of_digits s) e' = BFin m e.
Proof.
  revert k. induction more as [|more IH]; intros k; cbn [first_decimal];
    destruct (nearest_decimal m e p q n k) as [[s1 e1]|] eqn:Hk;
    try done; try (intros [= <- <-]; by eapply nearest_decimal_Some).
  apply IH.
Qed.

Lemma shortest_Some m e s e' :
  shortest m e = Some (s, e') →
  canonical_digits s = true ∧ round_decimal (N_of_digits s) e' = BFin m e.
Proof. apply first_decimal_Some. Qed.

(** Reading a double's decimal gives the double: the nearest double to
    the decimal of a double is that double. *)
Lemma number_of_canonical_double neg ds e :
  canonical_digits ds = true → is_double (number_of_canonical neg ds e) = true.
Proof.
  intros Hcanon. unfold number_of_canonical at 1.
  destruct (round_decimal (N_of_digits ds) e) as [|m e2|] eqn:Hround;
    [done| |done].
  destruct (shortest m e2) as [[s e']|] eqn:Hshort; apply is_double_spec.
  - destruct (shortest_Some _ _ _ _ Hshort) as [Hs Hback]. split; [done|].
    unfold number_of_canonical. by rewrite Hback, Hshort.
  - split; [done|]. unfold number_of_canonical. by rewrite Hround, Hshort.
Qed.

(** ** Number literals read back *)

Lemma parse_frac_end rest :
  number_end rest → JSON.parse_frac rest = Some ([], rest).
Proof.
  destruct rest as [|c rest]; [done|]. simpl. intros (_ & Hdot & _).
  by destruct (N.eqb_spec c 46).
Qed.

Lemma parse_exp_end rest :
  number_end rest → JSON.parse_exp rest = Some (0%Z, rest).
Proof.
  destruct rest as [|c rest]; [done|]. simpl. intros (_ & _ & He & HE).
  by destruct (N.eqb_spec c 101), (N.eqb_spec c 69).
Qed.

Lemma number_end_digit rest :
  number_end rest →
  match rest with c :: _ => is_digit c = false | [] => True end.
Proof. destruct rest; [done|]. by intros []. Qed.

Lemma digit_char_zero d : (digit_char d =? 48)%N = (d =? 0)%N.
Proof.
  unfold digit_char. destruct (N.eqb_spec d 0), (N.eqb_spec (48 + d) 48);
    lia || done.
Qed.

Lemma parse_int_digits d ds rest :
  d ≠ 0%N → Forall (λ d, d < 10)%N (d :: ds) →
  match rest with c :: _ => is_digit c = false | [] => True end →
  JSON.parse_int ((digit_char <$> d :: ds) ++ rest) = Some (d :: ds, rest).
Proof.
  intros Hd Hds Hrest. rewrite fmap_cons. cbn [app JSON.parse_int].
  rewrite digit_char_zero. destruct (N.eqb_spec d 0) as [|_]; [done|].
  rewrite is_digit_digit_char by (by inversion Hds).
  f_equal. by apply (take_digits_chars (d :: ds)).
Qed.

(** The exponent part [e+x] or [e-x] reads back as [x]. *)
Lemma parse_exp_exponent x rest :
  number_end rest →
  JSON.parse_exp
    (101%N :: (if (x <? 0)%Z then 45%N else 43%N)
     :: decimal (Z.to_N (Z.abs x)) ++ rest)
  = Some (x, rest).
Proof.
  intros Hrest. cbn [JSON.parse_exp]. simpl N.eqb. cbn [orb].
  assert (JSON.take_digits (decimal (Z.to_N (Z.abs x)) ++ rest)
          = (digits_of_N (Z.to_N (Z.abs x)), rest)) as Htake.
  { apply take_digits_chars; [apply digits_of_N_digits|].
    by apply number_end_digit. }
  pose proof (digits_of_N_nonempty (Z.to_N (Z.abs x))) as Hne.
  destruct (Z.ltb_spec x 0); simpl N.eqb; cbv iota; rewrite Htake;
    destruct (digits_of_N _) eqn:Hds; try done;
    rewrite <- Hds, N_of_digits_of_N; do 2 f_equal; lia.
Qed.

Lemma parse_int_digit d rest :
  d ≠ 0%N → (d < 10)%N →
  match rest with c :: _ => is_digit c = false | [] => True end →
  JSON.parse_int (digit_char d :: rest) = Some ([d], rest).
Proof.
  intros Hd Hlt Hrest. apply (parse_int_digits d [] rest); [done| |done].
  by repeat constructor.
Qed.

Lemma digit_char_0 : digit_char 0 = 48%N.
Proof. done. Qed.

Lemma parse_magnitude_digits neg ds e rest :
  is_double (NFin neg ds e) = true →
  number_end rest →
  JSON.parse_magnitude neg (digits_to_string ds e ++ rest)
  = Some (NFin neg ds e, rest).
Proof.
  intros Hdouble Hrest.
  pose proof Hdouble as [Hcanon _]%is_double_spec.
  destruct (canonical_digits_spec ds Hcanon)
    as (Hall & (d & ds1 & -> & Hd) & _).
  pose proof (number_end_digit rest Hrest) as Hrest'.
  unfold JSON.parse_magnitude, digits_to_string.
  set (k := Z.of_nat (length (d :: ds1))).
  set (n := (e + k)%Z).
  destruct ((k <=? n)%Z && (n <=? 21)%Z) eqn:HA.
  { (* digits followed by zeros *)
    apply andb_true_iff in HA as [HA1%Z.leb_le HA2%Z.leb_le].
    replace (replicate (Z.to_nat (n - k)) 48%N)
      with (digit_char <$> replicate (Z.to_nat (n - k)) 0%N)
      by (by rewrite fmap_replicate).
    rewrite <- fmap_app. change ((d :: ds1) ++ ?l) with (d :: (ds1 ++ l)).
    rewrite parse_int_digits; [|done| |done].
    2:{ change (d :: ds1 ++ ?l) with ((d :: ds1) ++ l).
        apply Forall_app. split; [done|]. apply Forall_replicate. lia. }
    rewrite parse_frac_end, parse_exp_end by done. do 2 f_equal.
    rewrite app_nil_r.
    rewrite <- (number_of_decimal_canonical neg (d :: ds1) e 0
                  (Z.to_nat (n - k)) Hdouble).
    simpl. f_equal. lia. }
  apply andb_false_iff in HA.
  destruct ((0 <? n)%Z && (n <=? 21)%Z) eqn:HB.
  { (* a decimal point inside the digits *)
    apply andb_true_iff in HB as [HB1%Z.ltb_lt HB2%Z.leb_le].
    assert (n < k)%Z as Hnk by (destruct HA as [?%Z.leb_gt|?%Z.leb_gt]; lia).
    rewrite <- fmap_take, <- fmap_drop, <- app_assoc.
    destruct (Z.to_nat n) as [|m] eqn:Hm; [lia|].
    rewrite firstn_cons.
    rewrite parse_int_digits; [|done| |done].
    2:{ change (d :: take m ds1) with (take (S m) (d :: ds1)).
        by apply Forall_take. }
    cbn [app JSON.parse_frac]. simpl N.eqb. cbv iota.
    rewrite take_digits_chars;
      [|by apply Forall_drop|by apply number_end_digit].
    assert (length (drop (S m) (d :: ds1)) = Z.to_nat (k - n)) as Hlen.
    { rewrite length_drop. unfold k. lia. }
    destruct (drop (S m) (d :: ds1)) as [|d2 ds2] eqn:Hdrop;
      [simpl in Hlen; lia|].
    rewrite parse_exp_end by done. do 2 f_equal.
    rewrite <- Hdrop in Hlen |- *.
    change (d :: take m ds1 ++ ?l) with (take (S m) (d :: ds1) ++ l).
    rewrite take_drop, Hlen.
    rewrite <- (number_of_decimal_canonical neg (d :: ds1) e 0 0 Hdouble).
    simpl. rewrite app_nil_r. f_equal. lia. }
  apply andb_false_iff in HB.
  destruct ((-6 <? n)%Z && (n <=? 0)%Z) eqn:HC.
  { (* a fraction below one *)
    apply andb_true_iff in HC as [HC1%Z.ltb_lt HC2%Z.leb_le].
    cbn [app JSON.parse_int]. simpl N.eqb. cbv iota.
    cbn [JSON.parse_frac]. simpl N.eqb. cbv iota.
    replace (replicate (Z.to_nat (- n)) 48%N)
      with (digit_char <$> replicate (Z.to_nat (- n)) 0%N)
      by (by rewrite fmap_replicate).
    rewrite <- app_assoc, (app_assoc (digit_char <$> replicate _ _)).
    rewrite <- fmap_app.
    rewrite take_digits_chars; [| |done].
    2:{ apply Forall_app. split; [|done]. apply Forall_replicate. lia. }
    destruct (replicate (Z.to_nat (- n)) 0%N ++ d :: ds1) as [|d2 ds2] eqn:Hfrac.
    { by apply app_eq_nil in Hfrac as [_ ?]. }
    rewrite parse_exp_end by done. do 2 f_equal. rewrite <- Hfrac.
    rewrite length_app, length_replicate.
    rewrite <- (number_of_decimal_canonical neg (d :: ds1) e
                  (S (Z.to_nat (- n))) 0 Hdouble).
    simpl. rewrite app_nil_r. f_equal. unfold n, k in *. simpl length in *. lia. }
  (* exponential notation *)
  apply andb_false_iff in HC.
  assert (n - 1 = e + Z.of_nat (length ds1))%Z as Hx by (unfold n, k; simpl length; lia).
  rewrite fmap_cons. destruct ds1 as [|d1 ds1].
  - cbn [fmap list_fmap app].
    rewrite parse_int_digit; [|done|by inversion Hall|done].
    cbn [JSON.parse_frac]. simpl N.eqb. cbv iota.
    rewrite parse_exp_exponent by done. do 2 f_equal.
    rewrite <- (number_of_decimal_canonical neg [d] e 0 0 Hdouble).
    simpl in *. f_equal. lia.
  - rewrite fmap_cons. cbv iota. rewrite <- (fmap_cons digit_char d1 ds1).
    set (ds2 := d1 :: ds1) in *.
    cbn [app]. rewrite <- app_assoc. cbn [app]. rewrite parse_int_digit; [|done|by inversion Hall|done].
    cbn [JSON.parse_frac]. simpl N.eqb. cbv iota.
    rewrite take_digits_chars; [|by inversion Hall|done].
    unfold ds2 at 1. fold ds2.
    rewrite parse_exp_exponent by done. do 2 f_equal.
    rewrite <- (number_of_decimal_canonical neg (d :: ds2) e 0 0 Hdouble).
    unfold ds2 in *. simpl in *. rewrite app_nil_r. f_equal. lia.
Qed.

Lemma digits_to_string_head ds e :
  canonical_digits ds = true →
  ∃ c t, digits_to_string ds e = c :: t ∧ is_digit c = true.
Proof.
  intros Hcanon.
  destruct (canonical_digits_spec ds Hcanon)
    as (Hall & (d & ds1 & -> & Hd) & _).
  assert (is_digit (digit_char d) = true) as Hdigit
    by (apply is_digit_digit_char; by inversion Hall).
  unfold digits_to_string. rewrite fmap_cons.
  repeat case_match; simplify_eq; try (eexists _, _; split; [done|done]).
  rewrite andb_true_iff, Z.ltb_lt in *.
  destruct (Z.to_nat _) eqn:?; [lia|]. simpl. by eexists _, _.
Qed.

Lemma is_digit_range c : is_digit c = true ↔ (48 ≤ c ≤ 57)%N.
Proof. unfold is_digit. rewrite andb_true_iff, !N.leb_le. done. Qed.

Lemma parse_number_to_string x rest :
  is_double x = true → finite_number x = true → number_end rest →
  JSON.parse_number (number_to_string x ++ rest) = Some (x, rest).
Proof.
  intros Hdouble Hfinite Hrest. destruct x as [[]|neg ds e|]; try done.
  - cbn [number_to_string app JSON.parse_number]. simpl N.eqb. cbv iota.
    unfold JSON.parse_magnitude. cbn [JSON.parse_int]. simpl N.eqb. cbv iota.
    by rewrite parse_frac_end, parse_exp_end.
  - cbn [number_to_string]. destruct neg.
    + cbn [app JSON.parse_number]. simpl N.eqb. cbv iota.
      by apply parse_magnitude_digits.
    + cbn [app].
      pose proof (parse_magnitude_digits false ds e rest Hdouble Hrest) as Hmag.
      apply is_double_spec in Hdouble as [Hcanon _].
      destruct (digits_to_string_head ds e Hcanon) as (c & t & Heq & Hc).
      rewrite Heq in *. cbn [app JSON.parse_number].
      apply is_digit_range in Hc.
      destruct (N.eqb_spec c 45); [lia|done].
Qed.

(** ** String literals read back *)

Lemma hex_value_hex_digit d :
  (d < 16)%N → JSON.hex_value (JSON.hex_digit d) = Some d.
Proof.
  intros Hd. unfold JSON.hex_digit, JSON.hex_value, is_digit.
  destruct (N.ltb_spec d 10).
  - rewrite (proj2 (N.leb_le 48 (48 + d))), (proj2 (N.leb_le (48 + d) 57))
      by lia.
    simpl. f_equal. lia.
  - rewrite (proj2 (N.leb_gt (87 + d) 57)) by lia. rewrite andb_false_r.
    rewrite (proj2 (N.leb_le 97 (87 + d))), (proj2 (N.leb_le (87 + d) 102))
      by lia.
    simpl. f_equal. lia.
Qed.

Lemma parse_chars_raw c t :
  c ≠ 34%N → c ≠ 92%N → (32 ≤ c)%N →
  JSON.parse_chars (c :: t) = JSON.cons_chars c (JSON.parse_chars t).
Proof.
  intros Hq Hb Hc. cbn [JSON.parse_chars].
  destruct (N.eqb_spec c 34); [done|]. destruct (N.eqb_spec c 92); [done|].
  by destruct (N.ltb_spec c 32); [lia|].
Qed.

Lemma parse_chars_unicode_escape c t :
  (c < 65536)%N →
  JSON.parse_chars (JSON.unicode_escape c ++ t)
  = JSON.cons_chars c (JSON.parse_chars t).
Proof.
  intros Hc. unfold JSON.unicode_escape. cbn [app JSON.parse_chars].
  simpl N.eqb. cbv iota. unfold JSON.hex4.
  rewrite !hex_value_hex_digit by div_lia.
  replace (4096 * (c / 4096 mod 16) + 256 * (c / 256 mod 16)
           + 16 * (c / 16 mod 16) + c mod 16)%N with c by div_lia.
  done.
Qed.

Lemma surrogate_range c :
  JSON.is_high_surrogate c || JSON.is_low_surrogate c = true →
  (55296 ≤ c < 57344)%N.
Proof.
  unfold JSON.is_high_surrogate, JSON.is_low_surrogate.
  rewrite orb_true_iff, !andb_true_iff, !N.leb_le. lia.
Qed.

Lemma parse_chars_quote_char c t :
  JSON.parse_chars (JSON.quote_char c ++ t)
  = JSON.cons_chars c (JSON.parse_chars t).
Proof.
  unfold JSON.quote_char.
  repeat match goal with
         | |- context [(c =? ?k)%N] => destruct (N.eqb_spec c k) as [->|?]
         end; try done.
  destruct (_ || _) eqn:Hesc.
  - apply parse_chars_unicode_escape.
    rewrite <- orb_assoc in Hesc. apply orb_true_iff in Hesc as [Hlt|Hsur].
    + apply N.ltb_lt in Hlt. lia.
    + apply surrogate_range in Hsur. lia.
  - apply orb_false_iff in Hesc as [[Hge%N.ltb_ge _]%orb_false_iff _].
    by apply parse_chars_raw.
Qed.

Lemma quote_chars_cons c s1 :
  JSON.quote_chars (c :: s1) =
  if JSON.is_high_surrogate c then
    match s1 with
    | d :: s2 =>
        if JSON.is_low_surrogate d then c :: d :: JSON.quote_chars s2
        else JSON.unicode_escape c ++ JSON.quote_chars s1
    | [] => JSON.unicode_escape c
    end
  else JSON.quote_char c ++ JSON.quote_chars s1.
Proof. done. Qed.

Lemma parse_chars_quote_chars s rest :
  JSON.parse_chars (JSON.quote_chars s ++ 34%N :: rest) = Some (s, rest).
Proof.
  revert rest.
  assert ((∀ rest, JSON.parse_chars (JSON.quote_chars s ++ 34%N :: rest)
                   = Some (s, rest)) ∧
          (∀ c rest, JSON.parse_chars (JSON.quote_chars (c :: s) ++ 34%N :: rest)
                     = Some (c :: s, rest))) as [H _]; [|done].
  induction s as [|a s [IH1 IH2]].
  - split; [done|]. intros c rest. cbn [JSON.quote_chars].
    destruct (JSON.is_high_surrogate c) eqn:Hhigh.
    + rewrite parse_chars_unicode_escape; [done|].
      pose proof (surrogate_range c). rewrite Hhigh in *. simpl in *. lia.
    + rewrite app_nil_r. by rewrite parse_chars_quote_char.
  - split; [apply IH2|]. intros c rest. rewrite quote_chars_cons.
    destruct (JSON.is_high_surrogate c) eqn:Hhigh.
    + pose proof (surrogate_range c) as Hc. rewrite Hhigh in Hc.
      specialize (Hc eq_refl).
      destruct (JSON.is_low_surrogate a) eqn:Hlow.
      * pose proof (surrogate_range a) as Ha. rewrite Hlow, orb_true_r in Ha.
        specialize (Ha eq_refl). cbn [app].
        rewrite !parse_chars_raw by lia. by rewrite IH1.
      * rewrite <- app_assoc, parse_chars_unicode_escape by lia.
        by rewrite IH2.
    + rewrite <- app_assoc, parse_chars_quote_char. by rewrite IH2.
Qed.

(** ** Values read back *)

Lemma json_ind (P : json → Prop) :
  P JNull → (∀ b, P (JBool b)) → (∀ x, P (JNum x)) → (∀ s, P (JStr s)) →
  (∀ vs, Forall P vs → P (JArr vs)) →
  (∀ ps, Forall (λ p, P p.2) ps → P (JObj ps)) →
  ∀ v, P v.
Proof.
  intros Hnull Hbool Hnum Hstr Harr Hobj. fix IH 1.
  intros [|b|x|s|vs|ps];
    [exact Hnull|apply Hbool|apply Hnum|apply Hstr|apply Harr|apply Hobj].
  - induction vs as [|v vs IHvs]; constructor; [apply IH|exact IHvs].
  - induction ps as [|[k v] ps IHps]; constructor; [apply IH|exact IHps].
Qed.

Lemma serialize_array indent v1 vs :
  JSON.serialize indent (JArr (v1 :: vs)) =
  91%N :: 10%N :: (indent ++ JSON.gap)
  ++ JSON.serialize (indent ++ JSON.gap) v1
  ++ elements_text indent (indent ++ JSON.gap) vs.
Proof. done. Qed.

Lemma serialize_object indent k1 v1 ps :
  JSON.serialize indent (JObj ((k1, v1) :: ps)) =
  123%N :: 10%N :: (indent ++ JSON.gap) ++ JSON.quote k1 ++ 58%N :: 32%N
  :: JSON.serialize (indent ++ JSON.gap) v1
  ++ members_text indent (indent ++ JSON.gap) ps.
Proof. done. Qed.

Lemma size_pos v : 1 ≤ size v.
Proof. destruct v; simpl; lia. Qed.

Lemma starts_value_app t rest : starts_value t → starts_value (t ++ rest).
Proof. intros (c & t' & -> & Hc). by exists c, (t' ++ rest). Qed.

Lemma starts_value_not_ws c t :
  starts_value (c :: t) →
  JSON.is_ws c = false ∧ c ≠ 93%N ∧ c ≠ 125%N ∧ c ≠ 44%N.
Proof.
  intros (? & ? & [= <- <-] & [Hc|Hc]).
  - rewrite !elem_of_cons, elem_of_nil in Hc.
    destruct Hc as [->|[->|[->|[->|[->|[->|[->|[]]]]]]]]; done.
  - apply is_digit_range in Hc. unfold JSON.is_ws. split_and!; [|lia..].
    repeat match goal with
           | |- context [(c =? ?k)%N] => destruct (N.eqb_spec c k)
           end; lia || done.
Qed.

Lemma skip_ws_indent indent t :
  spaces indent → starts_value t → JSON.skip_ws (indent ++ t) = t.
Proof.
  intros Hindent (c & t' & -> & Hc).
  induction Hindent as [|? indent -> _ IH]; simpl; [|done].
  destruct (starts_value_not_ws c t') as [-> _]; [|done]. by exists c, t'.
Qed.

Lemma spaces_gap indent : spaces indent → spaces (indent ++ JSON.gap).
Proof. intros H. apply Forall_app. split; [done|]. by repeat constructor. Qed.

Lemma number_to_string_head x :
  is_double x = true → finite_number x = true →
  ∃ c t, number_to_string x = c :: t ∧ (c = 45%N ∨ is_digit c = true).
Proof.
  intros Hdouble Hfinite. destruct x as [neg|neg ds e|neg]; [| |done].
  - exists 48%N, []. split; [done|]. by right.
  - apply is_double_spec in Hdouble as [Hcanon _].
    destruct (digits_to_string_head ds e Hcanon) as (c & t & Heq & Hc).
    simpl. rewrite Heq. destruct neg.
    + exists 45%N, (c :: t). split; [done|]. by left.
    + exists c, t. split; [done|]. by right.
Qed.

Lemma serialize_head indent v :
  well_formed v = true → finite v = true →
  starts_value (JSON.serialize indent v).
Proof.
  intros Hwf Hfin. destruct v as [|[]|x|s|[|v1 vs]|[|[k1 v1] ps]].
  all: try (eexists _, _; split; [reflexivity|left; set_solver]).
  simpl in *. assert (number_is_finite x = true) as -> by (by destruct x).
  destruct (number_to_string_head x Hwf Hfin) as (c & t & -> & Hc).
  exists c, t. split; [done|]. destruct Hc as [->|Hc]; [left; set_solver|by right].
Qed.

Lemma parse_value_number fuel c t :
  c = 45%N ∨ is_digit c = true →
  JSON.parse_value (S fuel) (c :: t) =
  match JSON.parse_number (c :: t) with
  | Some (x, rest) => Some (JNum x, rest)
  | None => None
  end.
Proof.
  intros Hc. rewrite is_digit_range in Hc. cbn [JSON.parse_value].
  repeat match goal with
         | |- context [(c =? ?k)%N] =>
             destruct (N.eqb_spec c k) as [->|?]; [lia|]
         end.
  done.
Qed.

Lemma round_trips_number x :
  is_double x = true → finite_number x = true → round_trips (JNum x).
Proof.
  intros Hdouble Hfinite indent fuel rest _ Hfuel Hrest.
  destruct fuel as [|fuel]; [simpl in Hfuel; lia|].
  cbn [JSON.serialize].
  assert (number_is_finite x = true) as -> by (by destruct x).
  destruct (number_to_string_head x Hdouble Hfinite)
    as (c & t & Heq & Hc).
  pose proof (parse_number_to_string x rest Hdouble Hfinite Hrest) as Hparse.
  rewrite Heq in *. cbn [app] in *.
  by rewrite parse_value_number, Hparse.
Qed.

Lemma skip_ws_spaces indent c t :
  spaces indent → JSON.is_ws c = false →
  JSON.skip_ws (indent ++ c :: t) = c :: t.
Proof.
  intros Hindent Hc. induction Hindent as [|? indent -> _ IH]; simpl; [|done].
  by rewrite Hc.
Qed.

Lemma skip_ws_newline indent c t :
  spaces indent → JSON.is_ws c = false →
  JSON.skip_ws (10%N :: indent ++ c :: t) = c :: t.
Proof. intros. cbn [JSON.skip_ws]. by apply skip_ws_spaces. Qed.

Lemma quote_app k t :
  JSON.quote k ++ t = 34%N :: JSON.quote_chars k ++ 34%N :: t.
Proof. unfold JSON.quote. cbn [app]. by rewrite <- app_assoc. Qed.

Lemma elements_text_end indent inner vs rest :
  number_end (elements_text indent inner vs ++ rest).
Proof. by destruct vs. Qed.

Lemma members_text_end indent inner ps rest :
  number_end (members_text indent inner ps ++ rest).
Proof. by destruct ps as [|[]]. Qed.

Lemma parse_elements_text indent inner vs v1 fuel rest :
  spaces indent → spaces inner →
  Forall sound (v1 :: vs) →
  S (size v1 + foldr (λ x n, size x + n) 0 vs) ≤ fuel →
  JSON.parse_elements fuel
    (JSON.serialize inner v1 ++ elements_text indent inner vs ++ rest)
  = Some (v1 :: vs, rest).
Proof.
  intros Hindent Hinner. revert v1 fuel.
  induction vs as [|x vs IH]; intros v1 fuel Hall Hfuel;
    (destruct fuel as [|fuel]; [lia|]);
    apply Forall_cons in Hall as [(Hwf & Hfin & Hrt) Hall];
    cbn [JSON.parse_elements];
    (rewrite Hrt; [|done|simpl in Hfuel; lia|apply elements_text_end]).
  - cbn [elements_text app]. rewrite <- app_assoc. cbn [app].
    by rewrite skip_ws_newline.
  - cbn [elements_text app JSON.skip_ws]. change (JSON.is_ws 44) with false.
    cbv iota. simpl N.eqb. cbv iota.
    pose proof Hall as [(Hwfx & Hfinx & _) _]%Forall_cons.
    destruct (serialize_head inner x Hwfx Hfinx) as (c & t & Heq & Hc).
    rewrite <- !app_assoc, Heq. cbn [app].
    rewrite skip_ws_newline;
      [|done|by eapply (starts_value_not_ws c t); eexists _, _].
    change (c :: t ++ ?r) with ((c :: t) ++ r). rewrite <- Heq.
    rewrite IH; [done|done|]. simpl in Hfuel. pose proof (size_pos v1). lia.
Qed.

Lemma parse_members_step inner k1 v1 fuel tail :
  spaces inner → sound v1 → size v1 ≤ fuel → number_end tail →
  JSON.parse_members (S fuel)
    (JSON.quote k1 ++ 58%N :: 32%N :: JSON.serialize inner v1 ++ tail)
  = match JSON.skip_ws tail with
    | d :: s4 =>
        if (d =? 44)%N then
          match JSON.parse_members fuel (JSON.skip_ws s4) with
          | Some (members, rest) => Some ((k1, v1) :: members, rest)
          | None => None
          end
        else if (d =? 125)%N then Some ([(k1, v1)], s4)
        else None
    | [] => None
    end.
Proof.
  intros Hinner (Hwf & Hfin & Hrt) Hfuel Htail.
  rewrite quote_app. cbn [JSON.parse_members]. simpl N.eqb. cbv iota.
  rewrite parse_chars_quote_chars.
  cbn [JSON.skip_ws]. change (JSON.is_ws 58) with false. cbv iota.
  simpl N.eqb. cbv iota. change (JSON.is_ws 32) with true. cbv iota.
  destruct (serialize_head inner v1 Hwf Hfin) as (c & t & Heq & Hc).
  destruct (starts_value_not_ws c t) as (Hws & _); [by eexists _, _|].
  rewrite Heq at 1. cbn [app].
  change (32%N :: c :: t ++ tail) with ([32%N] ++ c :: t ++ tail).
  rewrite (skip_ws_spaces [32%N] c (t ++ tail)) by (done || by repeat constructor).
  change (c :: t ++ ?r) with ((c :: t) ++ r). rewrite <- Heq.
  by rewrite Hrt.
Qed.

Lemma parse_members_text indent inner ps k1 v1 fuel rest :
  spaces indent → spaces inner →
  Forall (λ p, sound p.2) ((k1, v1) :: ps) →
  S (size v1 + foldr (λ p n, size p.2 + n) 0 ps) ≤ fuel →
  JSON.parse_members fuel
    (JSON.quote k1 ++ 58%N :: 32%N :: JSON.serialize inner v1
     ++ members_text indent inner ps ++ rest)
  = Some ((k1, v1) :: ps, rest).
Proof.
  intros Hindent Hinner. revert k1 v1 fuel.
  induction ps as [|[k x] ps IH]; intros k1 v1 fuel Hall Hfuel;
    (destruct fuel as [|fuel]; [lia|]);
    apply Forall_cons in Hall as [Hv1 Hall];
    (rewrite parse_members_step;
       [|done|done|simpl in Hfuel; lia|apply members_text_end]).
  - cbn [members_text app]. rewrite <- app_assoc. cbn [app].
    by rewrite skip_ws_newline.
  - cbn [members_text app JSON.skip_ws]. change (JSON.is_ws 44) with false.
    cbv iota. simpl N.eqb. cbv iota.
    rewrite <- !app_assoc, quote_app. cbn [app].
    rewrite skip_ws_newline by done.
    rewrite <- quote_app, <- app_assoc.
    rewrite IH; [done|done|]. simpl in Hfuel. pose proof (size_pos v1). lia.
Qed.

(** ** Property order *)

Lemma ordered_keys_snoc_inv ks k :
  ordered_keys (ks ++ [k]) = true →
  ordered_keys ks = true ∧
  Forall (λ k0, k ≠ k0 ∧
                match array_index k0, array_index k with
                | Some i, Some j => (i < j)%N
                | None, Some _ => False
                | _, None => True
                end) ks.
Proof.
  induction ks as [|k0 ks IH]; [done|]. cbn [app ordered_keys].
  rewrite forallb_app, !andb_true_iff. cbn [forallb]. unfold key_before at 2.
  rewrite !andb_true_iff, negb_true_iff, bool_decide_eq_false.
  intros [(Hks & (Hne & Hord) & _) Hrest]. destruct (IH Hrest) as [-> Hall].
  split; [done|]. constructor; [|done]. split; [done|].
  destruct (array_index k0), (array_index k); try done. by apply N.ltb_lt.
Qed.

Lemma own_property_fresh k acc :
  Forall (λ p, k ≠ p.1) acc → own_property k acc = None.
Proof.
  induction 1 as [|[k0 v0] acc Hne _ IH]; [done|]. simpl in *.
  by rewrite decide_False.
Qed.

Lemma insert_index_last i k v acc :
  Forall (λ p, ∃ j, array_index p.1 = Some j ∧ (j < i)%N) acc →
  insert_index i k v acc = acc ++ [(k, v)].
Proof.
  induction 1 as [|[k0 v0] acc (j & Hj & Hlt) _ IH]; [done|]. simpl in *.
  rewrite Hj. by rewrite (proj2 (N.ltb_lt j i) Hlt), IH.
Qed.

Lemma set_property_snoc k v acc :
  ordered_keys ((acc ++ [(k, v)]).*1) = true →
  set_property k v acc = acc ++ [(k, v)].
Proof.
  rewrite fmap_app. intros [_ Hall]%ordered_keys_snoc_inv.
  rewrite Forall_fmap in Hall. unfold set_property.
  rewrite own_property_fresh
    by (eapply Forall_impl; [exact Hall|]; by intros ? []).
  destruct (array_index k) as [i|] eqn:Hk; [|done].
  apply insert_index_last. eapply Forall_impl; [exact Hall|].
  intros [k0 v0] [_ Hord]. simpl in *. rewrite Hk in Hord.
  destruct (array_index k0) as [j|]; [|done]. by exists j.
Qed.

Lemma ordered_keys_app_l ks1 ks2 :
  ordered_keys (ks1 ++ ks2) = true → ordered_keys ks1 = true.
Proof.
  induction ks1 as [|k ks1 IH]; [done|]. cbn [app ordered_keys].
  rewrite forallb_app, !andb_true_iff. naive_solver.
Qed.

Lemma object_of_members_ordered ps :
  ordered_keys ps.*1 = true → JSON.object_of_members ps = ps.
Proof.
  unfold JSON.object_of_members.
  assert (∀ acc, ordered_keys (acc ++ ps).*1 = true →
                 foldl (λ props m, set_property m.1 m.2 props) acc ps
                 = acc ++ ps) as Hgen; [|apply (Hgen [])].
  induction ps as [|[k v] ps IH]; intros acc Hord; simpl.
  - by rewrite app_nil_r.
  - rewrite set_property_snoc.
    + rewrite IH; by rewrite <- app_assoc.
    + rewrite (cons_middle (k, v) acc ps), app_assoc, fmap_app in Hord.
      by apply ordered_keys_app_l in Hord.
Qed.

(** ** Values *)

Lemma well_formed_members ps :
  well_formed (JObj ps) = true →
  ordered_keys ps.*1 = true ∧ Forall (λ p, well_formed p.2 = true) ps.
Proof.
  cbn [well_formed]. rewrite andb_true_iff. intros [Hord Hps].
  split; [done|]. clear Hord.
  induction ps as [|[k v] ps IH]; constructor;
    apply andb_true_iff in Hps as [? ?]; auto.
Qed.

Lemma finite_members ps :
  finite (JObj ps) = true → Forall (λ p, finite p.2 = true) ps.
Proof.
  cbn [finite]. intros Hps.
  induction ps as [|[k v] ps IH]; constructor;
    apply andb_true_iff in Hps as [? ?]; auto.
Qed.

Lemma size_members ps :
  size (JObj ps) = S (S (foldr (λ p n, size p.2 + n) 0 ps)).
Proof.
  cbn [size]. do 2 f_equal. induction ps as [|[k v] ps IH]; simpl; auto.
Qed.

Lemma round_trips_all v :
  well_formed v = true → finite v = true → round_trips v.
Proof.
  induction v as [|b|x|s|vs IH|ps IH] using json_ind; intros Hwf Hfin.
  - intros indent [|fuel] rest _ Hfuel _; [simpl in Hfuel; lia|done].
  - intros indent [|fuel] rest _ Hfuel _; [simpl in Hfuel; lia|].
    by destruct b.
  - by apply round_trips_number.
  - intros indent [|fuel] rest _ Hfuel _; [simpl in Hfuel; lia|].
    cbn [JSON.serialize]. rewrite quote_app. cbn [JSON.parse_value].
    simpl N.eqb. cbv iota. by rewrite parse_chars_quote_chars.
  - intros indent [|fuel] rest Hindent Hfuel _; [simpl in Hfuel; lia|].
    destruct vs as [|v1 vs]; [done|].
    assert (Forall sound (v1 :: vs)) as Hsound.
    { cbn [well_formed finite] in Hwf, Hfin.
      rewrite forallb_forall in Hwf, Hfin. rewrite Forall_forall in IH.
      apply Forall_forall. intros v Hv. pose proof Hv as Hin%list_elem_of_In.
      split_and!; auto. }
    rewrite serialize_array.
    pose proof (spaces_gap indent Hindent) as Hinner.
    set (inner := indent ++ JSON.gap) in *.
    pose proof Hsound as [(Hwf1 & Hfin1 & _) _]%Forall_cons.
    destruct (serialize_head inner v1 Hwf1 Hfin1) as (c & t & Heq & Hc).
    destruct (starts_value_not_ws c t) as (Hws & Hc1 & _); [by eexists _, _|].
    cbn [JSON.parse_value app]. simpl N.eqb. cbv iota.
    rewrite <- !app_assoc. rewrite Heq at 1. cbn [app].
    rewrite skip_ws_newline by done.
    destruct (N.eqb_spec c 93) as [|_]; [done|].
    change (c :: t ++ ?r) with ((c :: t) ++ r). rewrite <- Heq.
    rewrite parse_elements_text; [done|done|done|done|].
    simpl in Hfuel. lia.
  - intros indent [|fuel] rest Hindent Hfuel _; [simpl in Hfuel; lia|].
    destruct ps as [|[k1 v1] ps]; [done|].
    destruct (well_formed_members _ Hwf) as [Hord Hwfs].
    pose proof (finite_members _ Hfin) as Hfins.
    assert (Forall (λ p, sound p.2) ((k1, v1) :: ps)) as Hsound.
    { rewrite Forall_forall in IH, Hwfs, Hfins.
      apply Forall_forall. intros p Hp. split_and!; auto. }
    rewrite serialize_object. rewrite size_members in Hfuel.
    pose proof (spaces_gap indent Hindent) as Hinner.
    set (inner := indent ++ JSON.gap) in *.
    cbn [JSON.parse_value app]. simpl N.eqb. cbv iota.
    rewrite <- !app_assoc, quote_app. cbn [app].
    rewrite skip_ws_newline by done.
    simpl N.eqb. cbv iota. rewrite <- quote_app, <- app_assoc.
    rewrite parse_members_text; [|done|done|done|].
    + by rewrite object_of_members_ordered.
    + simpl in Hfuel |- *. lia.
Qed.

Lemma elements_text_length indent inner vs :
  Forall (λ v, size v ≤ length (JSON.serialize inner v)) vs →
  foldr (λ x n, size x + n) 0 vs ≤ length (elements_text indent inner vs).
Proof.
  induction 1 as [|v vs Hv _ IH]; simpl; [lia|].
  rewrite !length_app. lia.
Qed.

Lemma members_text_length indent inner ps :
  Forall (λ p, size p.2 ≤ length (JSON.serialize inner p.2)) ps →
  foldr (λ p n, size p.2 + n) 0 ps ≤ length (members_text indent inner ps).
Proof.
  induction 1 as [|[k v] ps Hv _ IH]; simpl in *; [lia|].
  rewrite !length_app. simpl. rewrite !length_app. simpl. rewrite !length_app. lia.
Qed.

Lemma size_serialize v :
  well_formed v = true → finite v = true →
  ∀ indent, size v ≤ length (JSON.serialize indent v).
Proof.
  induction v as [|b|x|s|vs IH|ps IH] using json_ind; intros Hwf Hfin indent.
  1-4: by destruct (serialize_head indent _ Hwf Hfin) as (c & t & -> & _);
       simpl; lia.
  - destruct vs as [|v1 vs]; [simpl; lia|].
    rewrite serialize_array. cbn [size length foldr]. rewrite !length_app.
    cbn [well_formed finite forallb] in Hwf, Hfin.
    apply andb_true_iff in Hwf as [Hwf1 Hwfs], Hfin as [Hfin1 Hfins].
    rewrite forallb_forall in Hwfs, Hfins.
    apply Forall_cons in IH as [IH1 IH].
    specialize (IH1 Hwf1 Hfin1 (indent ++ JSON.gap)).
    assert (foldr (λ x n, size x + n) 0 vs
            ≤ length (elements_text indent (indent ++ JSON.gap) vs)) as Hlen.
    { apply elements_text_length.
      rewrite Forall_forall in IH. apply Forall_forall.
      intros v Hv. pose proof Hv as Hin%list_elem_of_In. auto. }
    lia.
  - destruct ps as [|[k1 v1] ps]; [simpl; lia|].
    rewrite serialize_object, size_members. cbn [length foldr].
    rewrite !length_app. cbn [length]. rewrite !length_app.
    destruct (well_formed_members _ Hwf) as [_ Hwfs].
    pose proof (finite_members _ Hfin) as Hfins.
    apply Forall_cons in IH as [IH1 IH], Hwfs as [Hwf1 Hwfs],
      Hfins as [Hfin1 Hfins].
    specialize (IH1 Hwf1 Hfin1 (indent ++ JSON.gap)).
    assert (foldr (λ p n, size p.2 + n) 0 ps
            ≤ length (members_text indent (indent ++ JSON.gap) ps)) as Hlen.
    { apply members_text_length.
      rewrite Forall_forall in IH, Hwfs, Hfins. apply Forall_forall.
      intros p Hp. auto. }
    simpl in *. lia.
Qed.

(** Serializing a value and parsing the text gives the value back. *)
Lemma parse_stringify v :
  well_formed v = true → finite v = true →
  JSON.parse (JSON.stringify v) = Some v.
Proof.
  intros Hwf Hfin. unfold JSON.parse, JSON.stringify.
  destruct (serialize_head [] v Hwf Hfin) as (c & t & Heq & Hc).
  destruct (starts_value_not_ws c t) as (Hws & _); [by eexists _, _|].
  assert (JSON.skip_ws (JSON.serialize [] v) = JSON.serialize [] v ++ [])
    as ->.
  { rewrite app_nil_r, Heq. apply (skip_ws_spaces [] c t); [constructor|done]. }
  rewrite (round_trips_all v Hwf Hfin [] _ []); [done|constructor| |done].
  pose proof (size_serialize v Hwf Hfin []). lia.
Qed.

(** ** The sign of zero *)

Lemma unsigned_zeros_members ps :
  unsigned_zeros (JObj ps) = JObj (prod_map id unsigned_zeros <$> ps).
Proof.
  cbn [unsigned_zeros]. f_equal.
  induction ps as [|[k v] ps IH]; [done|]. by rewrite IH.
Qed.

Lemma no_infinity_members ps :
  no_infinity (JObj ps) = forallb (λ p, no_infinity p.2) ps.
Proof.
  cbn [no_infinity]. induction ps as [|[k v] ps IH]; [done|].
  simpl. by rewrite IH.
Qed.

Lemma elements_text_cons indent inner x l :
  elements_text indent inner (x :: l)
  = 44%N :: 10%N :: inner ++ JSON.serialize inner x
    ++ elements_text indent inner l.
Proof. done. Qed.

Lemma members_text_cons indent inner k x l :
  members_text indent inner ((k, x) :: l)
  = 44%N :: 10%N :: inner ++ JSON.quote k ++ 58%N :: 32%N
    :: JSON.serialize inner x ++ members_text indent inner l.
Proof. done. Qed.

Lemma serialize_unsigned_zeros v indent :
  JSON.serialize indent (unsigned_zeros v) = JSON.serialize indent v.
Proof.
  revert indent.
  induction v as [|b|x|s|vs IH|ps IH] using json_ind; intros indent;
    try done.
  - by destruct x.
  - destruct vs as [|v1 vs]; [done|]. cbn [unsigned_zeros fmap list_fmap].
    rewrite !serialize_array. apply Forall_cons in IH as [-> IH].
    do 4 f_equal. generalize (indent ++ JSON.gap). intros inner.
    induction IH as [|v vs Hv _ IHvs]; [done|].
    by rewrite fmap_cons, !elements_text_cons, Hv, IHvs.
  - rewrite unsigned_zeros_members.
    destruct ps as [|[k1 v1] ps]; [done|]. cbn [fmap list_fmap prod_map].
    simpl fst. simpl snd. unfold id at 1.
    rewrite !serialize_object. apply Forall_cons in IH as [-> IH].
    do 7 f_equal. generalize (indent ++ JSON.gap). intros inner.
    induction IH as [|[k v] ps Hv _ IHps]; [done|].
    rewrite fmap_cons. cbn [prod_map fst snd] in *. unfold id at 1.
    by rewrite !members_text_cons, Hv, IHps.
Qed.

Lemma well_formed_object ps :
  well_formed (JObj ps)
  = ordered_keys ps.*1 && forallb (λ p, well_formed p.2) ps.
Proof.
  cbn [well_formed]. f_equal. induction ps as [|[k v] ps IH]; [done|].
  simpl. by rewrite IH.
Qed.

Lemma finite_object ps :
  finite (JObj ps) = forallb (λ p, finite p.2) ps.
Proof.
  cbn [finite]. induction ps as [|[k v] ps IH]; [done|].
  simpl. by rewrite IH.
Qed.

Lemma forallb_fmap_ext {A B} (f : A → bool) (g : B → bool) (h : B → A) l :
  Forall (λ x, f (h x) = g x) l → forallb f (h <$> l) = forallb g l.
Proof.
  induction 1 as [|x l Hx _ IH]; [done|].
  rewrite fmap_cons. cbn [forallb]. by rewrite Hx, IH.
Qed.

Lemma well_formed_unsigned_zeros v :
  well_formed (unsigned_zeros v) = well_formed v.
Proof.
  induction v as [|b|x|s|vs IH|ps IH] using json_ind; try done.
  - by destruct x.
  - cbn [unsigned_zeros well_formed]. by apply forallb_fmap_ext.
  - rewrite unsigned_zeros_members, !well_formed_object. f_equal.
    + f_equal. rewrite <- list_fmap_compose. apply list_fmap_ext.
      by intros ? [].
    + apply forallb_fmap_ext. eapply Forall_impl; [exact IH|].
      by intros [].
Qed.

Lemma finite_unsigned_zeros v : finite (unsigned_zeros v) = no_infinity v.
Proof.
  induction v as [|b|x|s|vs IH|ps IH] using json_ind; try done.
  - by destruct x.
  - cbn [unsigned_zeros finite no_infinity]. by apply forallb_fmap_ext.
  - rewrite unsigned_zeros_members, finite_object, no_infinity_members.
    apply forallb_fmap_ext. eapply Forall_impl; [exact IH|]. by intros [].
Qed.

Lemma unsigned_zeros_finite v : finite v = true → unsigned_zeros v = v.
Proof.
  induction v as [|b|x|s|vs IH|ps IH] using json_ind; try done.
  - by destruct x as [[]| |].
  - cbn [finite unsigned_zeros]. intros Hfin. f_equal.
    induction IH as [|v vs Hv _ IHvs]; [done|]. cbn [forallb] in Hfin.
    apply andb_true_iff in Hfin as [? ?]. rewrite fmap_cons.
    by rewrite Hv, IHvs.
  - rewrite unsigned_zeros_members, finite_object. intros Hfin. f_equal.
    induction IH as [|[k v] ps Hv _ IHps]; [done|]. cbn [forallb] in Hfin.
    apply andb_true_iff in Hfin as [? ?]. rewrite fmap_cons.
    cbn [prod_map fst snd] in *. unfold id at 1. by rewrite Hv, IHps.
Qed.

(** The round trip through JSON text: the value comes back, with a
    negative zero turned into the positive zero. *)
Lemma parse_stringify_zeros v :
  well_formed v = true → no_infinity v = true →
  JSON.parse (JSON.stringify v) = Some (unsigned_zeros v).
Proof.
  intros Hwf Hinf. unfold JSON.stringify.
  rewrite <- serialize_unsigned_zeros. apply parse_stringify.
  - by rewrite well_formed_unsigned_zeros.
  - by rewrite finite_unsigned_zeros.
Qed.

(** ** Parsed numbers are canonical *)

Lemma take_digits_digits s ds rest :
  JSON.take_digits s = (ds, rest) → Forall (λ d, d < 10)%N ds.
Proof.
  revert ds rest. induction s as [|c s IH]; intros ds rest; simpl.
  - by intros [= <- <-].
  - destruct (is_digit c) eqn:Hc; [|by intros [= <- <-]].
    destruct (JSON.take_digits s) as [ds' rest'].
    intros [= <- <-]. constructor; [|by eapply IH].
    apply is_digit_range in Hc. unfold digit_of_char. lia.
Qed.

Lemma strip_zeros_suffix ds :
  ∃ n, ds = replicate n 0%N ++ strip_zeros ds.
Proof.
  induction ds as [|d ds [n IH]]; [by exists 0|]. simpl.
  destruct (N.eqb_spec d 0) as [->|_]; [|by exists 0].
  exists (S n). simpl. by f_equal.
Qed.

Lemma strip_zeros_nonzero ds d t : strip_zeros ds = d :: t → d ≠ 0%N.
Proof.
  induction ds as [|d' ds IH]; [done|]. simpl.
  destruct (N.eqb_spec d' 0); [done|]. by intros [= <- <-].
Qed.

Lemma number_of_decimal_double neg ds e :
  Forall (λ d, d < 10)%N ds → is_double (number_of_decimal neg ds e) = true.
Proof.
  intros Hds. unfold number_of_decimal.
  destruct (strip_zeros_suffix ds) as [n Hlead].
  destruct (strip_zeros_suffix (reverse (strip_zeros ds))) as [m Hsig].
  set (lead := strip_zeros ds) in *.
  set (r := strip_zeros (reverse lead)) in *.
  destruct (reverse r) as [|d sig] eqn:Hr; [done|].
  apply number_of_canonical_double.
  assert (lead = (d :: sig) ++ replicate m 0%N) as Hlead'.
  { rewrite <- Hr, <- (reverse_involutive lead), Hsig, reverse_app.
    by rewrite reverse_replicate. }
  unfold canonical_digits. rewrite !andb_true_iff. split_and!.
  - apply forallb_forall. intros x Hx%list_elem_of_In. apply N.ltb_lt.
    rewrite Forall_forall in Hds. apply Hds.
    rewrite Hlead, Hlead', !elem_of_app. auto.
  - apply negb_true_iff, N.eqb_neq.
    by apply (strip_zeros_nonzero ds d (sig ++ replicate m 0%N)).
  - assert (r = reverse (d :: sig)) as Hr'
      by (by rewrite <- Hr, reverse_involutive).
    destruct (reverse (d :: sig)) as [|d' r'] eqn:Hrev.
    { by apply (f_equal length) in Hrev; rewrite length_reverse in Hrev. }
    assert (last (d :: sig) = Some d') as ->.
    { rewrite <- (reverse_involutive (d :: sig)), Hrev, reverse_cons.
      by rewrite last_snoc. }
    apply negb_true_iff, N.eqb_neq.
    by apply (strip_zeros_nonzero (reverse lead) d' r').
Qed.

Lemma parse_int_digits_lt s ds rest :
  JSON.parse_int s = Some (ds, rest) → Forall (λ d, d < 10)%N ds.
Proof.
  destruct s as [|c s]; [done|]. cbn [JSON.parse_int].
  destruct (c =? 48)%N; [intros [= <- <-]; by repeat constructor|].
  destruct (is_digit c) eqn:Hc; [|done].
  intros Htake. apply (take_digits_digits (c :: s) ds rest). congruence.
Qed.

Lemma parse_frac_digits_lt s ds rest :
  JSON.parse_frac s = Some (ds, rest) → Forall (λ d, d < 10)%N ds.
Proof.
  destruct s as [|c s]; [by intros [= <- <-]|]. cbn [JSON.parse_frac].
  destruct (c =? 46)%N; [|by intros [= <- <-]].
  destruct (JSON.take_digits s) as [[|d ds'] rest'] eqn:Htake; [done|].
  intros [= <- <-]. eapply take_digits_digits, Htake.
Qed.

Lemma parse_number_double s x rest :
  JSON.parse_number s = Some (x, rest) → is_double x = true.
Proof.
  assert (∀ neg s, JSON.parse_magnitude neg s = Some (x, rest) →
                   is_double x = true) as Hmag.
  { intros neg s'. unfold JSON.parse_magnitude.
    destruct (JSON.parse_int s') as [[int s1]|] eqn:Hint; [|done].
    destruct (JSON.parse_frac s1) as [[frac s2]|] eqn:Hfrac; [|done].
    destruct (JSON.parse_exp s2) as [[e s3]|]; [|done].
    intros [= <- <-]. apply number_of_decimal_double, Forall_app.
    eauto using parse_int_digits_lt, parse_frac_digits_lt. }
  destruct s as [|c s]; [done|]. cbn [JSON.parse_number].
  destruct (c =? 45)%N; eauto.
Qed.

(** ** Array indices name one key each *)

Lemma N_of_digits_acc_value acc ds :
  N_of_digits_acc acc ds
  = (acc * 10 ^ N.of_nat (length ds) + N_of_digits ds)%N.
Proof.
  unfold N_of_digits. revert acc.
  induction ds as [|d ds IH]; intros acc; simpl length.
  - simpl. lia.
  - cbn [N_of_digits_acc]. rewrite (IH (10 * acc + d)%N), (IH (10 * 0 + d)%N).
    rewrite Nat2N.inj_succ, N.pow_succ_r'. lia.
Qed.

Lemma N_of_digits_cons d ds :
  N_of_digits (d :: ds) = (d * 10 ^ N.of_nat (length ds) + N_of_digits ds)%N.
Proof.
  unfold N_of_digits at 1. cbn [N_of_digits_acc].
  rewrite N_of_digits_acc_value. lia.
Qed.

Lemma N_of_digits_bound ds :
  Forall (λ d, d < 10)%N ds → (N_of_digits ds < 10 ^ N.of_nat (length ds))%N.
Proof.
  induction 1 as [|d ds Hd _ IH]; [done|].
  rewrite N_of_digits_cons. simpl length.
  rewrite Nat2N.inj_succ, N.pow_succ_r'. nia.
Qed.

Lemma N_of_digits_inj ds ds' :
  length ds = length ds' →
  Forall (λ d, d < 10)%N ds → Forall (λ d, d < 10)%N ds' →
  N_of_digits ds = N_of_digits ds' → ds = ds'.
Proof.
  intros Hlen Hds. revert ds' Hlen.
  induction Hds as [|d ds Hd Hds IH]; intros [|d' ds'] Hlen Hds' Heq;
    try done.
  apply Forall_cons in Hds' as [Hd' Hds']. injection Hlen as Hlen.
  rewrite !N_of_digits_cons, <- Hlen in Heq.
  pose proof (N_of_digits_bound ds Hds) as Hb.
  pose proof (N_of_digits_bound ds' Hds') as Hb'. rewrite <- Hlen in Hb'.
  assert (d = d') as -> by nia.
  f_equal. apply IH; [done|done|lia].
Qed.

Lemma N_of_digits_lower d ds :
  d ≠ 0%N → (10 ^ N.of_nat (length ds) ≤ N_of_digits (d :: ds))%N.
Proof. intros Hd. rewrite N_of_digits_cons. nia. Qed.

Lemma pow10_pos n : (1 ≤ 10 ^ n)%N.
Proof. pose proof (N.pow_nonzero 10 n). lia. Qed.

(** Canonical digits: a single zero, or digits that start with a
    non-zero digit. *)
Lemma canonical_numeral_inj ds ds' :
  Forall (λ d, d < 10)%N ds → Forall (λ d, d < 10)%N ds' →
  (∀ t, ds = 0%N :: t → t = []) → (∀ t, ds' = 0%N :: t → t = []) →
  ds ≠ [] → ds' ≠ [] →
  N_of_digits ds = N_of_digits ds' → ds = ds'.
Proof.
  intros Hds Hds' Hz Hz' Hne Hne' Heq.
  apply N_of_digits_inj; try done.
  destruct ds as [|d ds]; [done|]. destruct ds' as [|d' ds']; [done|].
  pose proof (N_of_digits_bound _ Hds) as Hb.
  pose proof (N_of_digits_bound _ Hds') as Hb'.
  simpl length in *. rewrite Nat2N.inj_succ, N.pow_succ_r' in Hb, Hb'.
  destruct (decide (d = 0%N)) as [->|Hd], (decide (d' = 0%N)) as [->|Hd'].
  - by rewrite (Hz ds), (Hz' ds').
  - rewrite (Hz ds eq_refl) in *.
    pose proof (N_of_digits_lower d' ds' Hd').
    assert (N_of_digits [0%N] = 0%N) as H0 by done.
    pose proof (pow10_pos (N.of_nat (length ds'))).
    lia.
  - rewrite (Hz' ds' eq_refl) in *.
    pose proof (N_of_digits_lower d ds Hd).
    assert (N_of_digits [0%N] = 0%N) as H0 by done.
    pose proof (pow10_pos (N.of_nat (length ds))).
    lia.
  - pose proof (N_of_digits_lower d ds Hd).
    pose proof (N_of_digits_lower d' ds' Hd').
    destruct (Nat.lt_trichotomy (length ds) (length ds')) as [Hlt|[->|Hlt]];
      [exfalso|done|exfalso].
    + assert (10 * 10 ^ N.of_nat (length ds) ≤ 10 ^ N.of_nat (length ds'))%N.
      { rewrite <- N.pow_succ_r', <- Nat2N.inj_succ.
        apply N.pow_le_mono_r; lia. }
      lia.
    + assert (10 * 10 ^ N.of_nat (length ds') ≤ 10 ^ N.of_nat (length ds))%N.
      { rewrite <- N.pow_succ_r', <- Nat2N.inj_succ.
        apply N.pow_le_mono_r; lia. }
      lia.
Qed.

Lemma digit_char_of_char c : is_digit c = true → digit_char (digit_of_char c) = c.
Proof. rewrite is_digit_range. unfold digit_char, digit_of_char. lia. Qed.

Lemma array_index_Some k i :
  array_index k = Some i →
  ∃ ds, k = digit_char <$> ds ∧ Forall (λ d, d < 10)%N ds ∧
        (∀ t, ds = 0%N :: t → t = []) ∧ ds ≠ [] ∧ i = N_of_digits ds.
Proof.
  destruct k as [|c k]; [done|]. cbn [array_index].
  destruct (forallb is_digit (c :: k)) eqn:Hdigits; [|done].
  destruct (implb _ _) eqn:Hzero; [|done].
  destruct (_ <=? _)%nat; [|done]. destruct (_ <? _)%N; [|done].
  intros [= <-]. exists (digit_of_char <$> c :: k).
  rewrite forallb_forall in Hdigits.
  assert (Forall (λ c, is_digit c = true) (c :: k)) as Hall.
  { apply Forall_forall. intros x Hx%list_elem_of_In. auto. }
  split_and!; [| | |done|done].
  - rewrite <- list_fmap_compose. symmetry.
    rewrite <- (list_fmap_id (c :: k)) at 2. apply Forall_fmap_ext.
    eapply Forall_impl; [exact Hall|]. intros x Hx. simpl.
    by apply digit_char_of_char.
  - apply Forall_fmap. eapply Forall_impl; [exact Hall|]. intros x Hx. simpl.
    apply is_digit_range in Hx. unfold digit_of_char. lia.
  - rewrite fmap_cons. intros t [= Hc Ht].
    assert (c = 48%N) as ->.
    { apply Forall_cons in Hall as [Hc'%is_digit_range _].
      unfold digit_of_char in Hc. lia. }
    simpl in Hzero. apply bool_decide_eq_true in Hzero. by subst.
Qed.

Lemma array_index_inj k k' i :
  array_index k = Some i → array_index k' = Some i → k = k'.
Proof.
  intros (ds & -> & Hds & Hz & Hne & ->)%array_index_Some
         (ds' & -> & Hds' & Hz' & Hne' & Heq)%array_index_Some.
  f_equal. by apply canonical_numeral_inj.
Qed.

(** ** Assignment keeps the property order *)

Lemma key_before_spec k k' :
  key_before k k' = true ↔
  k' ≠ k ∧ match array_index k, array_index k' with
           | Some i, Some j => (i < j)%N
           | None, Some _ => False
           | _, None => True
           end.
Proof.
  unfold key_before. rewrite andb_true_iff, negb_true_iff, bool_decide_eq_false.
  destruct (array_index k), (array_index k'); rewrite ?N.ltb_lt; naive_solver.
Qed.

Lemma ordered_keys_snoc ks k :
  ordered_keys ks = true → Forall (λ k0, key_before k0 k = true) ks →
  ordered_keys (ks ++ [k]) = true.
Proof.
  intros Hord Hall. induction Hall as [|k0 ks Hk0 _ IH]; [done|].
  cbn [app ordered_keys] in *. apply andb_true_iff in Hord as [Hks Hord].
  rewrite forallb_app, Hks, IH by done. simpl. by rewrite Hk0.
Qed.

Lemma replace_property_keys k v ps :
  (replace_property k v ps).*1 = ps.*1.
Proof.
  induction ps as [|[k0 v0] ps IH]; [done|]. cbn [replace_property].
  destruct (decide (k0 = k)) as [->|]; [done|].
  by rewrite !fmap_cons, IH.
Qed.

Lemma own_property_None k ps :
  own_property k ps = None → Forall (λ p, p.1 ≠ k) ps.
Proof.
  induction ps as [|[k0 v0] ps IH]; [constructor|]. simpl.
  destruct (decide (k0 = k)); [done|]. constructor; auto.
Qed.

Lemma insert_index_keys i k v ps :
  ∃ ps1 ps2, ps = ps1 ++ ps2 ∧
             insert_index i k v ps = ps1 ++ (k, v) :: ps2 ∧
             Forall (λ p, ∃ j, array_index p.1 = Some j ∧ (j < i)%N) ps1 ∧
             match ps2 with
             | [] => True
             | p :: _ => ∀ j, array_index p.1 = Some j → (i ≤ j)%N
             end.
Proof.
  induction ps as [|[k0 v0] ps (ps1 & ps2 & -> & Hins & Hall & Hnext)].
  - by exists [], [].
  - cbn [insert_index]. destruct (array_index k0) as [j|] eqn:Hk0.
    + destruct (N.ltb_spec j i).
      * exists ((k0, v0) :: ps1), ps2. rewrite Hins. split_and!; try done.
        constructor; [|done]. by exists j.
      * exists [], ((k0, v0) :: ps1 ++ ps2). split_and!; try done.
        simpl. intros ? ?. simplify_eq. done.
    + exists [], ((k0, v0) :: ps1 ++ ps2). split_and!; try done.
      simpl. intros ? ?. simplify_eq.
Qed.

Lemma ordered_keys_app ks1 ks2 :
  ordered_keys (ks1 ++ ks2) = true ↔
  ordered_keys ks1 = true ∧ ordered_keys ks2 = true ∧
  Forall (λ k1, Forall (λ k2, key_before k1 k2 = true) ks2) ks1.
Proof.
  induction ks1 as [|k ks1 IH]; cbn [app ordered_keys].
  - split; [|tauto]. intros ?. split_and!; [done..|constructor].
  - rewrite forallb_app, !andb_true_iff, IH, Forall_cons.
    rewrite (Forall_forall _ ks2), (forallb_forall _ ks2).
    setoid_rewrite <- list_elem_of_In. naive_solver.
Qed.

Lemma ordered_keys_insert (ps1 ps2 : list (js_string * json)) i k v :
  ordered_keys (ps1 ++ ps2).*1 = true →
  array_index k = Some i →
  Forall (λ p, p.1 ≠ k) (ps1 ++ ps2) →
  Forall (λ p, ∃ j, array_index p.1 = Some j ∧ (j < i)%N) ps1 →
  match ps2 with
  | [] => True
  | p :: _ => ∀ j, array_index p.1 = Some j → (i ≤ j)%N
  end →
  ordered_keys (ps1 ++ (k, v) :: ps2).*1 = true.
Proof.
  rewrite !fmap_app, fmap_cons. cbn [fst].
  rewrite !ordered_keys_app. cbn [ordered_keys].
  rewrite Forall_app, andb_true_iff.
  intros (Hord1 & Hord2 & Hcross) Hk [Hne1 Hne2] Hlow Hhigh.
  assert (Forall (λ k2, key_before k k2 = true) ps2.*1) as Hafter.
  { destruct ps2 as [|[k2 v2] ps2]; [constructor|].
    rewrite fmap_cons in *. cbn [fst ordered_keys] in *.
    apply andb_true_iff in Hord2 as [Hrest _].
    apply Forall_cons in Hne2 as [Hne2 Hnes].
    assert (key_before k k2 = true) as Hkk2.
    { apply key_before_spec. split; [done|]. rewrite Hk.
      destruct (array_index k2) as [j|] eqn:Hk2; [|done].
      specialize (Hhigh j eq_refl).
      destruct (decide (i = j)) as [->|]; [|lia].
      destruct Hne2. by apply (array_index_inj _ _ j). }
    constructor; [done|]. rewrite forallb_forall in Hrest.
    apply Forall_forall. intros k3 Hk3.
    pose proof Hk3 as Hin%list_elem_of_In%Hrest.
    apply key_before_spec in Hin as [Hne3 Hord3], Hkk2 as [_ Hord].
    apply key_before_spec. split.
    { apply list_elem_of_fmap in Hk3 as ([] & -> & Hp).
      rewrite Forall_forall in Hnes. by apply (Hnes _ Hp). }
    rewrite Hk in *. destruct (array_index k2), (array_index k3); try done; lia. }
  split_and!; try done.
  - apply forallb_forall.
    rewrite Forall_forall in Hafter. intros ? ?%list_elem_of_In. auto.
  - rewrite Forall_forall in Hcross. rewrite Forall_forall in Hlow.
    rewrite Forall_forall in Hne1. apply Forall_forall.
    intros k1 Hk1. constructor; [|by apply Hcross].
    apply list_elem_of_fmap in Hk1 as ([k1' v1] & -> & Hp).
    destruct (Hlow _ Hp) as (j & Hj & Hlt). specialize (Hne1 _ Hp).
    simpl in *. apply key_before_spec. rewrite Hj, Hk. split; [done|lia].
Qed.

Lemma set_property_ordered k v ps :
  ordered_keys ps.*1 = true → ordered_keys (set_property k v ps).*1 = true.
Proof.
  intros Hord. unfold set_property.
  destruct (own_property k ps) as [v0|] eqn:Hown.
  - by rewrite replace_property_keys.
  - apply own_property_None in Hown.
    destruct (array_index k) as [i|] eqn:Hk.
    + destruct (insert_index_keys i k v ps)
        as (ps1 & ps2 & -> & -> & Hlow & Hhigh).
      by apply (ordered_keys_insert ps1 ps2 i).
    + rewrite fmap_app. apply ordered_keys_snoc; [done|].
      apply Forall_fmap. eapply Forall_impl; [exact Hown|].
      intros [k0 v0] Hne. simpl in *. apply key_before_spec.
      split; [done|]. rewrite Hk. by destruct (array_index k0).
Qed.

Lemma object_of_members_keys members :
  ordered_keys (JSON.object_of_members members).*1 = true.
Proof.
  unfold JSON.object_of_members.
  assert (∀ acc, ordered_keys acc.*1 = true →
                 ordered_keys
                   (foldl (λ props m, set_property m.1 m.2 props) acc
                      members).*1 = true) as Hgen; [|by apply Hgen].
  induction members as [|[k v] members IH]; intros acc Hacc; [done|].
  simpl. by apply IH, set_property_ordered.
Qed.

Lemma replace_property_values (P : json → Prop) k v ps :
  P v → Forall (λ p, P p.2) ps → Forall (λ p, P p.2) (replace_property k v ps).
Proof.
  intros Hv. induction 1 as [|[k0 v0] ps Hp Hps IH]; [done|]. simpl.
  destruct (decide (k0 = k)); by constructor.
Qed.

Lemma set_property_values (P : json → Prop) k v ps :
  P v → Forall (λ p, P p.2) ps → Forall (λ p, P p.2) (set_property k v ps).
Proof.
  intros Hv Hps. unfold set_property. destruct (own_property k ps).
  - by apply replace_property_values.
  - destruct (array_index k) as [i|].
    + destruct (insert_index_keys i k v ps) as (ps1 & ps2 & -> & -> & _).
      apply Forall_app in Hps as [? ?]. apply Forall_app. split; [done|].
      by constructor.
    + apply Forall_app. split; [done|]. by repeat constructor.
Qed.

Lemma object_of_members_values (P : json → Prop) members :
  Forall (λ p, P p.2) members →
  Forall (λ p, P p.2) (JSON.object_of_members members).
Proof.
  unfold JSON.object_of_members.
  assert (∀ acc, Forall (λ p, P p.2) acc → Forall (λ p, P p.2) members →
                 Forall (λ p, P p.2)
                   (foldl (λ props m, set_property m.1 m.2 props) acc
                      members)) as Hgen; [|by apply Hgen].
  intros acc Hacc Hms. revert acc Hacc.
  induction Hms as [|[k v] members Hv _ IH]; intros acc Hacc; [done|].
  simpl. by apply IH, set_property_values.
Qed.

(** ** Every parsed value is well formed *)

Lemma parse_value_well_formed fuel :
  (∀ s v rest, JSON.parse_value fuel s = Some (v, rest) →
               well_formed v = true) ∧
  (∀ s vs rest, JSON.parse_elements fuel s = Some (vs, rest) →
                forallb well_formed vs = true) ∧
  (∀ s ms rest, JSON.parse_members fuel s = Some (ms, rest) →
                Forall (λ p, well_formed p.2 = true) ms).
Proof.
  induction fuel as [|fuel (IHv & IHe & IHm)]; [done|]. split_and!.
  - intros s v rest. cbn [JSON.parse_value]. unfold JSON.literal.
    intros Hparse. repeat case_match; simplify_eq; try done.
    + rewrite well_formed_object, object_of_members_keys. simpl.
      apply forallb_forall. intros p Hp%list_elem_of_In.
      eapply (Forall_forall (λ p, well_formed p.2 = true)); [|done].
      apply (object_of_members_values (λ x, well_formed x = true)). eauto.
    + cbn [well_formed]. eauto.
    + cbn [well_formed]. by eapply parse_number_double.
  - intros s vs rest. cbn [JSON.parse_elements].
    intros Hparse. repeat case_match; simplify_eq; cbn [forallb].
    + apply andb_true_iff. eauto.
    + rewrite andb_true_r. eauto.
  - intros s ms rest. cbn [JSON.parse_members].
    intros Hparse. repeat case_match; simplify_eq.
    + constructor; eauto.
    + repeat constructor. simpl. eauto.
Qed.

Lemma parse_well_formed text v :
  JSON.parse text = Some v → well_formed v = true.
Proof.
  unfold JSON.parse. intros Hparse. repeat case_match; simplify_eq.
  by eapply parse_value_well_formed.
Qed.

Lemma document_of_well_formed content :
  well_formed (document_of content) = true.
Proof.
  unfold document_of. destruct (JSON.parse content) eqn:Hparse; [|done].
  by eapply parse_well_formed.
Qed.

Lemma get_property_well_formed v name x :
  well_formed v = true → get_property v name = Some x → well_formed x = true.
Proof.
  destruct v as [| | | | |ps]; try done. rewrite well_formed_object.
  intros [_ Hps]%andb_true_iff. simpl. rewrite forallb_forall in Hps.
  induction ps as [|[k0 v0] ps IH]; [done|]. simpl.
  destruct (decide (k0 = name)).
  - intros [= <-]. apply (Hps (k0, v0)). by left.
  - apply IH. intros p Hp. apply Hps. by right.
Qed.

Lemma extractEntries_Ok document entries :
  extractEntries document = Ok entries →
  ∃ features,
    entries = omap payload features ∧
    (features = [] ∨
     get_property document (js "features") = Some (JArr features)).
Proof.
  intros Hex. assert (document ≠ JNull) as Hdoc by (by intros ->).
  destruct (get_property document (js "features")) as [[| | | |fs|]|] eqn:Hf;
    try (rewrite (extractEntries_features _ _ Hdoc Hf) in Hex;
         injection Hex as <-; exists fs; split; [done|by right]);
    unfold extractEntries in Hex; rewrite Hf in Hex;
    destruct document; simpl in Hex; simplify_eq;
    (exists []; split; [done|by left]).
Qed.

Lemma extractEntries_well_formed document entries :
  well_formed document = true → extractEntries document = Ok entries →
  Forall (λ e, well_formed e = true) entries.
Proof.
  intros Hwf (features & -> & [->|Hfeatures])%extractEntries_Ok;
    [constructor|].
  apply get_property_well_formed in Hfeatures; [|done].
  cbn [well_formed] in Hfeatures. rewrite forallb_forall in Hfeatures.
  apply Forall_forall. intros e (feature & Hin & He)%list_elem_of_omap.
  apply list_elem_of_In, Hfeatures in Hin. unfold payload in He.
  destruct (optional_attributes feature) as [attributes|] eqn:Hattr;
    simpl in He; [|done].
  destruct (truthy attributes); [|done]. injection He as <-.
  unfold optional_attributes in Hattr. destruct feature; try done.
  by eapply get_property_well_formed.
Qed.

Lemma baseUniq_subset {A} (key : A → option json) l seen result x :
  x ∈ baseUniq key l seen result → x ∈ result ∨ x ∈ l.
Proof.
  revert seen result. induction l as [|y l IH]; intros seen result; simpl.
  - by left.
  - destruct (existsb _ seen); intros [Hx|Hx]%IH; auto.
    + right. by right.
    + apply elem_of_app in Hx as [?|?%list_elem_of_singleton]; auto.
      right. subst. by left.
    + right. by right.
Qed.

Lemma processEntryFiles_well_formed filenames w entries :
  (processEntryFiles filenames w).1 = Ok entries →
  well_formed (JArr entries) = true.
Proof.
  intros (per_file & Hper & ->)%processEntryFiles_Ok.
  cbn [well_formed]. apply forallb_forall. intros e He%list_elem_of_In.
  apply baseUniq_subset in He as [He|He]; [by apply elem_of_nil in He|].
  apply list_elem_of_In, in_concat in He as (es & Hes & He).
  apply list_elem_of_In, list_elem_of_lookup in Hes as [i Hi].
  apply list_elem_of_In in He.
  destruct (Forall2_lookup_r _ _ _ _ _ Hper Hi) as (f & _ & Hf).
  rewrite fileEntries_unfold in Hf. simpl in Hf.
  destruct (w_files w !! f) as [content|]; [|done].
  eapply (Forall_forall (λ e, well_formed e = true)); [|done].
  eapply extractEntries_well_formed; [|done].
  apply document_of_well_formed.
Qed.

(** ** The fuel of the parser suffices *)

Lemma skip_ws_length s : length (JSON.skip_ws s) ≤ length s.
Proof.
  induction s as [|c s IH]; [done|]. simpl. destruct (JSON.is_ws c); simpl; lia.
Qed.

Lemma cons_chars_Some c r cs rest :
  JSON.cons_chars c r = Some (cs, rest) → ∃ cs', r = Some (cs', rest).
Proof. destruct r as [[cs' rest']|]; [|done]. intros [= <- <-]. eauto. Qed.

Lemma parse_chars_length s cs rest :
  JSON.parse_chars s = Some (cs, rest) → length rest < length s.
Proof.
  remember (length s) as n eqn:Hn. assert (length s ≤ n) as Hle by lia.
  clear Hn. revert s Hle cs rest.
  induction n as [|n IH]; intros [|c s1] Hle cs rest; try done;
    [simpl in Hle; lia|].
  simpl in Hle. cbn [JSON.parse_chars].
  repeat case_match; try done; simplify_eq;
    try (intros [= <- <-]; simpl; lia);
    intros [cs' Hp%IH]%cons_chars_Some; simpl in *; lia.
Qed.

Lemma take_digits_length s ds rest :
  JSON.take_digits s = (ds, rest) → length rest ≤ length s.
Proof.
  revert ds rest. induction s as [|c s IH]; intros ds rest; simpl.
  - by intros [= <- <-].
  - destruct (is_digit c); [|by intros [= <- <-]].
    destruct (JSON.take_digits s) as [ds' rest'].
    intros [= <- <-]. specialize (IH _ _ eq_refl). lia.
Qed.

Lemma parse_int_length s ds rest :
  JSON.parse_int s = Some (ds, rest) → length rest < length s.
Proof.
  destruct s as [|c s]; [done|]. cbn [JSON.parse_int].
  destruct (c =? 48)%N; [intros [= <- <-]; simpl; lia|].
  destruct (is_digit c) eqn:Hc; [|done]. cbn [JSON.take_digits]. rewrite Hc.
  destruct (JSON.take_digits s) as [ds' rest'] eqn:Htake.
  intros [= <- <-]. apply take_digits_length in Htake. simpl. lia.
Qed.

Lemma parse_frac_length s ds rest :
  JSON.parse_frac s = Some (ds, rest) → length rest ≤ length s.
Proof.
  destruct s as [|c s]; [by intros [= <- <-]|]. cbn [JSON.parse_frac].
  destruct (c =? 46)%N; [|by intros [= <- <-]].
  destruct (JSON.take_digits s) as [[|d ds'] rest'] eqn:Htake; [done|].
  intros [= <- <-]. apply take_digits_length in Htake. simpl. lia.
Qed.

Lemma parse_exp_length s e rest :
  JSON.parse_exp s = Some (e, rest) → length rest ≤ length s.
Proof.
  destruct s as [|c s]; [by intros [= <- <-]|]. cbn [JSON.parse_exp].
  destruct (_ || _); [|by intros [= <- <-]].
  destruct (match s with [] => _ | _ => _ end) as [neg s''] eqn:Hsign.
  assert (length s'' ≤ length s) as Hs''.
  { destruct s as [|d t]; [by simplify_eq|].
    repeat case_match; simplify_eq; simpl; lia. }
  destruct (JSON.take_digits s'') as [[|d ds'] rest'] eqn:Htake; [done|].
  intros [= <- <-]. apply take_digits_length in Htake. simpl. lia.
Qed.

Lemma parse_number_length s x rest :
  JSON.parse_number s = Some (x, rest) → length rest < length s.
Proof.
  assert (∀ neg s, JSON.parse_magnitude neg s = Some (x, rest) →
                   length rest < length s) as Hmag.
  { intros neg s'. unfold JSON.parse_magnitude.
    destruct (JSON.parse_int s') as [[int s1]|] eqn:Hint; [|done].
    destruct (JSON.parse_frac s1) as [[frac s2]|] eqn:Hfrac; [|done].
    destruct (JSON.parse_exp s2) as [[e s3]|] eqn:Hexp; [|done].
    intros [= <- <-]. apply parse_int_length in Hint.
    apply parse_frac_length in Hfrac. apply parse_exp_length in Hexp. lia. }
  destruct s as [|c s]; [done|]. cbn [JSON.parse_number].
  destruct (c =? 45)%N; intros Hs%Hmag; simpl in *; lia.
Qed.

Lemma expect_length word s rest :
  JSON.expect word s = Some rest → length rest + length word = length s.
Proof.
  revert s. induction word as [|w word IH]; intros s; simpl.
  - intros [= <-]. lia.
  - destruct s as [|c s]; [done|]. destruct (w =? c)%N; [|done].
    intros Hrest%IH. simpl. lia.
Qed.

Lemma parse_value_fuel fuel :
  (∀ s v rest, JSON.parse_value fuel s = Some (v, rest) →
     length rest < length s ∧
     ∀ fuel', length s - length rest ≤ fuel' →
              JSON.parse_value fuel' s = Some (v, rest)) ∧
  (∀ s vs rest, JSON.parse_elements fuel s = Some (vs, rest) →
     length rest < length s ∧
     ∀ fuel', length s - length rest ≤ fuel' →
              JSON.parse_elements fuel' s = Some (vs, rest)) ∧
  (∀ s ms rest, JSON.parse_members fuel s = Some (ms, rest) →
     length rest < length s ∧
     ∀ fuel', length s - length rest ≤ fuel' →
              JSON.parse_members fuel' s = Some (ms, rest)).
Proof.
  induction fuel as [|fuel (IHv & IHe & IHm)]; [done|]. split_and!.
  - intros s v rest. cbn [JSON.parse_value]. destruct s as [|c s1]; [done|].
    destruct (c =? 123)%N eqn:Hbrace.
    { pose proof (skip_ws_length s1) as Hws.
      destruct (JSON.skip_ws s1) as [|d s2] eqn:Hskip; [done|].
      destruct (d =? 125)%N eqn:Hclose.
      - intros [= <- <-]. simpl in *. split; [lia|].
        intros [|fuel'] Hfuel; [lia|]. cbn [JSON.parse_value].
        by rewrite Hbrace, Hskip, Hclose.
      - destruct (JSON.parse_members fuel (d :: s2)) as [[ms rest']|] eqn:Hms;
          [|done].
        intros [= <- <-]. destruct (IHm _ _ _ Hms) as [Hlen Hfuel].
        simpl in *. split; [lia|].
        intros [|fuel'] Hfuel'; [lia|]. cbn [JSON.parse_value].
        rewrite Hbrace, Hskip, Hclose, Hfuel; [done|]. simpl. lia. }
    destruct (c =? 91)%N eqn:Hbracket.
    { pose proof (skip_ws_length s1) as Hws.
      destruct (JSON.skip_ws s1) as [|d s2] eqn:Hskip; [done|].
      destruct (d =? 93)%N eqn:Hclose.
      - intros [= <- <-]. simpl in *. split; [lia|].
        intros [|fuel'] Hfuel; [lia|]. cbn [JSON.parse_value].
        by rewrite Hbrace, Hbracket, Hskip, Hclose.
      - destruct (JSON.parse_elements fuel (d :: s2)) as [[vs rest']|] eqn:Hvs;
          [|done].
        intros [= <- <-]. destruct (IHe _ _ _ Hvs) as [Hlen Hfuel].
        simpl in *. split; [lia|].
        intros [|fuel'] Hfuel'; [lia|]. cbn [JSON.parse_value].
        rewrite Hbrace, Hbracket, Hskip, Hclose, Hfuel; [done|]. simpl. lia. }
    intros Hparse.
    assert (length rest < length (c :: s1)) as Hlen.
    { revert Hparse. unfold JSON.literal.
      repeat case_match; try done; intros; simplify_eq;
        first [ by eapply parse_number_length
              | match goal with
                | H : JSON.parse_chars _ = Some _ |- _ =>
                    apply parse_chars_length in H; simpl; lia
                | H : JSON.expect _ _ = Some _ |- _ =>
                    apply expect_length in H; simpl in *; lia
                end ]. }
    split; [done|]. intros [|fuel'] Hfuel; [simpl in *; lia|].
    cbn [JSON.parse_value]. by rewrite Hbrace, Hbracket.
  - intros s vs rest. cbn [JSON.parse_elements].
    destruct (JSON.parse_value fuel s) as [[v s1]|] eqn:Hv; [|done].
    destruct (IHv _ _ _ Hv) as [Hlen1 Hfuel1].
    pose proof (skip_ws_length s1) as Hws.
    destruct (JSON.skip_ws s1) as [|c s2] eqn:Hskip; [done|].
    destruct (c =? 44)%N eqn:Hcomma.
    + destruct (JSON.parse_elements fuel (JSON.skip_ws s2))
        as [[vs' rest']|] eqn:Hvs; [|done].
      intros [= <- <-]. destruct (IHe _ _ _ Hvs) as [Hlen2 Hfuel2].
      pose proof (skip_ws_length s2). simpl in *. split; [lia|].
      intros [|fuel'] Hfuel'; [lia|]. cbn [JSON.parse_elements].
      rewrite Hfuel1 by lia. rewrite Hskip, Hcomma, Hfuel2; [done|lia].
    + destruct (c =? 93)%N eqn:Hclose; [|done].
      intros [= <- <-]. simpl in *. split; [lia|].
      intros [|fuel'] Hfuel'; [lia|]. cbn [JSON.parse_elements].
      rewrite Hfuel1 by lia. by rewrite Hskip, Hcomma, Hclose.
  - intros s ms rest. cbn [JSON.parse_members].
    destruct s as [|q s0]; [done|]. destruct (q =? 34)%N eqn:Hquote; [|done].
    destruct (JSON.parse_chars s0) as [[k s1]|] eqn:Hk; [|done].
    pose proof (parse_chars_length _ _ _ Hk) as Hlen0.
    pose proof (skip_ws_length s1) as Hws1.
    destruct (JSON.skip_ws s1) as [|c s2] eqn:Hskip1; [done|].
    destruct (c =? 58)%N eqn:Hcolon; [|done].
    pose proof (skip_ws_length s2) as Hws2.
    destruct (JSON.parse_value fuel (JSON.skip_ws s2)) as [[v s3]|] eqn:Hv;
      [|done].
    destruct (IHv _ _ _ Hv) as [Hlen1 Hfuel1].
    pose proof (skip_ws_length s3) as Hws3.
    destruct (JSON.skip_ws s3) as [|d s4] eqn:Hskip3; [done|].
    destruct (d =? 44)%N eqn:Hcomma.
    + destruct (JSON.parse_members fuel (JSON.skip_ws s4))
        as [[ms' rest']|] eqn:Hms; [|done].
      intros [= <- <-]. destruct (IHm _ _ _ Hms) as [Hlen2 Hfuel2].
      pose proof (skip_ws_length s4). simpl in *. split; [lia|].
      intros [|fuel'] Hfuel'; [lia|]. cbn [JSON.parse_members].
      rewrite Hquote, Hk, Hskip1, Hcolon. rewrite Hfuel1 by lia.
      rewrite Hskip3, Hcomma, Hfuel2; [done|lia].
    + destruct (d =? 125)%N eqn:Hclose; [|done].
      intros [= <- <-]. simpl in *. split; [lia|].
      intros [|fuel'] Hfuel'; [lia|]. cbn [JSON.parse_members].
      rewrite Hquote, Hk, Hskip1, Hcolon. rewrite Hfuel1 by lia.
      by rewrite Hskip3, Hcomma, Hclose.
Qed.

(** [JSON.parse] fails only on text that no amount of fuel parses. *)
Lemma parse_complete text fuel v rest :
  JSON.parse_value fuel (JSON.skip_ws text) = Some (v, rest) →
  JSON.skip_ws rest = [] →
  JSON.parse text = Some v.
Proof.
  intros Hv Hrest. destruct (parse_value_fuel fuel) as (Hfuel & _ & _).
  destruct (Hfuel _ _ _ Hv) as [Hlen Hany]. unfold JSON.parse.
  rewrite Hany, Hrest; [done|]. pose proof (skip_ws_length text). lia.
Qed.

(** ** The JSON serializer *)

(** C6, as the code has it.  A record set of values as [JSON.parse]
    builds them that holds no infinite number comes back from
    serializing and parsing with every field equal, a negative zero
    coming back as the positive zero; without a negative zero it comes
    back identical. *)
Theorem stringify_parse_round_trip entries :
  well_formed (JArr entries) = true →
  no_infinity (JArr entries) = true →
  JSON.parse (JSON.stringify (JArr entries))
  = Some (unsigned_zeros (JArr entries)) ∧
  (finite (JArr entries) = true →
   JSON.parse (JSON.stringify (JArr entries)) = Some (JArr entries)).
Proof.
  intros Hwf Hinf. split.
  - by apply parse_stringify_zeros.
  - intros Hfin. by apply parse_stringify.
Qed.

Lemma stringify_parse_round_trip_witness :
  JSON.parse (JSON.stringify (JArr (concat sample_entries)))
  = Some (unsigned_zeros (JArr (concat sample_entries))) ∧
  (finite (JArr (concat sample_entries)) = true →
   JSON.parse (JSON.stringify (JArr (concat sample_entries)))
   = Some (JArr (concat sample_entries))).
Proof.
  apply (stringify_parse_round_trip (concat sample_entries));
    vm_compute; reflexivity.
Defined.

(** C6 fails as stated: a number literal beyond the double range is read
    as infinity, the serializer writes infinity as [null], and the record
    comes back with [null] in the field. *)
Lemma stringify_parse_loses_infinity :
  extractEntries (document_of deep_json)
  = Ok [deep_record (JNum (NInf false))] ∧
  JSON.parse (JSON.stringify (JArr [deep_record (JNum (NInf false))]))
  = Some (JArr [deep_record JNull]) ∧
  JSON.parse (JSON.stringify (JArr [deep_record (JNum (NInf false))]))
  ≠ Some (JArr [deep_record (JNum (NInf false))]).
Proof. split_and!; [by vm_compute..|]. vm_compute. discriminate. Qed.

(** ** Merging further files *)

Section keep_first.
Context {A : Type} (key : A → option json).
Implicit Types (l : list A) (seen : list (option json)).

Lemma keep_first_seen_ext seen seen' l :
  (∀ k, existsb (same_value_zero k) seen = existsb (same_value_zero k) seen') →
  keep_first key seen l = keep_first key seen' l.
Proof.
  revert seen seen'. induction l as [|x l IH]; intros seen seen' Hext; [done|].
  simpl. rewrite <- Hext. destruct (existsb _ seen) eqn:Hx.
  - by apply IH.
  - f_equal. apply IH. intros k. rewrite !existsb_app. by rewrite Hext.
Qed.

Lemma keep_first_app seen l1 l2 :
  keep_first key seen (l1 ++ l2)
  = keep_first key seen l1
    ++ keep_first key (seen ++ (key <$> keep_first key seen l1)) l2.
Proof.
  revert seen. induction l1 as [|x l1 IH]; intros seen; simpl.
  - by rewrite app_nil_r.
  - destruct (existsb _ seen); [apply IH|].
    rewrite IH, fmap_cons. simpl. by rewrite <- app_assoc.
Qed.

Lemma keep_first_filter seen seen' l :
  keep_first key (seen ++ seen') l
  = filter (λ x, existsb (same_value_zero (key x)) seen = false)
      (keep_first key seen' l).
Proof.
  revert seen'. induction l as [|x l IH]; intros seen'; [done|].
  simpl. rewrite existsb_app.
  destruct (existsb (same_value_zero (key x)) seen') eqn:Hx'.
  - rewrite orb_true_r. apply IH.
  - rewrite orb_false_r.
    destruct (existsb (same_value_zero (key x)) seen) eqn:Hx.
    + rewrite filter_cons, decide_False by congruence.
      rewrite <- IH. apply keep_first_seen_ext. intros k.
      rewrite !existsb_app. simpl. rewrite orb_false_r.
      destruct (same_value_zero k (key x)) eqn:Hk; [|by rewrite orb_false_r].
      by rewrite (existsb_same_class _ _ seen Hk), Hx.
    + rewrite filter_cons, decide_True by done.
      by rewrite <- IH, <- app_assoc.
Qed.

(** The values of a second list that [uniqBy] adds to those of a first. *)
Lemma uniqBy_app l1 l2 :
  uniqBy (l1 ++ l2) key
  = uniqBy l1 key
    ++ filter (λ x, existsb (same_value_zero (key x)) (key <$> uniqBy l1 key)
                    = false)
         (uniqBy l2 key).
Proof.
  rewrite !uniqBy_keep_first, keep_first_app. f_equal. simpl.
  by rewrite <- keep_first_filter, app_nil_r.
Qed.

(** Every value is in the result or has its key there. *)
Lemma keep_first_represents seen l x :
  x ∈ l →
  x ∈ keep_first key seen l ∨
  existsb (same_value_zero (key x)) (seen ++ (key <$> keep_first key seen l))
  = true.
Proof.
  revert seen. induction l as [|y l IH]; intros seen Hx;
    [by apply elem_of_nil in Hx|].
  simpl. apply elem_of_cons in Hx as [->|Hx].
  - destruct (existsb (same_value_zero (key y)) seen) eqn:Hy.
    + right. by rewrite existsb_app, Hy.
    + left. by left.
  - destruct (existsb (same_value_zero (key y)) seen) eqn:Hy.
    + by apply IH.
    + destruct (IH (seen ++ [key y]) Hx) as [?|Hin].
      * left. by right.
      * right. by rewrite fmap_cons, (cons_middle (key y)), app_assoc.
Qed.

Lemma uniqBy_represents l x :
  x ∈ l →
  x ∈ uniqBy l key ∨
  ∃ y, y ∈ uniqBy l key ∧ same_value_zero (key x) (key y) = true.
Proof.
  intros Hx. rewrite uniqBy_keep_first.
  destruct (keep_first_represents [] l x Hx) as [?|Hin]; [by left|right].
  simpl in Hin. apply existsb_exists in Hin as (k & Hk & Hsame).
  apply list_elem_of_In, list_elem_of_fmap in Hk as (y & -> & Hy). eauto.
Qed.
End keep_first.

Lemma existsb_Permutation {A} (f : A → bool) l l' :
  l ≡ₚ l' → existsb f l = existsb f l'.
Proof.
  induction 1 as [|x l l' _ IH|x y l|l l' l'' _ IH1 _ IH2]; simpl.
  - done.
  - by rewrite IH.
  - by rewrite !orb_assoc, (orb_comm (f y)).
  - congruence.
Qed.

(** The number of distinct keys does not depend on their order. *)
Lemma count_distinct_Permutation keys keys' :
  keys ≡ₚ keys' → count_distinct keys = count_distinct keys'.
Proof.
  induction 1 as [|x l l' Hl IH|x y l|l l' l'' _ IH1 _ IH2]; simpl.
  - done.
  - by rewrite IH, (existsb_Permutation _ _ _ Hl).
  - rewrite (same_value_zero_sym y x).
    destruct (same_value_zero x y) eqn:Hxy; simpl; [|lia].
    by rewrite (existsb_same_class _ _ l Hxy).
  - congruence.
Qed.

Lemma concat_Permutation {A} (ls ls' : list (list A)) :
  ls ≡ₚ ls' → concat ls ≡ₚ concat ls'.
Proof.
  induction 1 as [|x l l' _ IH|x y l|l l' l'' _ IH1 _ IH2]; simpl.
  - done.
  - by rewrite IH.
  - rewrite !app_assoc. f_equiv. apply Permutation_app_comm.
  - by etrans.
Qed.
(** The record lists of the files: what each task fulfils with. *)
Lemma per_file_fmap filenames w per_file :
  Forall2 (λ f entries, (fileEntries f w).1 = Ok entries) filenames per_file ↔
  per_file = (λ f, default [] (succeeded (fileEntries f w).1)) <$> filenames ∧
  Forall (λ f, is_Some (succeeded (fileEntries f w).1)) filenames.
Proof.
  split.
  - induction 1 as [|f entries fs per_file Hf _ [-> IH]]; [done|].
    rewrite fmap_cons, Hf. split; [done|]. constructor; [|done].
    by rewrite Hf.
  - intros [-> Hall]. induction Hall as [|f fs [entries Hf] _ IH];
      [constructor|].
    rewrite fmap_cons. constructor; [|done].
    destruct (fileEntries f w).1; simplify_eq. done.
Qed.

Lemma processEntryFiles_Throw filenames w e :
  (processEntryFiles filenames w).1 = Throw e →
  ∃ f, f ∈ filenames ∧ (fileEntries f w).1 = Throw e.
Proof.
  unfold processEntryFiles, Promise.all.
  destruct (Promise.settle _ _ _) as [values|e'] eqn:Hsettle; [done|].
  intros [= ->]. apply settle_rejected in Hsettle.
  apply list_elem_of_fmap in Hsettle as (f & Hf & Hin). eauto.
Qed.

Lemma processEntryFiles_Throw_intro filenames w f e :
  f ∈ filenames → (fileEntries f w).1 = Throw e →
  ∃ e', (processEntryFiles filenames w).1 = Throw e'.
Proof.
  intros Hin Hf.
  destruct (processEntryFiles filenames w).1 as [out|e'] eqn:Hout; [|eauto].
  apply processEntryFiles_Ok in Hout as (per_file & Hper & _).
  apply per_file_fmap in Hper as [_ Hall].
  rewrite Forall_forall in Hall. destruct (Hall f Hin) as [entries Hsome].
  by rewrite Hf in Hsome.
Qed.

(** X1.  The merge rejects exactly when the task of some file rejects,
    and then with the error of such a task; rejecting or not, it leaves
    the files, the directories and the console as they were. *)
Theorem processEntryFiles_rejects filenames w :
  (∀ e, (processEntryFiles filenames w).1 = Throw e →
        ∃ f, f ∈ filenames ∧ (fileEntries f w).1 = Throw e) ∧
  (∀ f e, f ∈ filenames → (fileEntries f w).1 = Throw e →
          ∃ e', (processEntryFiles filenames w).1 = Throw e') ∧
  (processEntryFiles filenames w).2 = w.
Proof.
  split_and!.
  - apply processEntryFiles_Throw.
  - apply processEntryFiles_Throw_intro.
  - apply processEntryFiles_world.
Qed.

Lemma merged_record_payload filenames w out e :
  (processEntryFiles filenames w).1 = Ok out → e ∈ out →
  ∃ f content features feature,
    f ∈ filenames ∧ w_files w !! f = Some content ∧
    get_property (document_of content) (js "features")
    = Some (JArr features) ∧
    feature ∈ features ∧ payload feature = Some e.
Proof.
  intros (per_file & Hper & ->)%processEntryFiles_Ok He.
  apply baseUniq_subset in He as [He|He]; [by apply elem_of_nil in He|].
  apply list_elem_of_In, in_concat in He as (es & Hes & He).
  apply list_elem_of_In, list_elem_of_lookup in Hes as [i Hi].
  apply list_elem_of_In in He.
  destruct (Forall2_lookup_r _ _ _ _ _ Hper Hi) as (f & Hfi & Hf).
  rewrite fileEntries_unfold in Hf. simpl in Hf.
  destruct (w_files w !! f) as [content|] eqn:Hcontent; [|done].
  apply extractEntries_Ok in Hf as (features & -> & Hfeatures).
  apply list_elem_of_omap in He as (feature & Hin & Hpay).
  destruct Hfeatures as [->|Hfeatures]; [by apply elem_of_nil in Hin|].
  exists f, content, features, feature.
  split_and!; [by eapply list_elem_of_lookup_2|done..].
Qed.

Lemma payload_Some feature e :
  payload feature = Some e →
  get_property feature (js "attributes") = Some e ∧ truthy e = true.
Proof.
  unfold payload. intros Hpay.
  destruct (optional_attributes feature) as [attributes|] eqn:Hattr;
    simpl in Hpay; [|done].
  destruct (truthy attributes) eqn:Htruthy; simplify_eq.
  split; [|done]. unfold optional_attributes in Hattr. by destruct feature.
Qed.

(** X2.  Every merged record comes from the input: it is the truthy
    [attributes] payload of a member of the [features] array of one of
    the files, which parsed as JSON. *)
Theorem processEntryFiles_provenance filenames w out e :
  (processEntryFiles filenames w).1 = Ok out → e ∈ out →
  ∃ f content document features feature,
    f ∈ filenames ∧ w_files w !! f = Some content ∧
    JSON.parse content = Some document ∧
    get_property document (js "features") = Some (JArr features) ∧
    feature ∈ features ∧
    get_property feature (js "attributes") = Some e ∧
    truthy e = true.
Proof.
  intros Hout He.
  destruct (merged_record_payload filenames w out e Hout He)
    as (f & content & features & feature & Hf & Hcontent & Hfeatures &
        Hin & Hpay).
  unfold document_of in Hfeatures.
  destruct (JSON.parse content) as [document|] eqn:Hparse; [|done].
  apply payload_Some in Hpay as [Hattr Htruthy].
  by exists f, content, document, features, feature.
Qed.

Lemma processEntryFiles_provenance_witness :
  ∃ f content document features feature,
    f ∈ sample_files ∧ w_files sample_world !! f = Some content ∧
    JSON.parse content = Some document ∧
    get_property document (js "features") = Some (JArr features) ∧
    feature ∈ features ∧
    get_property feature (js "attributes") = Some (sample_record 2 "Z") ∧
    truthy (sample_record 2 "Z") = true.
Proof.
  apply (processEntryFiles_provenance sample_files sample_world
           [sample_record 1 "X"; sample_record 2 "Z"]).
  - vm_compute. reflexivity.
  - right. left.
Defined.

Lemma fresh_for_spec out e :
  fresh_for out e = true ↔ ¬ ∃ a, a ∈ out ∧ same_id (id_of a) (id_of e).
Proof.
  unfold fresh_for. rewrite negb_true_iff, <- not_true_iff_false.
  apply not_iff_compat. rewrite existsb_exists. split.
  - intros (k & [a [-> Ha]]%list_elem_of_In%list_elem_of_fmap & Hsame).
    exists a. split; [done|]. rewrite same_value_zero_sym in Hsame.
    rewrite <- !objectid_id_of. by apply same_value_zero_same_id.
  - intros (a & Ha & Hsame). exists (objectid a). split.
    + apply list_elem_of_In, list_elem_of_fmap. by exists a.
    + rewrite same_value_zero_sym, !objectid_id_of.
      by apply same_value_zero_same_id.
Qed.

(** X3.  Merging further files after the first ones keeps the merge of
    the first ones as it is and appends, of the merge of the further
    files, the records whose objectid no record kept so far shares. *)
Theorem processEntryFiles_append filenames more w out extra :
  (processEntryFiles filenames w).1 = Ok out →
  (processEntryFiles more w).1 = Ok extra →
  ∃ fresh : json → bool,
    (∀ e, fresh e = true ↔ ¬ ∃ a, a ∈ out ∧ same_id (id_of a) (id_of e)) ∧
    (processEntryFiles (filenames ++ more) w).1
    = Ok (out ++ filter (λ e, fresh e = true) extra).
Proof.
  intros (per_file & Hper & ->)%processEntryFiles_Ok
         (per_more & Hmore & ->)%processEntryFiles_Ok.
  exists (fresh_for (uniqBy (concat per_file) objectid)).
  split; [apply fresh_for_spec|].
  apply processEntryFiles_Ok. exists (per_file ++ per_more). split.
  - by apply Forall2_app.
  - rewrite concat_app, uniqBy_app. f_equal. apply list_filter_iff.
    intros e. unfold fresh_for. by rewrite negb_true_iff.
Qed.

Lemma processEntryFiles_append_witness :
  (processEntryFiles [js "input/a.json"; js "input/b.json"] sample_world).1
  = Ok [sample_record 1 "X"; sample_record 2 "Z"] ∧
  ∃ fresh : json → bool,
    (∀ e, fresh e = true ↔
          ¬ ∃ a, a ∈ [sample_record 1 "X"] ∧ same_id (id_of a) (id_of e)) ∧
    (processEntryFiles ([js "input/a.json"] ++ [js "input/b.json"])
       sample_world).1
    = Ok ([sample_record 1 "X"]
          ++ filter (λ e, fresh e = true)
               [sample_record 1 "Y"; sample_record 2 "Z"]).
Proof.
  split; [vm_compute; reflexivity|].
  apply (processEntryFiles_append [js "input/a.json"] [js "input/b.json"]
           sample_world); vm_compute; reflexivity.
Defined.

(** X4.  The order of the files decides which record stands for an
    objectid, not which objectids are there: in another order the merge
    succeeds as well, returns as many records, and holds every record of
    the first merge or one that shares its objectid. *)
Theorem processEntryFiles_permutation filenames filenames' w out :
  filenames ≡ₚ filenames' →
  (processEntryFiles filenames w).1 = Ok out →
  ∃ out',
    (processEntryFiles filenames' w).1 = Ok out' ∧
    length out' = length out ∧
    ∀ e, e ∈ out →
      e ∈ out' ∨ ∃ e', e' ∈ out' ∧ same_id (id_of e) (id_of e').
Proof.
  intros Hperm (per_file & [-> Hall]%per_file_fmap & ->)%processEntryFiles_Ok.
  set (entries_of := λ f, default [] (succeeded (fileEntries f w).1)).
  exists (uniqBy (concat (entries_of <$> filenames')) objectid).
  assert (concat (entries_of <$> filenames)
          ≡ₚ concat (entries_of <$> filenames')) as Hconcat.
  { by apply concat_Permutation, fmap_Permutation. }
  split_and!.
  - apply processEntryFiles_Ok. exists (entries_of <$> filenames').
    split; [|done]. apply per_file_fmap. split; [done|].
    by rewrite <- Hperm.
  - rewrite !uniqBy_length. symmetry.
    by apply count_distinct_Permutation, fmap_Permutation.
  - intros e He.
    assert (e ∈ concat (entries_of <$> filenames')) as Hin.
    { rewrite <- Hconcat.
      apply baseUniq_subset in He as [He|He];
        [by apply elem_of_nil in He|done]. }
    destruct (uniqBy_represents objectid _ _ Hin)
      as [?|(e' & He' & Hsame)]; [by left|right].
    exists e'. split; [done|]. rewrite <- !objectid_id_of.
    by apply same_value_zero_same_id.
Qed.

Lemma processEntryFiles_permutation_witness :
  ∃ out',
    (processEntryFiles [js "input/b.json"; js "input/a.json"] sample_world).1
    = Ok out' ∧
    length out' = length [sample_record 1 "X"; sample_record 2 "Z"] ∧
    ∀ e, e ∈ [sample_record 1 "X"; sample_record 2 "Z"] →
      e ∈ out' ∨ ∃ e', e' ∈ out' ∧ same_id (id_of e) (id_of e').
Proof.
  apply (processEntryFiles_permutation
           [js "input/a.json"; js "input/b.json"]
           [js "input/b.json"; js "input/a.json"] sample_world).
  - apply perm_swap.
  - vm_compute. reflexivity.
Defined.

(** ** Records with different keys *)

Lemma keep_first_all {A} (key : A → option json) seen (l : list A) :
  (∀ x, x ∈ l → existsb (same_value_zero (key x)) seen = false) →
  (∀ i j a b, i < j → l !! i = Some a → l !! j = Some b →
     same_value_zero (key a) (key b) = false) →
  keep_first key seen l = l.
Proof.
  revert seen. induction l as [|x l IH]; intros seen Hseen Hdiff; [done|].
  simpl. rewrite Hseen by left. f_equal. apply IH.
  - intros y Hy. rewrite existsb_app, Hseen by (by right). simpl.
    rewrite orb_false_r, same_value_zero_sym.
    apply list_elem_of_lookup in Hy as [j Hj].
    apply (Hdiff 0 (S j)); [lia|done..].
  - intros i j a b Hij Ha Hb. apply (Hdiff (S i) (S j)); [lia|done..].
Qed.

(** X5.  The merge returns every extracted record, in order, exactly
    when no two of them share an objectid. *)
Theorem processEntryFiles_lossless filenames w per_file :
  Forall2 (λ f entries, (fileEntries f w).1 = Ok entries) filenames per_file →
  (processEntryFiles filenames w).1 = Ok (concat per_file) ↔
  ∀ i j a b, i < j →
    concat per_file !! i = Some a → concat per_file !! j = Some b →
    ¬ same_id (id_of a) (id_of b).
Proof.
  intros Hper.
  assert ((processEntryFiles filenames w).1
          = Ok (uniqBy (concat per_file) objectid)) as ->.
  { apply processEntryFiles_Ok. by exists per_file. }
  split.
  - intros [= Heq] i j a b Hij Ha Hb.
    rewrite <- Heq in Ha, Hb.
    rewrite <- same_value_zero_not_same_id, <- !objectid_id_of.
    by eapply uniqBy_distinct.
  - intros Hdiff. f_equal. rewrite uniqBy_keep_first.
    apply keep_first_all; [done|]. intros i j a b Hij Ha Hb.
    rewrite !objectid_id_of. apply same_value_zero_not_same_id.
    by eapply Hdiff.
Qed.

Lemma processEntryFiles_lossless_witness :
  ((processEntryFiles [js "input/bad.json"; js "input/b.json"] sample_world).1
   = Ok [sample_record 1 "Y"; sample_record 2 "Z"] ↔
   ∀ i j a b, i < j →
     [sample_record 1 "Y"; sample_record 2 "Z"] !! i = Some a →
     [sample_record 1 "Y"; sample_record 2 "Z"] !! j = Some b →
     ¬ same_id (id_of a) (id_of b)) ∧
  (processEntryFiles [js "input/bad.json"; js "input/b.json"] sample_world).1
  = Ok [sample_record 1 "Y"; sample_record 2 "Z"].
Proof.
  split; [|vm_compute; reflexivity].
  apply (processEntryFiles_lossless [js "input/bad.json"; js "input/b.json"]
           sample_world [[]; [sample_record 1 "Y"; sample_record 2 "Z"]]).
  repeat constructor; vm_compute; reflexivity.
Defined.

(** ** What the extractor throws on *)

(** X6.  The extractor throws in two cases only, and then a TypeError:
    the document is [null], or its [features] is there and is neither
    [null] nor an array. *)
Theorem extractEntries_throws_iff document e :
  extractEntries document = Throw e ↔
  e = TypeError ∧
  (document = JNull ∨
   ∃ v, get_property document (js "features") = Some v ∧ v ≠ JNull ∧
        ∀ features, v ≠ JArr features).
Proof.
  split.
  - intros Hthrow.
    assert (e = TypeError) as ->.
    { unfold extractEntries in Hthrow.
      destruct document; try congruence;
        destruct (nullish_or _ _); congruence. }
    split; [done|].
    assert (document = JNull ∨ document ≠ JNull) as [|Hdoc]
      by (destruct document; auto); [by left|right].
    destruct (get_property document (js "features")) as [v|] eqn:Hv.
    + exists v. split_and!; [done| |].
      * intros ->. unfold extractEntries in Hthrow. rewrite Hv in Hthrow.
        by destruct document.
      * intros features ->.
        by rewrite (extractEntries_features _ _ Hdoc Hv) in Hthrow.
    + unfold extractEntries in Hthrow. rewrite Hv in Hthrow.
      by destruct document.
  - intros [-> [->|(v & Hv & Hnull & Harr)]]; [done|].
    unfold extractEntries. rewrite Hv.
    destruct document; try done; destruct v; simpl; try done;
      by destruct (Harr elems).
Qed.

(** ** Text that is no JSON *)

Lemma parse_blank text :
  forallb JSON.is_ws text = true → JSON.parse text = None.
Proof.
  intros Hblank. unfold JSON.parse.
  assert (JSON.skip_ws text = []) as ->; [|done].
  induction text as [|c text IH]; [done|]. simpl in *.
  apply andb_true_iff in Hblank as [-> ?]. auto.
Qed.

Lemma parse_byte_order_mark text : JSON.parse (65279%N :: text) = None.
Proof. done. Qed.

(** X7.  A file that is empty or blank, or that starts with a byte order
    mark, is no JSON: it loads as the empty object and contributes no
    record. *)
Theorem blank_file_contributes_nothing w filename (content : js_string) :
  w_files w !! filename = Some content →
  forallb JSON.is_ws content = true ∨ head content = Some 65279%N →
  loadFile filename w = (Ok (JObj []), w) ∧
  fileEntries filename w = (Ok [], w).
Proof.
  intros Hfile Hcontent.
  assert (JSON.parse content = None) as Hparse.
  { destruct Hcontent as [?|Hbom]; [by apply parse_blank|].
    destruct content as [|c content]; simplify_eq/=.
    apply parse_byte_order_mark. }
  rewrite loadFile_unfold, fileEntries_unfold. unfold document_of.
  by rewrite Hfile, Hparse.
Qed.

Lemma blank_file_contributes_nothing_witness :
  (loadFile (js "input/blank.json") blank_world = (Ok (JObj []), blank_world) ∧
   fileEntries (js "input/blank.json") blank_world = (Ok [], blank_world)) ∧
  (loadFile (js "input/marked.json") blank_world = (Ok (JObj []), blank_world) ∧
   fileEntries (js "input/marked.json") blank_world = (Ok [], blank_world)).
Proof.
  split.
  - apply (blank_file_contributes_nothing blank_world (js "input/blank.json")
             (js " ")); [vm_compute; reflexivity|left; vm_compute; reflexivity].
  - apply (blank_file_contributes_nothing blank_world (js "input/marked.json")
             (65279%N :: a_json));
      [vm_compute; reflexivity|right; reflexivity].
Defined.

(** ** Text that is written as it is *)

Lemma writes_as_is_nil : writes_as_is [].
Proof. by intros t. Qed.

Lemma writes_as_is_app s1 s2 :
  writes_as_is s1 → writes_as_is s2 → writes_as_is (s1 ++ s2).
Proof. intros H1 H2 t. by rewrite <- !app_assoc, H1, H2. Qed.

Lemma writes_as_is_char c :
  JSON.is_high_surrogate c = false → JSON.is_low_surrogate c = false →
  writes_as_is [c].
Proof. intros Hhigh Hlow t. cbn. by rewrite Hhigh, Hlow. Qed.

Lemma writes_as_is_cons c s :
  JSON.is_high_surrogate c = false → JSON.is_low_surrogate c = false →
  writes_as_is s → writes_as_is (c :: s).
Proof.
  intros Hhigh Hlow Hs. apply (writes_as_is_app [c]); [|done].
  by apply writes_as_is_char.
Qed.

Lemma writes_as_is_ascii s :
  Forall (λ c, c < 128)%N s → writes_as_is s.
Proof.
  induction 1 as [|c s Hc _ IH]; [apply writes_as_is_nil|].
  apply writes_as_is_cons; [| |done];
    unfold JSON.is_high_surrogate, JSON.is_low_surrogate;
    apply andb_false_iff; left; apply N.leb_gt; lia.
Qed.

Lemma writes_as_is_pair c d s :
  JSON.is_high_surrogate c = true → JSON.is_low_surrogate d = true →
  writes_as_is s → writes_as_is (c :: d :: s).
Proof. intros Hc Hd Hs t. cbn. by rewrite Hc, Hd, Hs. Qed.

Lemma hex_digit_ascii d : (d < 16)%N → (JSON.hex_digit d < 128)%N.
Proof. unfold JSON.hex_digit. intros Hd. destruct (d <? 10)%N; lia. Qed.

Lemma unicode_escape_as_is c : writes_as_is (JSON.unicode_escape c).
Proof.
  apply writes_as_is_ascii. unfold JSON.unicode_escape.
  repeat constructor; try lia; apply hex_digit_ascii, N.mod_lt; lia.
Qed.

Lemma quote_char_as_is c :
  JSON.is_high_surrogate c = false → writes_as_is (JSON.quote_char c).
Proof.
  intros Hhigh. unfold JSON.quote_char.
  repeat case_match;
    try (apply writes_as_is_ascii; by repeat constructor);
    try apply unicode_escape_as_is.
  rewrite Hhigh in *. apply writes_as_is_char; [done|].
  match goal with H : _ || _ || _ = false |- _ =>
    apply orb_false_iff in H as [_ ?] end. done.
Qed.

Lemma quote_chars_as_is s : writes_as_is (JSON.quote_chars s).
Proof.
  remember (length s) as n eqn:Hn. assert (length s ≤ n) as Hle by lia.
  clear Hn. revert s Hle.
  induction n as [|n IH]; intros [|c s] Hle; try apply writes_as_is_nil;
    [simpl in Hle; lia|].
  simpl in Hle. cbn [JSON.quote_chars].
  destruct (JSON.is_high_surrogate c) eqn:Hc.
  - destruct s as [|d s]; [apply unicode_escape_as_is|].
    destruct (JSON.is_low_surrogate d) eqn:Hd.
    + apply writes_as_is_pair; [done..|]. apply IH; simpl in *; lia.
    + apply writes_as_is_app; [apply unicode_escape_as_is|].
      apply IH; simpl in *; lia.
  - apply writes_as_is_app; [by apply quote_char_as_is|].
    apply IH; simpl in *; lia.
Qed.

Lemma quote_as_is s : writes_as_is (JSON.quote s).
Proof.
  unfold JSON.quote. apply (writes_as_is_app [34%N]).
  - apply writes_as_is_ascii. by repeat constructor.
  - apply writes_as_is_app; [apply quote_chars_as_is|].
    apply writes_as_is_ascii. by repeat constructor.
Qed.

Lemma digit_chars_ascii ds :
  Forall (λ d, d < 10)%N ds → Forall (λ c, c < 128)%N (digit_char <$> ds).
Proof.
  intros Hds. apply Forall_fmap. eapply Forall_impl; [exact Hds|].
  intros d Hd. unfold compose, digit_char. cbv beta in *. lia.
Qed.

Lemma decimal_ascii n : Forall (λ c, c < 128)%N (decimal n).
Proof. apply digit_chars_ascii, digits_of_N_digits. Qed.

Lemma digits_to_string_ascii ds e :
  Forall (λ d, d < 10)%N ds → Forall (λ c, c < 128)%N (digits_to_string ds e).
Proof.
  intros Hds. pose proof (digit_chars_ascii ds Hds) as Hcs.
  pose proof (decimal_ascii (Z.to_N (Z.abs (e + Z.of_nat (length ds) - 1))))
    as Hexp.
  unfold digits_to_string. repeat case_match; subst;
    try match goal with H : digit_char <$> ds = _ |- _ =>
          rewrite H in Hcs end;
    repeat first [apply Forall_app; split | apply Forall_cons; split];
    try done; try lia; try (apply Forall_replicate; lia);
    try (by apply Forall_take); try (by apply Forall_drop);
    try (by apply Forall_cons in Hcs as [? ?]);
    try (apply Forall_cons in Hcs as [? Hcs];
         by apply Forall_cons in Hcs as [? ?]).
Qed.

Lemma number_to_string_ascii x :
  is_double x = true → Forall (λ c, c < 128)%N (number_to_string x).
Proof.
  destruct x as [neg|neg ds e|neg]; intros Hdouble.
  - by repeat constructor.
  - apply is_double_spec in Hdouble as [Hcanon _].
    destruct (canonical_digits_spec ds Hcanon) as (Hds & _ & _).
    cbn [number_to_string]. apply Forall_app. split.
    + destruct neg; by repeat constructor.
    + by apply digits_to_string_ascii.
  - cbn [number_to_string]. apply Forall_app. split.
    + destruct neg; by repeat constructor.
    + by repeat constructor.
Qed.

Lemma writes_as_is_spaces indent : spaces indent → writes_as_is indent.
Proof.
  intros Hindent. apply writes_as_is_ascii.
  eapply Forall_impl; [exact Hindent|]. by intros c ->.
Qed.

(** The text of a value as [JSON.parse] builds them has no surrogate that
    stands alone. *)
Lemma serialize_as_is v :
  well_formed v = true →
  ∀ indent, spaces indent → writes_as_is (JSON.serialize indent v).
Proof.
  induction v as [|b|x|s|vs IH|ps IH] using json_ind; intros Hwf indent Hindent.
  - by apply writes_as_is_ascii; repeat constructor.
  - destruct b; by apply writes_as_is_ascii; repeat constructor.
  - cbn [JSON.serialize]. destruct (number_is_finite x).
    + by apply writes_as_is_ascii, number_to_string_ascii.
    + by apply writes_as_is_ascii; repeat constructor.
  - apply quote_as_is.
  - destruct vs as [|v1 vs]; [by apply writes_as_is_ascii; repeat constructor|].
    rewrite serialize_array. pose proof (spaces_gap indent Hindent) as Hinner.
    cbn [well_formed forallb] in Hwf. apply andb_true_iff in Hwf as [Hwf1 Hwfs].
    apply Forall_cons in IH as [IH1 IH].
    apply (writes_as_is_app [91%N; 10%N]);
      [by apply writes_as_is_ascii; repeat constructor|].
    apply writes_as_is_app; [by apply writes_as_is_spaces|].
    apply writes_as_is_app; [by apply IH1|].
    clear IH1 Hwf1. revert Hwfs.
    induction IH as [|v vs Hv _ IHvs]; intros Hwfs.
    + apply (writes_as_is_app [10%N]);
        [by apply writes_as_is_ascii; repeat constructor|].
      apply writes_as_is_app; [by apply writes_as_is_spaces|].
      by apply writes_as_is_ascii; repeat constructor.
    + cbn [forallb] in Hwfs. apply andb_true_iff in Hwfs as [Hwfv Hwfs].
      rewrite elements_text_cons.
      apply (writes_as_is_app [44%N; 10%N]);
        [by apply writes_as_is_ascii; repeat constructor|].
      apply writes_as_is_app; [by apply writes_as_is_spaces|].
      apply writes_as_is_app; [by apply Hv|]. by apply IHvs.
  - destruct ps as [|[k1 v1] ps];
      [by apply writes_as_is_ascii; repeat constructor|].
    rewrite serialize_object. pose proof (spaces_gap indent Hindent) as Hinner.
    rewrite well_formed_object in Hwf.
    apply andb_true_iff in Hwf as [_ Hwf]. cbn [forallb] in Hwf.
    apply andb_true_iff in Hwf as [Hwf1 Hwfs]. simpl in Hwf1.
    apply Forall_cons in IH as [IH1 IH]. simpl in IH1.
    apply (writes_as_is_app [123%N; 10%N]);
      [by apply writes_as_is_ascii; repeat constructor|].
    apply writes_as_is_app; [by apply writes_as_is_spaces|].
    apply writes_as_is_app; [apply quote_as_is|].
    apply (writes_as_is_app [58%N; 32%N]);
      [by apply writes_as_is_ascii; repeat constructor|].
    apply writes_as_is_app; [by apply IH1|].
    clear IH1 Hwf1. revert Hwfs.
    induction IH as [|[k v] ps Hv _ IHps]; intros Hwfs.
    + apply (writes_as_is_app [10%N]);
        [by apply writes_as_is_ascii; repeat constructor|].
      apply writes_as_is_app; [by apply writes_as_is_spaces|].
      by apply writes_as_is_ascii; repeat constructor.
    + cbn [forallb] in Hwfs. apply andb_true_iff in Hwfs as [Hwfv Hwfs].
      simpl in Hwfv, Hv. rewrite members_text_cons.
      apply (writes_as_is_app [44%N; 10%N]);
        [by apply writes_as_is_ascii; repeat constructor|].
      apply writes_as_is_app; [by apply writes_as_is_spaces|].
      apply writes_as_is_app; [apply quote_as_is|].
      apply (writes_as_is_app [58%N; 32%N]);
        [by apply writes_as_is_ascii; repeat constructor|].
      apply writes_as_is_app; [by apply Hv|]. by apply IHps.
Qed.

(** The JSON text of a record set is written as it is. *)
Lemma to_well_formed_stringify v :
  well_formed v = true → to_well_formed (JSON.stringify v) = JSON.stringify v.
Proof.
  intros Hwf. unfold JSON.stringify.
  pose proof (serialize_as_is v Hwf [] ltac:(constructor) []) as Hw.
  by rewrite !app_nil_r in Hw.
Qed.

(** ** What the exporter touches *)

Lemma open_error_None p files dirs :
  fsp.open_error p files dirs = None →
  p ≠ [] ∧ (p ∉ dirs) ∧ last p ≠ Some SLASH.
Proof. unfold fsp.open_error. by repeat case_decide. Qed.





(** X10.  What the JSON export writes of records as [JSON.parse] builds
    them, none holding an infinite number, loads back as the records,
    negative zeros unsigned.  Read as an input file it contributes no
    record, since the export is an array and has no [features]. *)
Theorem exported_json_loads_back entries options w :
  let file := default (js "./output.json") (options ≫= outputFile) in
  let r := saveEntries entries options w in
  default (js "json") (options ≫= format) = js "json" →
  r.1 = Ok () →
  well_formed (JArr entries) = true →
  no_infinity (JArr entries) = true →
  w_files r.2 !! file = Some (JSON.stringify (JArr entries)) ∧
  loadFile file r.2 = (Ok (unsigned_zeros (JArr entries)), r.2) ∧
  fileEntries file r.2 = (Ok [], r.2).
Proof.
  intros file r Hfmt Hok Hwf Hinf.
  destruct (saveEntries_cases entries options w) as (_ & _ & _ & Hcases).
  fold file r in Hcases. rewrite Hfmt in Hcases.
  destruct Hcases as
    [(e & _ & Hr & _)
    |(_ & _ & _ &
      [(_ & Hr & _)
      |[(s & e & _ & _ & Hr & _)
       |(s & data & [= <-] & [= <-] &
         [(e & _ & Hr & _)|(_ & _ & Hf)])]])];
    try congruence.
  cbn [fsp.written_text] in Hf. rewrite to_well_formed_stringify in Hf by done.
  rewrite loadFile_unfold, fileEntries_unfold, Hf, lookup_insert_eq.
  unfold document_of. by rewrite (parse_stringify_zeros _ Hwf Hinf).
Qed.

Lemma exported_json_loads_back_witness :
  let entries := [sample_record 1 "X"; sample_record 2 "Z"] in
  let r := saveEntries entries None sample_world in
  w_files r.2 !! js "./output.json" = Some (JSON.stringify (JArr entries)) ∧
  loadFile (js "./output.json") r.2 = (Ok (unsigned_zeros (JArr entries)), r.2) ∧
  fileEntries (js "./output.json") r.2 = (Ok [], r.2).
Proof.
  apply (exported_json_loads_back [sample_record 1 "X"; sample_record 2 "Z"]
           None sample_world); vm_compute; reflexivity.
Defined.

(** X11.  The exporter logs the directory before making it and, once it
    is made, the number of records and the output file, before the format
    is looked at. *)
Theorem saveEntries_logs entries options w :
  let file := default (js "./output.json") (options ≫= outputFile) in
  let dir := path.dirname file in
  let r := saveEntries entries options w in
  w_console r.2
  = w_console w
    ++ (js "Creating parent directory " ++ QUOTE :: dir ++ [QUOTE])
    :: match (fsp.mkdir dir w).1 with
       | Ok _ =>
           [js "Writing " ++ decimal (N.of_nat (length entries)) ++
            js " entries to file " ++ QUOTE :: file ++ [QUOTE]]
       | Throw _ => []
       end.
Proof.
  intros file dir r.
  destruct (saveEntries_cases entries options w) as (_ & _ & _ & Hcases).
  fold file dir r in Hcases.
  by destruct Hcases as [(e & -> & _ & _ & _ & ->)|(-> & _ & -> & _)].
Qed.

(** X12.  Exporting as JSON again to the same file replaces what the
    first export wrote: the file holds what the second export alone would
    have written, and no further directory is made. *)
Theorem saveEntries_last_write_wins entries1 entries2 options w :
  let r1 := saveEntries entries1 options w in
  let r2 := saveEntries entries2 options r1.2 in
  default (js "json") (options ≫= format) = js "json" →
  r1.1 = Ok () →
  r2.1 = Ok () ∧
  w_files r2.2 = w_files (saveEntries entries2 options w).2 ∧
  w_dirs r2.2 = w_dirs r1.2.
Proof.
  intros r1 r2 Hfmt Hok.
  set (file := default (js "./output.json") (options ≫= outputFile)).
  set (dir := path.dirname file).
  set (made := list_to_set (dir :: path.ancestors dir) : gset js_string).
  destruct (saveEntries_cases entries1 options w) as (_ & _ & Hb1 & H1).
  destruct (saveEntries_cases entries2 options w) as (_ & _ & _ & H0).
  destruct (saveEntries_cases entries2 options r1.2) as (_ & _ & _ & H2).
  fold file dir made r1 in H1, Hb1. fold file dir made in H0.
  fold file dir made r2 in H2. rewrite Hfmt in H0, H1, H2.
  destruct H1 as
    [(e & _ & Hr & _)
    |(Hmkdir & Hd1 & _ &
      [(_ & Hr & _)
      |[(s & e & _ & _ & Hr & _)
       |(s & data & [= <-] & [= <-] &
         [(e & _ & Hr & _)|(Hopen & _ & Hf1)])]])];
    try congruence.
  destruct (open_error_None _ _ _ Hopen) as (Hfile & Hdir & Hslash).
  destruct (mkdir_Ok _ _ Hmkdir) as [Hfree _].
  assert (Forall (λ d, d ∉ dom (w_files r1.2)) (dir :: path.ancestors dir))
    as Hfree'.
  { rewrite Hf1. rewrite Forall_forall in Hfree. apply Forall_forall.
    intros d Hd. rewrite dom_insert. apply not_elem_of_union.
    split; [|by apply Hfree]. intros ->%elem_of_singleton.
    by apply Hdir, elem_of_union_l, elem_of_list_to_set. }
  assert ((fsp.mkdir dir r1.2).1 = Ok ()) as Hmkdir'.
  { unfold fsp.mkdir. apply Forall_cons in Hfree' as [? ?].
    rewrite decide_False by done.
    by rewrite decide_False by (by apply Forall_Exists_neg). }
  rewrite Hmkdir, Hopen in H0. rewrite Hmkdir', Hd1 in H2.
  rewrite (open_error_made file (w_files r1.2) (made ∪ w_dirs w)) in H2;
    [|done|done| |done].
  2: { intros [?|?]%elem_of_union; apply Hdir; [|done].
       by apply elem_of_union_l. }
  destruct H0 as
    [(e & ? & _)
    |(_ & _ & _ &
      [(? & _)
      |[(s & e & [= <-] & ? & _)
       |(s & data & [= <-] & [= <-] & [(e & ? & _)|(_ & _ & Hf0)])]])];
    try done.
  destruct H2 as
    [(e & ? & _)
    |(_ & Hd2 & _ &
      [(? & _)
      |[(s & e & [= <-] & ? & _)
       |(s & data & [= <-] & [= <-] & [(e & ? & _)|(_ & Hr2 & Hf2)])]])];
    try done.
  split_and!; [done| |].
  - by rewrite Hf2, Hf0, Hf1, Hb1, insert_insert_eq.
  - rewrite Hd2, Hd1. clear. set_solver.
Qed.

Lemma saveEntries_last_write_wins_witness :
  let r1 := saveEntries [sample_record 1 "X"] None sample_world in
  let r2 := saveEntries [sample_record 2 "Z"] None r1.2 in
  r2.1 = Ok () ∧
  w_files r2.2 = w_files (saveEntries [sample_record 2 "Z"] None sample_world).2 ∧
  w_dirs r2.2 = w_dirs r1.2.
Proof.
  apply (saveEntries_last_write_wins [sample_record 1 "X"]
           [sample_record 2 "Z"] None sample_world); vm_compute; reflexivity.
Defined.

(** ** The table of records with the same fields *)





(** ** The whole run *)

Lemma main_unfold w :
  main w =
  match w_glob w (js "input/*.json") with
  | Throw e => (Throw e, w)
  | Ok files =>
      match (processEntryFiles files w).1 with
      | Throw e => (Throw e, w)
      | Ok entries =>
          saveEntries entries
            (Some {| outputFile := Some (js "./output/geology-sk.csv");
                     format := Some (js "csv") |}) w
      end
  end.
Proof.
  unfold main, mbind, IO_bind, readFiles.
  destruct (w_glob w _) as [files|e]; [|done].
  rewrite (surjective_pairing (processEntryFiles files w)).
  rewrite processEntryFiles_world.
  by destruct (processEntryFiles files w).1.
Qed.

Lemma output_chain :
  path.dirname (js "./output/geology-sk.csv")
  :: path.ancestors (path.dirname (js "./output/geology-sk.csv"))
  = [js "./output"; js "."].
Proof. by vm_compute. Qed.

Lemma output_dirname :
  path.dirname (js "./output/geology-sk.csv") = js "./output".
Proof. by vm_compute. Qed.

Lemma output_made :
  list_to_set (C := gset js_string) [js "./output"; js "."]
  = {[js "./output"; js "."]}.
Proof. simpl. by rewrite (right_id_L ∅ (∪)). Qed.

Lemma mkdir_Ok_intro p w :
  Forall (λ d, d ∉ dom (w_files w)) (p :: path.ancestors p) →
  (fsp.mkdir p w).1 = Ok ().
Proof.
  intros [? ?]%Forall_cons. unfold fsp.mkdir.
  rewrite decide_False by done.
  by rewrite decide_False by (by apply Forall_Exists_neg).
Qed.

(** X14.  When the file search fails, or one of the files found fails to
    load or to extract, the run rejects with that error, or with the error
    of another such file, and touches nothing: no directory, no log line,
    no output. *)
Theorem main_rejects_early w :
  (∀ e, w_glob w (js "input/*.json") = Throw e → main w = (Throw e, w)) ∧
  (∀ files f e,
     w_glob w (js "input/*.json") = Ok files → f ∈ files →
     (fileEntries f w).1 = Throw e →
     ∃ f' e', f' ∈ files ∧ (fileEntries f' w).1 = Throw e' ∧
              main w = (Throw e', w)).
Proof.
  split.
  - intros e Hglob. by rewrite main_unfold, Hglob.
  - intros files f e Hglob Hin Hf. rewrite main_unfold, Hglob.
    destruct (processEntryFiles_Throw_intro files w f e Hin Hf) as [e' He'].
    destruct (processEntryFiles_Throw files w e' He') as (f' & Hin' & Hf').
    exists f', e'. by rewrite He'.
Qed.



Lemma merged_record_truthy filenames w out e :
  (processEntryFiles filenames w).1 = Ok out → e ∈ out → truthy e = true.
Proof.
  intros Hout He.
  destruct (merged_record_payload filenames w out e Hout He)
    as (f & content & features & feature & _ & _ & _ & _ & Hpay).
  by apply payload_Some in Hpay as [_ ?].
Qed.

(** X16.  When the first merged record is neither an object nor an array
    (the payload of a feature may be a string, a number or [true]), the
    run rejects with the error of the CSV library after [./output] was
    made, and writes no file. *)
Theorem main_unserializable w files out :
  w_glob w (js "input/*.json") = Ok files →
  (processEntryFiles files w).1 = Ok out →
  from_option is_row true (head out) = false →
  (fsp.mkdir (js "./output") w).1 = Ok () →
  (main w).1 = Throw (Error (js "Unable to serialize unrecognized input")) ∧
  w_files (main w).2 = w_files w ∧
  w_dirs (main w).2 = {[js "./output"; js "."]} ∪ w_dirs w.
Proof.
  intros Hglob Hout Hrow Hmkdir.
  assert (Papa.unparse out
          = Throw (Error (js "Unable to serialize unrecognized input")))
    as Htext.
  { destruct out as [|row out']; [done|].
    assert (truthy row = true) as Htruthy.
    { apply (merged_record_truthy files w (row :: out')); [done|by left]. }
    by destruct row. }
  rewrite main_unfold, Hglob, Hout.
  destruct (saveEntries_cases out
              (Some {| outputFile := Some (js "./output/geology-sk.csv");
                       format := Some (js "csv") |}) w)
    as (_ & _ & _ & Hcases).
  cbn [default from_option id mbind option_bind outputFile format] in Hcases.
  rewrite output_chain, output_dirname, output_made in Hcases.
  rewrite Hmkdir in Hcases.
  destruct Hcases as
    [(e & ? & _)
    |(_ & Hd & _ &
      [(? & _)
      |[(s & e & [= <-] & Hs & Hr & Hf)
       |(s & content & [= <-] & Hs & _)]])];
    try done; simpl in Hs; rewrite Htext in Hs; [|done].
  injection Hs as <-. by rewrite Hr, Hf, Hd.
Qed.

Lemma main_unserializable_witness :
  (processEntryFiles [js "input/odd.json"] odd_world).1
  = Ok [JStr (js "text")] ∧
  (main odd_world).1
  = Throw (Error (js "Unable to serialize unrecognized input")) ∧
  w_files (main odd_world).2 = w_files odd_world ∧
  w_dirs (main odd_world).2 = {[js "./output"; js "."]} ∪ w_dirs odd_world.
Proof.
  split; [vm_compute; reflexivity|].
  apply (main_unserializable odd_world [js "input/odd.json"]
           [JStr (js "text")]); vm_compute; reflexivity.
Defined.


(** X18.  Running again after a run that succeeded, with the same files
    found and the output not among them, succeeds and leaves the files and
    the directories as the first run left them. *)
Theorem main_rerun w files :
  w_glob w (js "input/*.json") = Ok files →
  js "./output/geology-sk.csv" ∉ files →
  (main w).1 = Ok () →
  (main (main w).2).1 = Ok () ∧
  w_files (main (main w).2).2 = w_files (main w).2 ∧
  w_dirs (main (main w).2).2 = w_dirs (main w).2.
Proof.
  intros Hglob Hfiles. rewrite (main_unfold w), Hglob.
  destruct (processEntryFiles files w).1 as [out|e] eqn:Hout; [|done].
  set (options := Some {| outputFile := Some (js "./output/geology-sk.csv");
                          format := Some (js "csv") |}).
  set (w1 := (saveEntries out options w).2). intros Hok.
  destruct (saveEntries_cases out options w) as (Hg & _ & Hb & H1).
  cbn [default from_option id mbind option_bind outputFile format options]
    in H1.
  rewrite output_chain, output_dirname in H1.
  fold options w1 in H1, Hg, Hb.
  destruct H1 as
    [(e & _ & Hr & _)
    |(Hmkdir & Hd1 & _ &
      [(_ & Hr & _)
      |[(s & e & _ & _ & Hr & _)
       |(s & content & [= <-] & Hs &
         [(e & _ & Hr & _)|(Hopen & Hr1 & Hf1)])]])];
    try congruence.
  destruct (open_error_None _ _ _ Hopen) as (_ & Hdir & _).
  assert ((processEntryFiles files w1).1 = Ok out) as Hout'.
  { apply processEntryFiles_Ok in Hout as (per_file & Hper & ->).
    apply processEntryFiles_Ok. exists per_file. split; [|done].
    apply per_file_fmap in Hper as [-> Hall]. apply per_file_fmap.
    assert (∀ f, f ∈ files → (fileEntries f w1).1 = (fileEntries f w).1)
      as Hsame.
    { intros f Hf. rewrite Forall_forall in Hall.
      pose proof (Hall f Hf) as Hloads. revert Hloads.
      rewrite !fileEntries_unfold. simpl.
      rewrite Hf1, lookup_insert_ne by (by intros <-).
      destruct (w_files w !! f); [done|]. by intros [? [=]]. }
    split.
    - apply list_fmap_ext. intros i f Hi.
      by rewrite Hsame by (by eapply list_elem_of_lookup_2).
    - rewrite Forall_forall in Hall. apply Forall_forall. intros f Hf.
      rewrite Hsame by done. by apply Hall. }
  rewrite (main_unfold w1), Hg, Hglob, Hout'.
  destruct (mkdir_Ok _ _ Hmkdir) as [Hfree _].
  assert (Forall (λ d, d ∉ dom (w_files w1)) [js "./output"; js "."])
    as Hfree'.
  { change (path.ancestors (js "./output")) with [js "."] in Hfree.
    rewrite Hf1. rewrite Forall_forall in Hfree. apply Forall_forall.
    intros d Hd. rewrite dom_insert. apply not_elem_of_union.
    split; [|by apply Hfree]. intros ->%elem_of_singleton.
    by apply Hdir, elem_of_union_l, elem_of_list_to_set. }
  assert ((fsp.mkdir (js "./output") w1).1 = Ok ()) as Hmkdir'.
  { by apply mkdir_Ok_intro. }
  destruct (saveEntries_cases out options w1) as (_ & _ & _ & H2).
  cbn [default from_option id mbind option_bind outputFile format options]
    in H2.
  rewrite output_chain, output_dirname in H2.
  fold options in H2. rewrite Hmkdir', Hd1, Hb in H2.
  pose proof (open_error_made (js "./output/geology-sk.csv") (w_files w1)
                (list_to_set [js "./output"; js "."] ∪ w_dirs w)) as Hopen'.
  cbv zeta in Hopen'. rewrite output_chain in Hopen'.
  rewrite Hopen' in H2; [|done|done| |done].
  2: { intros [?|?]%elem_of_union; apply Hdir; [|done].
       by apply elem_of_union_l. }
  destruct H2 as
    [(e & ? & _)
    |(_ & Hd2 & _ &
      [(? & _)
      |[(s & e & [= <-] & ? & _)
       |(s & content' & [= <-] & Hs' &
         [(e & ? & _)|(_ & Hr2 & Hf2)])]])];
    try done; try congruence.
  fold options. rewrite Hs in Hs'. injection Hs' as <-.
  split_and!; [congruence| |].
  - by rewrite Hf2, Hf1, insert_insert_eq.
  - rewrite Hd2, Hd1. clear. set_solver.
Qed.

Lemma main_rerun_witness :
  (main (main sample_world).2).1 = Ok () ∧
  w_files (main (main sample_world).2).2 = w_files (main sample_world).2 ∧
  w_dirs (main (main sample_world).2).2 = w_dirs (main sample_world).2.
Proof.
  apply (main_rerun sample_world sample_files).
  - reflexivity.
  - apply (bool_decide_unpack _). vm_compute. exact I.
  - vm_compute. reflexivity.
Defined.
